(** * Rendering core: render actions and the standard material

    A shallow embedding of two pieces of the engine:

    - [RenderAction.collectDirectionalLights] (scene/composition/render-action.js),
      the per-action collection of the shadow casting directional lights;
    - the property system of [StandardMaterial]
      (src/scene/materials/standard-material.js): the property registry filled
      by [_defineMaterialProps], the accessors it installs, the uniform
      functions, [updateUniforms], [_processParameters] and
      [getShaderVariant].

    JavaScript numbers are binary64 floats ([PrimFloat.float]); objects are
    references with an identity; [Set] objects and typed arrays live in
    explicit stores, because the code swaps and re-uses them. *)

From Stdlib Require Import PrimFloat ZArith.
From Stdlib Require FloatOps SpecFloat.
From stdpp Require Import gmap strings list fin_maps.

#[local] Set Warnings "-inexact-float,-register-all".
Local Open Scope Z_scope.

(* ===================================================================== *)
(** * Render actions                                                      *)
(* ===================================================================== *)

Module RenderAction.

(** A light is an object; only its identity and its [castShadows] field are
    looked at.  The identity is a number, the field is read through
    [castShadows]. *)
Definition Light := nat.

(** A layer, reduced to [_splitLights[LIGHTTYPE_DIRECTIONAL]]. *)
Record Layer := mkLayer { splitLightsDirectional : list Light }.

(** The three fields of a render action that [collectDirectionalLights] and
    [reset] write. *)
Record t := mk {
  directionalLightsSet : gset Light;
  directionalLights : list Light;
  directionalLightsIndices : list Z
}.

(** [Array.prototype.indexOf]: position of the first element identical to
    [x], or [-1]. *)
Fixpoint indexOfFrom (i : Z) (l : list Light) (x : Light) : Z :=
  match l with
  | [] => -1
  | y :: l' => if decide (y = x) then i else indexOfFrom (i + 1) l' x
  end.

Definition indexOf (l : list Light) (x : Light) : Z := indexOfFrom 0 l x.

Definition hasDirectionalShadowLights (ra : t) : bool :=
  bool_decide (0 < length (directionalLights ra))%nat.

Definition reset (ra : t) : t :=
  {| directionalLightsSet := ∅;
     directionalLights := [];
     directionalLightsIndices := [] |}.

Section Collect.
Variable castShadows : Light → bool.

(** Body of the inner loop, for one layer of the camera. *)
Definition visitLayer (allLights : list Light) (light : Light)
    (ra : t) (layer : Layer) : t :=
  if 0 <=? indexOf (splitLightsDirectional layer) light then
    if decide (light ∈ directionalLightsSet ra) then ra
    else
      {| directionalLightsSet := {[ light ]} ∪ directionalLightsSet ra;
         directionalLights := directionalLights ra ++ [light];
         directionalLightsIndices :=
           directionalLightsIndices ra ++ [indexOf allLights light] |}
  else ra.

(** Body of the outer loop, for one directional light. *)
Definition visitLight (cameraLayers : list Layer) (allLights : list Light)
    (ra : t) (light : Light) : t :=
  if castShadows light
  then foldl (visitLayer allLights light) ra cameraLayers
  else ra.

Definition collectDirectionalLights (cameraLayers : list Layer)
    (dirLights allLights : list Light) (ra : t) : t :=
  foldl (visitLight cameraLayers allLights) (reset ra) dirLights.

End Collect.

(** The set and the two arrays describe the same lights. *)
Definition lockstep (allLights : list Light) (ra : t) : Prop :=
  (∀ L, L ∈ directionalLightsSet ra ↔ L ∈ directionalLights ra)
  ∧ NoDup (directionalLights ra)
  ∧ directionalLightsIndices ra = indexOf allLights <$> directionalLights ra.

End RenderAction.

(* ===================================================================== *)
(** * JavaScript values                                                   *)
(* ===================================================================== *)

Module Js.

(** The objects a material property may hold.  Colours and 2D vectors are the
    aggregates of the math library; a texture is looked at only through
    [type], [fixCubemapSeams] and [format]. *)
Inductive obj :=
| OColor (r g b a : float)
| OVec2 (x y : float)
| OTexture (type : string) (fixCubemapSeams : bool) (format : float)
| OOther.

(** A value: a primitive, a reference to an object created outside the
    material ([VObj], identity [id]), a [Float32Array] allocated by the
    material ([VF32], at address [l] of the typed-array store), or an array
    literal of [{ name, value }] records allocated by the material ([VParams],
    identity [id]; every [value] is a [Float32Array]), or an ordinary array
    ([VArray]). *)
Inductive val :=
| VUndefined
| VNull
| VBool (b : bool)
| VNum (x : float)
| VStr (s : string)
| VObj (id : nat) (o : obj)
| VF32 (l : nat)
| VParams (id : nat) (items : list (string * nat))
| VArray (id : nat) (elems : list val).

Definition is_nan (x : float) : bool := negb (PrimFloat.eqb x x).

(** ToBoolean. *)
Definition truthy (v : val) : bool :=
  match v with
  | VUndefined | VNull => false
  | VBool b => b
  | VNum x => negb (PrimFloat.eqb x 0 || is_nan x)
  | VStr s => negb (String.eqb s "")
  | VObj _ _ | VF32 _ | VParams _ _ | VArray _ _ => true
  end.

(** [a === b]. Objects are compared by identity. *)
Definition strict_eq (a b : val) : bool :=
  match a, b with
  | VUndefined, VUndefined => true
  | VNull, VNull => true
  | VBool x, VBool y => Bool.eqb x y
  | VNum x, VNum y => PrimFloat.eqb x y
  | VStr x, VStr y => String.eqb x y
  | VObj i _, VObj j _ => Nat.eqb i j
  | VF32 i, VF32 j => Nat.eqb i j
  | VParams i _, VParams j _ => Nat.eqb i j
  | VArray i _, VArray j _ => Nat.eqb i j
  | _, _ => false
  end.

(** [a || b] and [a && b] on already evaluated operands, and [!a]. *)
Definition js_or (a b : val) : val := if truthy a then a else b.
Definition js_and (a b : val) : val := if truthy a then b else a.
Definition js_not (a : val) : val := VBool (negb (truthy a)).

(** ToNumber, on the values whose conversion needs no parsing and no call. *)
Definition to_number (v : val) : option float :=
  match v with
  | VUndefined => Some nan
  | VNull => Some 0%float
  | VBool b => Some (if b then 1 else 0)%float
  | VNum x => Some x
  | _ => None
  end.

(** Property reads [v.type], [v.fixCubemapSeams], [v.format] (textures),
    [v.r], [v.g], [v.b] (colours), [v.x], [v.y] (vectors).  Reading a property
    of [undefined] or [null] throws; a value without the property gives
    [undefined]. *)
Definition get_member (v : val) (k : string) : option val :=
  match v with
  | VUndefined | VNull => None
  | VObj _ (OColor r g b a) =>
      Some (if String.eqb k "r" then VNum r else if String.eqb k "g" then VNum g
            else if String.eqb k "b" then VNum b else if String.eqb k "a" then VNum a
            else VUndefined)
  | VObj _ (OVec2 x y) =>
      Some (if String.eqb k "x" then VNum x else if String.eqb k "y" then VNum y
            else VUndefined)
  | VObj _ (OTexture ty seams fmt) =>
      Some (if String.eqb k "type" then VStr ty
            else if String.eqb k "fixCubemapSeams" then VBool seams
            else if String.eqb k "format" then VNum fmt
            else VUndefined)
  | _ => Some VUndefined
  end.

(** [v && v.clone]: whether the value is one of the aggregates that
    [defineProp] hands to [defineAggProp]. *)
Definition has_clone (v : val) : bool :=
  match v with
  | VObj _ (OColor _ _ _ _) | VObj _ (OVec2 _ _) => true
  | _ => false
  end.

(** [v[i]] for an array index [i]. *)
Definition get_index (v : val) (i : nat) : option val :=
  match v with
  | VUndefined | VNull => None
  | VArray _ elems => Some (default VUndefined (elems !! i))
  | _ => Some VUndefined
  end.

End Js.

(* ===================================================================== *)
(** * The standard material: state                                        *)
(* ===================================================================== *)

Module StandardMaterial.
Import Js.

(** The shader generator options: a bag of named settings. *)
Abbreviation Options := (gmap string val).

(** An element of one of the parameter-name sets.  [_setParameter] receives
    either a name or, from the [cubeMapProjectionBox] line of
    [updateUniforms], the uniform array itself. *)
Inductive pkey :=
| KName (s : string)
| KObj (id : nat) (items : list (string * nat)).

#[global] Instance pkey_eq_dec : EqDecision pkey.
Proof. solve_decision. Defined.

(** Calls made to objects that live outside the material, in order. *)
Inductive event :=
| EvClearVariants
| EvDestroy (target : val)
| EvUpdateRef (minimal : bool) (result : Options)
| EvOnUpdateShader (arg result : Options)
| EvRegister (name : string)
| EvGetProgram (name : string) (options : Options) (processingOptions : val * val).

(** The material, the module-level [_params] and the objects they refer to.
    A [Set] is an address in [setStore]; a [Float32Array] is an address in
    [f32Store]; [nextId] numbers the objects the material allocates. *)
Record state := mkState {
  fields : gmap string val;
  _dirtyShader : val;
  _chunks : val;
  _activeParams : nat;
  _activeLightingParams : nat;
  _uniformCache : gmap string val;
  parameters : gmap string val;
  onUpdateShader : option (Options → Options);
  _params : nat;
  setStore : list (list pkey);
  f32Store : list (list float);
  nextId : nat;
  optionsContext : Options;
  optionsContextMin : Options;
  trace : list event
}.

(** Field updates. *)
Definition set_fields (x : gmap string val) (w : state) : state :=
  mkState x (_dirtyShader w) (_chunks w) (_activeParams w) (_activeLightingParams w) (_uniformCache w) (parameters w) (onUpdateShader w) (_params w) (setStore w) (f32Store w) (nextId w) (optionsContext w) (optionsContextMin w) (trace w).
Definition set__dirtyShader (x : val) (w : state) : state :=
  mkState (fields w) x (_chunks w) (_activeParams w) (_activeLightingParams w) (_uniformCache w) (parameters w) (onUpdateShader w) (_params w) (setStore w) (f32Store w) (nextId w) (optionsContext w) (optionsContextMin w) (trace w).
Definition set__chunks (x : val) (w : state) : state :=
  mkState (fields w) (_dirtyShader w) x (_activeParams w) (_activeLightingParams w) (_uniformCache w) (parameters w) (onUpdateShader w) (_params w) (setStore w) (f32Store w) (nextId w) (optionsContext w) (optionsContextMin w) (trace w).
Definition set__activeParams (x : nat) (w : state) : state :=
  mkState (fields w) (_dirtyShader w) (_chunks w) x (_activeLightingParams w) (_uniformCache w) (parameters w) (onUpdateShader w) (_params w) (setStore w) (f32Store w) (nextId w) (optionsContext w) (optionsContextMin w) (trace w).
Definition set__activeLightingParams (x : nat) (w : state) : state :=
  mkState (fields w) (_dirtyShader w) (_chunks w) (_activeParams w) x (_uniformCache w) (parameters w) (onUpdateShader w) (_params w) (setStore w) (f32Store w) (nextId w) (optionsContext w) (optionsContextMin w) (trace w).
Definition set__uniformCache (x : gmap string val) (w : state) : state :=
  mkState (fields w) (_dirtyShader w) (_chunks w) (_activeParams w) (_activeLightingParams w) x (parameters w) (onUpdateShader w) (_params w) (setStore w) (f32Store w) (nextId w) (optionsContext w) (optionsContextMin w) (trace w).
Definition set_parameters (x : gmap string val) (w : state) : state :=
  mkState (fields w) (_dirtyShader w) (_chunks w) (_activeParams w) (_activeLightingParams w) (_uniformCache w) x (onUpdateShader w) (_params w) (setStore w) (f32Store w) (nextId w) (optionsContext w) (optionsContextMin w) (trace w).
Definition set__params (x : nat) (w : state) : state :=
  mkState (fields w) (_dirtyShader w) (_chunks w) (_activeParams w) (_activeLightingParams w) (_uniformCache w) (parameters w) (onUpdateShader w) x (setStore w) (f32Store w) (nextId w) (optionsContext w) (optionsContextMin w) (trace w).
Definition set_setStore (x : list (list pkey)) (w : state) : state :=
  mkState (fields w) (_dirtyShader w) (_chunks w) (_activeParams w) (_activeLightingParams w) (_uniformCache w) (parameters w) (onUpdateShader w) (_params w) x (f32Store w) (nextId w) (optionsContext w) (optionsContextMin w) (trace w).
Definition set_f32Store (x : list (list float)) (w : state) : state :=
  mkState (fields w) (_dirtyShader w) (_chunks w) (_activeParams w) (_activeLightingParams w) (_uniformCache w) (parameters w) (onUpdateShader w) (_params w) (setStore w) x (nextId w) (optionsContext w) (optionsContextMin w) (trace w).
Definition set_nextId (x : nat) (w : state) : state :=
  mkState (fields w) (_dirtyShader w) (_chunks w) (_activeParams w) (_activeLightingParams w) (_uniformCache w) (parameters w) (onUpdateShader w) (_params w) (setStore w) (f32Store w) x (optionsContext w) (optionsContextMin w) (trace w).
Definition set_optionsContext (x : Options) (w : state) : state :=
  mkState (fields w) (_dirtyShader w) (_chunks w) (_activeParams w) (_activeLightingParams w) (_uniformCache w) (parameters w) (onUpdateShader w) (_params w) (setStore w) (f32Store w) (nextId w) x (optionsContextMin w) (trace w).
Definition set_optionsContextMin (x : Options) (w : state) : state :=
  mkState (fields w) (_dirtyShader w) (_chunks w) (_activeParams w) (_activeLightingParams w) (_uniformCache w) (parameters w) (onUpdateShader w) (_params w) (setStore w) (f32Store w) (nextId w) (optionsContext w) x (trace w).
Definition set_trace (x : list event) (w : state) : state :=
  mkState (fields w) (_dirtyShader w) (_chunks w) (_activeParams w) (_activeLightingParams w) (_uniformCache w) (parameters w) (onUpdateShader w) (_params w) (setStore w) (f32Store w) (nextId w) (optionsContext w) (optionsContextMin w) x.

Record Scene := mkScene {
  gammaCorrection : val;
  envAtlas : val;
  skybox : val;
  (** [scene.skyboxRotation.equals(Quat.IDENTITY)] *)
  skyboxRotationIsIdentity : bool;
  (** [scene._skyboxRotationMat3], reduced to its [data] *)
  _skyboxRotationMat3 : option val
}.

(** ** Computations on the state that may throw *)

Definition M (A : Type) : Type := state → option (A * state).

#[global] Instance M_ret : MRet M := λ A a w, Some (a, w).
#[global] Instance M_bind : MBind M := λ A B f c w,
  match c w with
  | Some (a, w') => f a w'
  | None => None
  end.

Definition throw {A} : M A := λ _, None.
Definition gets {A} (f : state → A) : M A := λ w, Some (f w, w).
Definition modify (f : state → state) : M unit := λ w, Some (tt, f w).
Definition lift {A} (o : option A) : M A := λ w, (λ a, (a, w)) <$> o.
Definition emit (e : event) : M unit := modify (λ w, set_trace (trace w ++ [e]) w).

Definition when (b : bool) (c : M unit) : M unit := if b then c else mret tt.

Fixpoint forEach {A} (l : list A) (f : A → M unit) : M unit :=
  match l with
  | [] => mret tt
  | x :: l' => f x ;; forEach l' f
  end.

(** [a || b], [a && b] and [!a] with their order of evaluation. *)
Definition orM (a b : M val) : M val := x ← a; if truthy x then mret x else b.
Definition andM (a b : M val) : M val := x ← a; if truthy x then b else mret x.
Definition notM (a : M val) : M val := x ← a; mret (js_not x).

(** ** Collaborators

    What the file imports and does not define: constants of [constants.js]
    (numbers, and a string for the detail mode, as the property types say),
    [Math] and the typed-array store conversion, methods of the math and shape
    libraries, of the [Material] base class, of the options builder and of the
    program library. *)
Class Collaborators := {
  CUBEPROJ_BOX : float;
  CUBEPROJ_NONE : float;
  DETAILMODE_MUL : string;
  FRESNEL_SCHLICK : float;
  SHADER_DEPTH : float;
  SHADER_PICK : float;
  SPECOCC_AO : float;
  SPECULAR_BLINN : float;
  SPECULAR_PHONG : float;
  DEG_TO_RAD : float;
  Math_pow : float → float → float;
  Math_cos : float → float;
  Math_sin : float → float;
  (** the conversion applied when a number is stored in a [Float32Array] *)
  fround : float → float;
  (** [a.equals(b)] and [a.copy(b)] of [Color] and [Vec2]; [copy] returns [a] *)
  equals : val → val → option bool;
  copy : val → val → option val;
  (** [box.getMin()] and [box.getMax()], as coordinates *)
  getMin : val → option (float * float * float);
  getMax : val → option (float * float * float);
  (** [EnvLighting.generatePrefilteredAtlas(cubemaps, { target })] *)
  generatePrefilteredAtlas : list val → val → val;
  (** [Material.prototype.setParameter(name, data)], on [parameters] *)
  setParameter : val → val → gmap string val → gmap string val;
  ShaderPass_isShadow : val → bool;
  (** [shaderOptBuilder.updateRef] and [updateMinRef]: the options they leave in
      the object they are given *)
  updateRef : Options → Scene → state → val → val → val → val → Options;
  updateMinRef : Options → Scene → state → val → val → val → val → Options;
  (** [library.getProgram(name, options, processingOptions)] *)
  getProgram : string → Options → val * val → val
}.

(** ** The property registry *)

(** The [dirtyShaderFunc] closures of the file. *)
Inductive dirtyFn :=
| DirtyAlways   (* () => true *)
| DirtyTex2D    (* _defineTex2D *)
| DirtyFloat    (* _defineFloat *)
| DirtyObject.  (* _defineObject *)

(** The getter closures: the default one of [definePropInternal], the one of
    [_defineColor], the one of [prefilteredCubemaps]. *)
Inductive getterFn :=
| GetInternal (internalName : string)
| GetColor (internalName : string)
| GetPrefilteredCubemaps.

(** The setter closures: [defineValueProp], [defineAggProp],
    [prefilteredCubemaps]. *)
Inductive setterFn :=
| SetValue (internalName : string) (d : dirtyFn)
| SetAgg (internalName : string) (d : dirtyFn)
| SetPrefilteredCubemaps.

(** The default-value constructors stored in [_props]. *)
Inductive ctorFn :=
| CtorValue (v : val)    (* () => prop.defaultValue *)
| CtorClone (v : val)    (* () => prop.defaultValue.clone() *)
| CtorEmptySlice.        (* () => empty.slice() *)

(** The uniform functions handed to [defineUniform]. *)
Inductive uniformFn :=
| UMapTransform (name : string)
| UColor (name : string)
| UShininess
| UHeightMapFactor
| UCubeMapProjectionBox.

Record accessor := mkAccessor { acc_get : getterFn; acc_set : setterFn }.

#[global] Instance dirtyFn_eq_dec : EqDecision dirtyFn.
Proof. solve_decision. Defined.
#[global] Instance getterFn_eq_dec : EqDecision getterFn.
Proof. solve_decision. Defined.
#[global] Instance setterFn_eq_dec : EqDecision setterFn.
Proof. solve_decision. Defined.
#[global] Instance uniformFn_eq_dec : EqDecision uniformFn.
Proof. solve_decision. Defined.
#[global] Instance accessor_eq_dec : EqDecision accessor.
Proof. solve_decision. Defined.

(** The tables filled while the module loads.  [accessors] stands for the
    accessor properties put on [StandardMaterial.prototype]. *)
Record registry := mkRegistry {
  accessors : list (string * accessor);
  _props : list (string * ctorFn);
  _uniforms : list (string * option uniformFn);
  _matTex2D : list (string * Z)
}.

(** [o[k]] and [o[k] = v] on an object used as a table; a new key goes last. *)
Fixpoint alist_get {A} (k : string) (o : list (string * A)) : option A :=
  match o with
  | [] => None
  | (k', a) :: o' => if String.eqb k' k then Some a else alist_get k o'
  end.

Fixpoint alist_set {A} (k : string) (a : A) (o : list (string * A)) : list (string * A) :=
  match o with
  | [] => [(k, a)]
  | (k', a') :: o' => if String.eqb k' k then (k, a) :: o' else (k', a') :: alist_set k a o'
  end.

Definition defineUniform (name : string) (getUniformFunc : option uniformFn)
    (R : registry) : registry :=
  mkRegistry (accessors R) (_props R) (alist_set name getUniformFunc (_uniforms R))
    (_matTex2D R).

Definition definePropInternal (name : string) (constructorFunc : ctorFn)
    (setterFunc : setterFn) (getterFunc : option getterFn) (R : registry) : registry :=
  mkRegistry
    (alist_set name
       (mkAccessor (default (GetInternal ("_" +:+ name)) getterFunc) setterFunc)
       (accessors R))
    (alist_set name constructorFunc (_props R))
    (_uniforms R) (_matTex2D R).

(** The object literal given to [defineProp]. *)
Record prop := mkProp {
  name : string;
  defaultValue : val;
  dirtyShaderFunc : option dirtyFn;
  getterFunc : option getterFn
}.

Definition defineValueProp (p : prop) : registry → registry :=
  let internalName := "_" +:+ name p in
  let dirtyShaderFunc := default DirtyAlways (dirtyShaderFunc p) in
  definePropInternal (name p) (CtorValue (defaultValue p))
    (SetValue internalName dirtyShaderFunc) (getterFunc p).

Definition defineAggProp (p : prop) : registry → registry :=
  let internalName := "_" +:+ name p in
  let dirtyShaderFunc := default DirtyAlways (dirtyShaderFunc p) in
  definePropInternal (name p) (CtorClone (defaultValue p))
    (SetAgg internalName dirtyShaderFunc) (getterFunc p).

Definition defineProp (p : prop) : registry → registry :=
  if has_clone (defaultValue p) then defineAggProp p else defineValueProp p.

Section Registry.
Context `{Collaborators}.

(** A fresh aggregate written as a literal in the file; its identity plays no
    role, the constructor clones it. *)
Definition Vec2 (x y : float) : val := VObj 0 (OVec2 x y).
Definition Color (r g b : float) : val := VObj 0 (OColor r g b 1).

Definition defaultChannel (defChannel : string) (channels : Z) : val :=
  if truthy (VStr defChannel) then VStr defChannel
  else if 1 <? channels then VStr "rgb" else VStr "g".

Definition _defineTex2D (name : string) (uv : float) (channels : Z)
    (defChannel : string) (vertexColor detailMode : bool) (R : registry) : registry :=
  let R := mkRegistry (accessors R) (_props R) (_uniforms R)
             (alist_set name channels (_matTex2D R)) in
  let R := defineProp (mkProp (name +:+ "Map") VNull (Some DirtyTex2D) None) R in
  let R := defineProp (mkProp (name +:+ "MapTiling") (Vec2 1 1) None None) R in
  let R := defineProp (mkProp (name +:+ "MapOffset") (Vec2 0 0) None None) R in
  let R := defineProp (mkProp (name +:+ "MapRotation") (VNum 0) None None) R in
  let R := defineProp (mkProp (name +:+ "MapUv") (VNum uv) None None) R in
  let R := if 0 <? channels
           then defineProp (mkProp (name +:+ "MapChannel")
                              (defaultChannel defChannel channels) None None) R
           else R in
  let R := if vertexColor then
             let R := defineProp (mkProp (name +:+ "VertexColor") (VBool false) None None) R in
             if 0 <? channels
             then defineProp (mkProp (name +:+ "VertexColorChannel")
                                (defaultChannel defChannel channels) None None) R
             else R
           else R in
  let R := if detailMode
           then defineProp (mkProp (name +:+ "Mode") (VStr DETAILMODE_MUL) None None) R
           else R in
  defineUniform (name +:+ "MapTransform") (Some (UMapTransform name)) R.

Definition _defineColor (name : string) (defaultValue : val) (R : registry) : registry :=
  let R := defineProp (mkProp name defaultValue None (Some (GetColor ("_" +:+ name)))) R in
  defineUniform name (Some (UColor name)) R.

Definition _defineFloat (name : string) (defaultValue : float)
    (getUniformFunc : option uniformFn) (R : registry) : registry :=
  let R := defineProp (mkProp name (VNum defaultValue) (Some DirtyFloat) None) R in
  defineUniform name getUniformFunc R.

Definition _defineObject (name : string) (getUniformFunc : option uniformFn)
    (R : registry) : registry :=
  let R := defineProp (mkProp name VNull (Some DirtyObject) None) R in
  defineUniform name getUniformFunc R.

Definition _defineFlag (name : string) (defaultValue : val) : registry → registry :=
  defineProp (mkProp name defaultValue None None).

(** One call made by [_defineMaterialProps]. *)
Inductive definition :=
| DefColor (name : string) (defaultValue : val)
| DefFloat (name : string) (defaultValue : float) (getUniformFunc : option uniformFn)
| DefObject (name : string) (getUniformFunc : option uniformFn)
| DefFlag (name : string) (defaultValue : val)
| DefTex2D (name : string) (uv : float) (channels : Z) (defChannel : string)
    (vertexColor detailMode : bool)
| DefPropInternal (name : string) (constructorFunc : ctorFn) (setterFunc : setterFn)
    (getterFunc : option getterFn).

Definition runDefinition (d : definition) : registry → registry :=
  match d with
  | DefColor name defaultValue => _defineColor name defaultValue
  | DefFloat name defaultValue getUniformFunc => _defineFloat name defaultValue getUniformFunc
  | DefObject name getUniformFunc => _defineObject name getUniformFunc
  | DefFlag name defaultValue => _defineFlag name defaultValue
  | DefTex2D name uv channels defChannel vertexColor detailMode =>
      _defineTex2D name uv channels defChannel vertexColor detailMode
  | DefPropInternal name constructorFunc setterFunc getterFunc =>
      definePropInternal name constructorFunc setterFunc getterFunc
  end.

(** The calls of [_defineMaterialProps], in order. *)
Definition materialPropDefinitions : list definition :=
  [ DefColor "ambient" (Color 0.7 0.7 0.7);
    DefColor "diffuse" (Color 1 1 1);
    DefColor "specular" (Color 0 0 0);
    DefColor "emissive" (Color 0 0 0);
    DefColor "sheen" (Color 1 1 1);
    DefColor "attenuation" (Color 1 1 1);
    DefFloat "emissiveIntensity" 1 None;
    DefFloat "specularityFactor" 1 None;
    DefFloat "sheenGlossiness" 0 None;
    DefFloat "shininess" 25 (Some UShininess);
    DefFloat "heightMapFactor" 1 (Some UHeightMapFactor);
    DefFloat "opacity" 1 None;
    DefFloat "alphaFade" 1 None;
    DefFloat "alphaTest" 0 None;
    DefFloat "bumpiness" 1 None;
    DefFloat "normalDetailMapBumpiness" 1 None;
    DefFloat "reflectivity" 1 None;
    DefFloat "occludeSpecularIntensity" 1 None;
    DefFloat "refraction" 0 None;
    DefFloat "refractionIndex" (1.0 / 1.5) None;
    DefFloat "thickness" 0 None;
    DefFloat "attenuationDistance" 0 None;
    DefFloat "metalness" 1 None;
    DefFloat "anisotropy" 0 None;
    DefFloat "clearCoat" 0 None;
    DefFloat "clearCoatGlossiness" 1 None;
    DefFloat "clearCoatBumpiness" 1 None;
    DefFloat "aoUvSet" 0 None;
    DefFloat "iridescence" 0 None;
    DefFloat "iridescenceRefractionIndex" (1.0 / 1.5) None;
    DefFloat "iridescenceThicknessMin" 0 None;
    DefFloat "iridescenceThicknessMax" 0 None;
    DefObject "ambientSH" None;
    DefObject "cubeMapProjectionBox" (Some UCubeMapProjectionBox);
    DefFlag "ambientTint" (VBool false);
    DefFlag "diffuseTint" (VBool false);
    DefFlag "specularTint" (VBool false);
    DefFlag "specularityFactorTint" (VBool false);
    DefFlag "emissiveTint" (VBool false);
    DefFlag "fastTbn" (VBool false);
    DefFlag "useMetalness" (VBool false);
    DefFlag "useMetalnessSpecularColor" (VBool false);
    DefFlag "useSheen" (VBool false);
    DefFlag "enableGGXSpecular" (VBool false);
    DefFlag "occludeDirect" (VBool false);
    DefFlag "normalizeNormalMap" (VBool true);
    DefFlag "conserveEnergy" (VBool true);
    DefFlag "opacityFadesSpecular" (VBool true);
    DefFlag "occludeSpecular" (VNum SPECOCC_AO);
    DefFlag "shadingModel" (VNum SPECULAR_BLINN);
    DefFlag "fresnelModel" (VNum FRESNEL_SCHLICK);
    DefFlag "useDynamicRefraction" (VBool false);
    DefFlag "cubeMapProjection" (VNum CUBEPROJ_NONE);
    DefFlag "customFragmentShader" VNull;
    DefFlag "forceFragmentPrecision" VNull;
    DefFlag "useFog" (VBool true);
    DefFlag "useLighting" (VBool true);
    DefFlag "useGammaTonemap" (VBool true);
    DefFlag "useSkybox" (VBool true);
    DefFlag "forceUv1" (VBool false);
    DefFlag "pixelSnap" (VBool false);
    DefFlag "twoSidedLighting" (VBool false);
    DefFlag "nineSlicedMode" VUndefined;
    DefFlag "msdfTextAttribute" (VBool false);
    DefFlag "useIridescence" (VBool false);
    DefTex2D "diffuse" 0 3 "" true false;
    DefTex2D "specular" 0 3 "" true false;
    DefTex2D "emissive" 0 3 "" true false;
    DefTex2D "thickness" 0 1 "" true false;
    DefTex2D "specularityFactor" 0 1 "" true false;
    DefTex2D "normal" 0 (-1) "" false false;
    DefTex2D "metalness" 0 1 "" true false;
    DefTex2D "gloss" 0 1 "" true false;
    DefTex2D "opacity" 0 1 "a" true false;
    DefTex2D "refraction" 0 1 "" true false;
    DefTex2D "height" 0 1 "" false false;
    DefTex2D "ao" 0 1 "" true false;
    DefTex2D "light" 1 3 "" true false;
    DefTex2D "msdf" 0 3 "" false false;
    DefTex2D "diffuseDetail" 0 3 "" false true;
    DefTex2D "normalDetail" 0 (-1) "" false false;
    DefTex2D "clearCoat" 0 1 "" true false;
    DefTex2D "clearCoatGloss" 0 1 "" true false;
    DefTex2D "clearCoatNormal" 0 (-1) "" false false;
    DefTex2D "sheen" 0 3 "" true false;
    DefTex2D "sheenGloss" 0 1 "" true false;
    DefTex2D "iridescence" 0 1 "" true false;
    DefTex2D "iridescenceThickness" 0 1 "" true false;
    DefObject "cubeMap" None;
    DefObject "sphereMap" None;
    DefObject "envAtlas" None;
    DefPropInternal "prefilteredCubemaps" CtorEmptySlice SetPrefilteredCubemaps
      (Some GetPrefilteredCubemaps) ].

(** The tables once the module is loaded.  The imported [_matTex2D] is taken
    empty before [_defineMaterialProps] runs. *)
Definition _defineMaterialProps : registry :=
  foldl (λ R d, runDefinition d R) (mkRegistry [] [] [] []) materialPropDefinitions.

End Registry.

(** The tables as the methods see them: module-level objects, filled once.  The
    methods below take them as [moduleTables]; [standardTables] says they are
    the ones [_defineMaterialProps] fills. *)
Class ModuleTables := moduleTables : registry.

#[global] Instance standardTables `{Collaborators} : ModuleTables := _defineMaterialProps.

(** ** Accessors and methods *)

Section Methods.
Context `{Collaborators} `{ModuleTables}.

Definition field (w : state) (k : string) : val := default VUndefined (fields w !! k).

Definition read (k : string) : M val := gets (λ w, field w k).
Definition write (k : string) (v : val) : M unit :=
  modify (λ w, set_fields (<[k := v]> (fields w)) w).

(** A new object identity. *)
Definition fresh : M nat :=
  id ← gets nextId; modify (set_nextId (S id));; mret id.

(** [a !== b] *)
Definition strict_ne (a b : val) : bool := negb (strict_eq a b).

Definition in01 (v : val) : bool := strict_eq v (VNum 0) || strict_eq v (VNum 1).

(** The [dirtyShaderFunc] closures applied to the old and the new value. *)
Definition applyDirty (d : dirtyFn) (oldValue newValue : val) : option val :=
  match d with
  | DirtyAlways => Some (VBool true)
  | DirtyTex2D =>
      if negb (Bool.eqb (truthy oldValue) (truthy newValue)) then Some (VBool true)
      else if negb (truthy oldValue) then Some oldValue
      else
        t1 ← get_member oldValue "type"; t2 ← get_member newValue "type";
        s1 ← get_member oldValue "fixCubemapSeams"; s2 ← get_member newValue "fixCubemapSeams";
        f1 ← get_member oldValue "format"; f2 ← get_member newValue "format";
        Some (VBool (strict_ne t1 t2 || strict_ne s1 s2 || strict_ne f1 f2))
  | DirtyFloat => Some (VBool (xorb (in01 oldValue) (in01 newValue)))
  | DirtyObject => Some (VBool (Bool.eqb (truthy oldValue) (truthy newValue)))
  end.

(** [this._dirtyShader = this._dirtyShader || dirtyShaderFunc(oldValue, value)] *)
Definition markDirty (d : dirtyFn) (oldValue value : val) : M unit :=
  dirty ← gets _dirtyShader;
  dirty' ← (if truthy dirty then mret dirty else lift (applyDirty d oldValue value));
  modify (set__dirtyShader dirty').

(** The setter of [defineValueProp]. *)
Definition setValue (internalName : string) (d : dirtyFn) (value : val) : M unit :=
  oldValue ← read internalName;
  if strict_ne oldValue value then
    markDirty d oldValue value;;
    write internalName value
  else mret tt.

(** The setter of [defineAggProp]. *)
Definition setAgg (internalName : string) (d : dirtyFn) (value : val) : M unit :=
  oldValue ← read internalName;
  same ← lift (equals oldValue value);
  if negb same then
    markDirty d oldValue value;;
    copied ← lift (copy oldValue value);
    write internalName copied
  else mret tt.

Definition runGetter (g : getterFn) : M val :=
  match g with
  | GetInternal internalName => read internalName
  | GetColor internalName =>
      modify (set__dirtyShader (VBool true));;
      read internalName
  | GetPrefilteredCubemaps => read "_prefilteredCubemaps"
  end.

(** [this[name]] *)
Definition get (name : string) : M val :=
  match alist_get name (accessors moduleTables) with
  | Some acc => runGetter (acc_get acc)
  | None => read name
  end.

(** [cubemaps[i] = v] on an array: in range it replaces, beyond it extends. *)
Definition array_set (i : nat) (v : val) (elems : list val) : list val :=
  if (i <? length elems)%nat then <[i := v]> elems
  else elems ++ replicate (i - length elems) VUndefined ++ [v].

(** The loop of the [prefilteredCubemaps] setter over the six faces; the
    result is [(cubemaps, changed, complete)]. *)
Fixpoint cubemapFaces (value : val) (faces : list nat)
    (acc : list val * bool * bool) : option (list val * bool * bool) :=
  match faces with
  | [] => Some acc
  | i :: faces' =>
      let '(cubemaps, changed, complete) := acc in
      e ← get_index value i;
      let v := js_or e VNull in
      let '(cubemaps, changed) :=
        if strict_ne (default VUndefined (cubemaps !! i)) v
        then (array_set i v cubemaps, true) else (cubemaps, changed) in
      let complete := complete && truthy (default VUndefined (cubemaps !! i)) in
      cubemapFaces value faces' (cubemaps, changed, complete)
  end.

(** [this[name] = value] for the properties of [defineProp]. *)
Definition setDefined (name : string) (value : val) : M unit :=
  match alist_get name (accessors moduleTables) with
  | Some acc =>
      match acc_set acc with
      | SetValue internalName d => setValue internalName d value
      | SetAgg internalName d => setAgg internalName d value
      | SetPrefilteredCubemaps => throw
      end
  | None => write name value
  end.

(** The setter of [prefilteredCubemaps]. *)
Definition setPrefilteredCubemaps (value : val) : M unit :=
  cubemaps ← read "_prefilteredCubemaps";
  match cubemaps with
  | VArray id elems =>
      value ← (if truthy value then mret value
               else id' ← fresh; mret (VArray id' []));
      '(elems', changed, complete) ←
        lift (cubemapFaces value [0; 1; 2; 3; 4; 5]%nat (elems, false, true));
      write "_prefilteredCubemaps" (VArray id elems');;
      if changed : bool then
        (if complete : bool then
           target ← get "envAtlas";
           setDefined "envAtlas" (generatePrefilteredAtlas elems' target)
         else
           atlas ← get "envAtlas";
           if truthy atlas then
             emit (EvDestroy atlas);;
             setDefined "envAtlas" VNull
           else mret tt);;
        modify (set__dirtyShader (VBool true))
      else mret tt
  | _ => throw
  end.

(** [this[name] = value] *)
Definition set (name : string) (value : val) : M unit :=
  match alist_get name (accessors moduleTables) with
  | Some (mkAccessor _ SetPrefilteredCubemaps) => setPrefilteredCubemaps value
  | _ => setDefined name value
  end.

(** [set chunks(value)] and [get chunks()] *)
Definition setChunks (value : val) : M unit :=
  modify (set__dirtyShader (VBool true));;
  modify (set__chunks value).

Definition getChunks : M val :=
  modify (set__dirtyShader (VBool true));;
  gets _chunks.

(** The value a constructor of [_props] returns. *)
Definition construct (c : ctorFn) : M val :=
  match c with
  | CtorValue v => mret v
  | CtorClone v =>
      match v with
      | VObj _ o => id ← fresh; mret (VObj id o)
      | _ => throw
      end
  | CtorEmptySlice => id ← fresh; mret (VArray id (replicate 6 VNull))
  end.

Definition reset : M unit :=
  forEach (_props moduleTables)
    (λ '(name, c), v ← construct c; write ("_" +:+ name) v);;
  id ← fresh;
  modify (set__chunks (VObj id OOther));;
  modify (set__uniformCache ∅).

(** [new Set()] *)
Definition newSet : M nat :=
  r ← gets (λ w, length (setStore w));
  modify (λ w, set_setStore (setStore w ++ [[]]) w);;
  mret r.

(** The state once the module is loaded: [_params] is an empty set, and no
    material exists yet. *)
Definition moduleLoaded : state :=
  mkState ∅ VUndefined VUndefined 0 0 ∅ ∅ None 0 [[]] [] 1 ∅ ∅ [].

(** [constructor()] *)
Definition constructor : M unit :=
  modify (set_parameters ∅);;
  modify (set__dirtyShader (VBool true));;
  a ← newSet; modify (set__activeParams a);;
  b ← newSet; modify (set__activeLightingParams b);;
  reset.

(** ** Parameters *)

(** The name used as a key of the [parameters] object. *)
Definition key_string (k : pkey) : string :=
  match k with
  | KName s => s
  | KObj _ items => String.concat "," ((λ _, "[object Object]") <$> items)
  end.

Definition key_of (name : val) : option pkey :=
  match name with
  | VStr s => Some (KName s)
  | VParams id items => Some (KObj id items)
  | _ => None
  end.

(** [set.add(k)] on the elements of a [Set], in insertion order. *)
Definition set_add (k : pkey) (s : list pkey) : list pkey :=
  if decide (k ∈ s) then s else s ++ [k].

(** [set.has(k)] *)
Definition set_has (k : pkey) (s : list pkey) : bool := bool_decide (k ∈ s).

(** The elements of the [Set] at address [r]. *)
Definition setElements (r : nat) : M (list pkey) :=
  λ w, (λ s, (s, w)) <$> setStore w !! r.

Definition _setParameter (name value : val) : M unit :=
  k ← lift (key_of name);
  g ← gets _params;
  s ← setElements g;
  modify (λ w, set_setStore (<[g := set_add k s]> (setStore w)) w);;
  modify (λ w, set_parameters (setParameter name value (parameters w)) w).

Definition _setParameters (parameters : val) : M unit :=
  match parameters with
  | VParams _ items => forEach items (λ '(n, l), _setParameter (VStr n) (VF32 l))
  | _ => throw
  end.

(** The argument of [_processParameters]. *)
Inductive paramsName := ActiveParams | ActiveLightingParams.

Definition getParams (n : paramsName) (w : state) : nat :=
  match n with
  | ActiveParams => _activeParams w
  | ActiveLightingParams => _activeLightingParams w
  end.

Definition setParams (n : paramsName) (r : nat) : state → state :=
  match n with
  | ActiveParams => set__activeParams r
  | ActiveLightingParams => set__activeLightingParams r
  end.

Definition _processParameters (paramsName : paramsName) : M unit :=
  prevParams ← gets (getParams paramsName);
  elems ← setElements prevParams;
  forEach elems (λ param : pkey,
    g ← gets _params;
    cur ← setElements g;
    when (negb (set_has param cur))
      (modify (λ w, set_parameters (delete (key_string param) (parameters w)) w)));;
  g ← gets _params;
  modify (setParams paramsName g);;
  modify (set__params prevParams);;
  (* _params.clear() *)
  p ← gets _params;
  _ ← setElements p;
  modify (λ w, set_setStore (<[p := []]> (setStore w)) w).

End Methods.

(** ** Uniforms *)

Section Uniforms.
Context `{Collaborators} `{ModuleTables}.

(** [new Float32Array(3)] *)
Definition newFloat32Array3 : M val :=
  l ← gets (λ w, length (f32Store w));
  modify (λ w, set_f32Store (f32Store w ++ [[0; 0; 0]%float]) w);;
  mret (VF32 l).

(** [[{ name: n0, value: new Float32Array(3) }, { name: n1, value: new Float32Array(3) }]] *)
Definition newUniformPair (n0 n1 : string) : M val :=
  a0 ← newFloat32Array3;
  a1 ← newFloat32Array3;
  match a0, a1 with
  | VF32 l0, VF32 l1 => id ← fresh; mret (VParams id [(n0, l0); (n1, l1)])
  | _, _ => throw
  end.

(** The elements of the [Float32Array] at address [l]. *)
Definition f32Elements (l : nat) : M (list float) :=
  λ w, (λ a, (a, w)) <$> f32Store w !! l.

(** [array[i] = x] on a [Float32Array] *)
Definition storeF32 (array : val) (i : nat) (x : val) : M unit :=
  match array with
  | VF32 l =>
      n ← lift (to_number x);
      a ← f32Elements l;
      modify (λ w, set_f32Store (<[l := <[i := fround n]> a]> (f32Store w)) w)
  | _ => throw
  end.

(** [uniform[i].value] *)
Definition itemValue (uniform : val) (i : nat) : M val :=
  match uniform with
  | VParams _ items => '(_, l) ← lift (items !! i); mret (VF32 l)
  | _ => throw
  end.

Definition member (v : val) (k : string) : M val := lift (get_member v k).

(** Arithmetic and comparison of two evaluated operands. *)
Definition arith (f : float → float → float) (a b : val) : M val :=
  x ← lift (to_number a); y ← lift (to_number b); mret (VNum (f x y)).

Definition number (c : M val) : M float := v ← c; lift (to_number v).

(** [c === b] *)
Definition eqM (c : M val) (b : val) : M val := a ← c; mret (VBool (strict_eq a b)).

Definition less (a b : val) : M val :=
  x ← lift (to_number a); y ← lift (to_number b); mret (VBool (PrimFloat.ltb x y)).

Definition _allocUniform (name : string) (allocFunc : M val) : M val :=
  uniform ← gets (λ w, default VUndefined (_uniformCache w !! name));
  if negb (truthy uniform) then
    uniform ← allocFunc;
    modify (λ w, set__uniformCache (<[name := uniform]> (_uniformCache w)) w);;
    mret uniform
  else mret uniform.

(** The uniform functions, applied to [(material, device, scene)]; [scene] is
    absent in the calls made by [_updateMap]. *)
Definition runUniform (f : uniformFn) (device : val) (scene : option Scene) : M val :=
  match f with
  | UMapTransform name =>
      let mapTiling := name +:+ "MapTiling" in
      let mapOffset := name +:+ "MapOffset" in
      let mapRotation := name +:+ "MapRotation" in
      let mapTransform := name +:+ "MapTransform" in
      tiling ← get mapTiling;
      offset ← get mapOffset;
      rotation ← get mapRotation;
      identity ←
        andM (eqM (member tiling "x") (VNum 1))
          (andM (eqM (member tiling "y") (VNum 1))
             (andM (eqM (member offset "x") (VNum 0))
                (andM (eqM (member offset "y") (VNum 0))
                   (eqM (mret rotation) (VNum 0)))));
      if truthy identity then mret VNull
      else
        uniform ← _allocUniform mapTransform
          (newUniformPair ("texture_" +:+ mapTransform +:+ "0")
                          ("texture_" +:+ mapTransform +:+ "1"));
        angle ← number (arith PrimFloat.mul rotation (VNum DEG_TO_RAD));
        let cr := Math_cos angle in
        angle ← number (arith PrimFloat.mul rotation (VNum DEG_TO_RAD));
        let sr := Math_sin angle in
        uniform0 ← itemValue uniform 0;
        x ← member tiling "x"; x ← arith PrimFloat.mul (VNum cr) x; storeF32 uniform0 0 x;;
        y ← member tiling "y"; y ← arith PrimFloat.mul (VNum (- sr)) y; storeF32 uniform0 1 y;;
        x ← member offset "x"; storeF32 uniform0 2 x;;
        uniform1 ← itemValue uniform 1;
        x ← member tiling "x"; x ← arith PrimFloat.mul (VNum sr) x; storeF32 uniform1 0 x;;
        y ← member tiling "y"; y ← arith PrimFloat.mul (VNum cr) y; storeF32 uniform1 1 y;;
        y ← member tiling "y"; z ← arith PrimFloat.sub (VNum 1) y;
        y ← member offset "y"; z ← arith PrimFloat.sub z y; storeF32 uniform1 2 z;;
        mret uniform
  | UColor name =>
      uniform ← _allocUniform name newFloat32Array3;
      color ← get name;
      gamma ← andM (get "useGammaTonemap")
                   (s ← lift scene; mret (gammaCorrection s));
      (if truthy gamma then
         r ← number (member color "r"); storeF32 uniform 0 (VNum (Math_pow r 2.2));;
         g ← number (member color "g"); storeF32 uniform 1 (VNum (Math_pow g 2.2));;
         b ← number (member color "b"); storeF32 uniform 2 (VNum (Math_pow b 2.2))
       else
         r ← member color "r"; storeF32 uniform 0 r;;
         g ← member color "g"; storeF32 uniform 1 g;;
         b ← member color "b"; storeF32 uniform 2 b);;
      mret uniform
  | UShininess =>
      shadingModel ← get "shadingModel";
      if strict_eq shadingModel (VNum SPECULAR_PHONG) then
        shininess ← get "shininess";
        x ← arith PrimFloat.mul shininess (VNum 0.01);
        x ← number (arith PrimFloat.mul x (VNum 11));
        mret (VNum (Math_pow 2 x))
      else
        shininess ← get "shininess";
        arith PrimFloat.mul shininess (VNum 0.01)
  | UHeightMapFactor =>
      heightMapFactor ← get "heightMapFactor";
      arith PrimFloat.mul heightMapFactor (VNum 0.025)
  | UCubeMapProjectionBox =>
      uniform ← _allocUniform "cubeMapProjectionBox" (newUniformPair "envBoxMin" "envBoxMax");
      box ← get "cubeMapProjectionBox";
      '(x, y, z) ← lift (getMin box);
      minUniform ← itemValue uniform 0;
      storeF32 minUniform 0 (VNum x);;
      storeF32 minUniform 1 (VNum y);;
      storeF32 minUniform 2 (VNum z);;
      box ← get "cubeMapProjectionBox";
      '(x, y, z) ← lift (getMax box);
      maxUniform ← itemValue uniform 1;
      storeF32 maxUniform 0 (VNum x);;
      storeF32 maxUniform 1 (VNum y);;
      storeF32 maxUniform 2 (VNum z);;
      mret uniform
  end.

Definition getUniform (name : string) (device : val) (scene : option Scene) : M val :=
  match alist_get name (_uniforms moduleTables) with
  | Some (Some f) => runUniform f device scene
  | _ => throw
  end.

Definition _updateMap (p : string) : M unit :=
  let mname := p +:+ "Map" in
  map ← get mname;
  if truthy map then
    _setParameter (VStr ("texture_" +:+ mname)) map;;
    let tname := mname +:+ "Transform" in
    uniform ← getUniform tname VUndefined None;
    if truthy uniform then _setParameters uniform else mret tt
  else mret tt.

End Uniforms.

(** ** [updateUniforms], [updateEnvUniforms], [getShaderVariant] *)

Section Update.
Context `{Collaborators} `{ModuleTables}.

Definition str (s : string) : val := VStr s.

(** [if (c) { body }] *)
Definition ifM (c : M val) (body : M unit) : M unit :=
  b ← c; if truthy b then body else mret tt.

(** [this._setParameter(name, e)] with [e] evaluated first. *)
Definition setp (name : string) (e : M val) : M unit :=
  v ← e; _setParameter (VStr name) v.

(** The operand of a comparison with a literal. *)
Definition lessThan (e : M val) (b : float) : M val := a ← e; less a (VNum b).
Definition greaterThan (e : M val) (b : float) : M val := a ← e; less (VNum b) a.
Definition neM (c : M val) (b : val) : M val := a ← c; mret (VBool (strict_ne a b)).

(** The statements of [updateUniforms] up to the comment
    [// remove unused params]: they register the parameters of this pass. *)
Definition registerUniforms (device : val) (scene : Scene) : M unit :=
  let getUniform name := getUniform name device (Some scene) in
  setp "material_ambient" (getUniform "ambient");;
  ifM (orM (notM (get "diffuseMap")) (get "diffuseTint"))
    (setp "material_diffuse" (getUniform "diffuse"));;
  useMetalness ← get "useMetalness";
  (if negb (truthy useMetalness) then
     ifM (orM (notM (get "specularMap")) (get "specularTint"))
       (setp "material_specular" (getUniform "specular"))
   else
     ifM (orM (notM (get "metalnessMap")) (lessThan (get "metalness") 1))
       (setp "material_metalness" (get "metalness"));;
     ifM (orM (notM (get "specularMap")) (get "specularTint"))
       (setp "material_specular" (getUniform "specular"));;
     ifM (orM (notM (get "specularityFactorMap")) (get "specularityFactorTint"))
       (setp "material_specularityFactor" (get "specularityFactor"));;
     ifM (orM (notM (get "sheenMap")) (get "sheenTint"))
       (setp "material_sheen" (getUniform "sheen"));;
     ifM (orM (notM (get "sheenGlossinessMap")) (get "sheenGlossinessTint"))
       (setp "material_sheenGlossiness" (get "sheenGlossiness"));;
     positive ← greaterThan (get "refractionIndex") 0;
     if truthy positive then
       refractionIndex ← get "refractionIndex";
       oneOverRefractionIndex ← arith PrimFloat.div (VNum 1) refractionIndex;
       num ← arith PrimFloat.sub oneOverRefractionIndex (VNum 1);
       den ← arith PrimFloat.add oneOverRefractionIndex (VNum 1);
       f0 ← arith PrimFloat.div num den;
       setp "material_f0" (arith PrimFloat.mul f0 f0)
     else
       setp "material_f0" (mret (VNum 1)));;
  ifM (get "enableGGXSpecular")
    (setp "material_anisotropy" (get "anisotropy"));;
  ifM (greaterThan (get "clearCoat") 0)
    (setp "material_clearCoat" (get "clearCoat");;
     setp "material_clearCoatGlossiness" (get "clearCoatGlossiness");;
     setp "material_clearCoatReflectivity" (get "clearCoat");;
     setp "material_clearCoatBumpiness" (get "clearCoatBumpiness"));;
  setp "material_shininess" (getUniform "shininess");;
  ifM (orM (notM (get "emissiveMap")) (get "emissiveTint"))
    (setp "material_emissive" (getUniform "emissive"));;
  ifM (neM (get "emissiveIntensity") (VNum 1))
    (setp "material_emissiveIntensity" (get "emissiveIntensity"));;
  ifM (greaterThan (get "refraction") 0)
    (setp "material_refraction" (get "refraction");;
     setp "material_refractionIndex" (get "refractionIndex"));;
  ifM (get "useDynamicRefraction")
    (setp "material_thickness" (get "thickness");;
     setp "material_attenuation" (getUniform "attenuation");;
     setp "material_invAttenuationDistance"
       (zero ← eqM (get "attenuationDistance") (VNum 0);
        if truthy zero then mret (VNum 0)
        else d ← get "attenuationDistance"; arith PrimFloat.div (VNum 1) d));;
  ifM (get "useIridescence")
    (setp "material_iridescence" (get "iridescence");;
     setp "material_iridescenceRefractionIndex" (get "iridescenceRefractionIndex");;
     setp "material_iridescenceThicknessMin" (get "iridescenceThicknessMin");;
     setp "material_iridescenceThicknessMax" (get "iridescenceThicknessMax"));;
  setp "material_opacity" (get "opacity");;
  ifM (eqM (get "opacityFadesSpecular") (VBool false))
    (setp "material_alphaFade" (get "alphaFade"));;
  ifM (get "occludeSpecular")
    (setp "material_occludeSpecularIntensity" (get "occludeSpecularIntensity"));;
  ifM (eqM (get "cubeMapProjection") (VNum CUBEPROJ_BOX))
    (u ← getUniform "cubeMapProjectionBox"; _setParameter u VUndefined);;
  forEach (_matTex2D moduleTables) (λ '(p, _), _updateMap p);;
  ifM (get "ambientSH")
    (setp "ambientSH[0]" (get "ambientSH"));;
  ifM (get "normalMap")
    (setp "material_bumpiness" (get "bumpiness"));;
  ifM (andM (get "normalMap") (get "normalDetailMap"))
    (setp "material_normalDetailMapBumpiness" (get "normalDetailMapBumpiness"));;
  ifM (get "heightMap")
    (setp "material_heightMapFactor" (getUniform "heightMapFactor"));;
  isPhong ← eqM (get "shadingModel") (VNum SPECULAR_PHONG);
  b1 ← andM (andM (get "envAtlas") (get "cubeMap")) (mret (js_not isPhong));
  (if truthy b1 then
     setp "texture_envAtlas" (get "envAtlas");;
     setp "texture_cubeMap" (get "cubeMap")
   else
     b2 ← andM (get "envAtlas") (mret (js_not isPhong));
     if truthy b2 then setp "texture_envAtlas" (get "envAtlas")
     else
       b3 ← get "cubeMap";
       if truthy b3 then setp "texture_cubeMap" (get "cubeMap")
       else
         ifM (get "sphereMap") (setp "texture_sphereMap" (get "sphereMap")));;
  setp "material_reflectivity" (get "reflectivity").

Definition updateUniforms (device : val) (scene : Scene) : M unit :=
  registerUniforms device scene;;
  (* remove unused params *)
  _processParameters ActiveParams;;
  ifM (gets _dirtyShader) (emit EvClearVariants).

Definition updateEnvUniforms (device : val) (scene : Scene) : M unit :=
  isPhong ← eqM (get "shadingModel") (VNum SPECULAR_PHONG);
  hasLocalEnvOverride ←
    orM (orM (andM (get "envAtlas") (mret (js_not isPhong))) (get "cubeMap"))
        (get "sphereMap");
  ifM (andM (mret (js_not hasLocalEnvOverride)) (get "useSkybox"))
    ((if truthy (js_and (js_and (envAtlas scene) (skybox scene)) (js_not isPhong)) then
        setp "texture_envAtlas" (mret (envAtlas scene));;
        setp "texture_cubeMap" (mret (skybox scene))
      else if truthy (js_and (envAtlas scene) (js_not isPhong)) then
        setp "texture_envAtlas" (mret (envAtlas scene))
      else if truthy (skybox scene) then
        setp "texture_cubeMap" (mret (skybox scene))
      else mret tt);;
     if negb (skyboxRotationIsIdentity scene) then
       match _skyboxRotationMat3 scene with
       | Some data => setp "cubeMapRotationMatrix" (mret data)
       | None => mret tt
       end
     else mret tt);;
  _processParameters ActiveLightingParams.

Definition getShaderVariant (device : val) (scene : Scene)
    (objDefs staticLightList pass sortedLights viewUniformFormat viewBindGroupFormat : val)
    : M val :=
  updateEnvUniforms device scene;;
  let minimalOptions :=
    strict_eq pass (VNum SHADER_DEPTH) || strict_eq pass (VNum SHADER_PICK) || ShaderPass_isShadow pass in
  options ←
    (if minimalOptions then
       modify (λ w, set_optionsContextMin
         (updateMinRef (optionsContextMin w) scene w objDefs staticLightList pass sortedLights) w);;
       options ← gets optionsContextMin;
       emit (EvUpdateRef true options);;
       mret options
     else
       modify (λ w, set_optionsContext
         (updateRef (optionsContext w) scene w objDefs staticLightList pass sortedLights) w);;
       options ← gets optionsContext;
       emit (EvUpdateRef false options);;
       mret options);
  hook ← gets onUpdateShader;
  options ←
    match hook with
    | Some callback =>
        let options' := callback options in
        emit (EvOnUpdateShader options options');;
        mret options'
    | None => mret options
    end;
  let processingOptions := (viewUniformFormat, viewBindGroupFormat) in
  emit (EvRegister "standard");;
  let shader := getProgram "standard" options processingOptions in
  emit (EvGetProgram "standard" options processingOptions);;
  modify (set__dirtyShader (VBool false));;
  mret shader.

End Update.

(** ** What a client may do with a material *)

Section Operations.
Context `{Collaborators} `{ModuleTables}.

Inductive op :=
| OpSet (name : string) (value : val)      (* material[name] = value *)
| OpGet (name : string)                    (* material[name] *)
| OpMutate (name : string) (content : obj) (* material[name].set(...) and the like *)
| OpSetChunks (value : val)
| OpGetChunks
| OpSetParameter (name value : val)        (* material.setParameter(name, value) *)
| OpUpdateUniforms (device : val) (scene : Scene)
| OpUpdateEnvUniforms (device : val) (scene : Scene)
| OpGetShaderVariant (device : val) (scene : Scene)
    (objDefs staticLightList pass sortedLights viewUniformFormat viewBindGroupFormat : val).

(** In-place change of the aggregate a getter returned: the object keeps its
    identity and gets a new content. *)
Definition mutate (name : string) (content : obj) : M unit :=
  v ← get name;
  match v with
  | VObj id _ => write ("_" +:+ name) (VObj id content)
  | _ => throw
  end.

Definition runOp (o : op) : M unit :=
  match o with
  | OpSet name value => set name value
  | OpGet name => get name ;; mret tt
  | OpMutate name content => mutate name content
  | OpSetChunks value => setChunks value
  | OpGetChunks => getChunks ;; mret tt
  | OpSetParameter name value =>
      modify (λ w, set_parameters (setParameter name value (parameters w)) w)
  | OpUpdateUniforms device scene => updateUniforms device scene
  | OpUpdateEnvUniforms device scene => updateEnvUniforms device scene
  | OpGetShaderVariant device scene objDefs staticLightList pass sortedLights vuf vbgf =>
      getShaderVariant device scene objDefs staticLightList pass sortedLights vuf vbgf ;;
      mret tt
  end.

Definition isGetShaderVariant (o : op) : bool :=
  match o with
  | OpGetShaderVariant _ _ _ _ _ _ _ _ => true
  | _ => false
  end.

Definition runOps (ops : list op) : M unit := forEach ops runOp.

End Operations.

(** ** Concrete collaborators

    The values of the constants are those of [constants.js]; the functions are
    simple stand-ins with the right types, used to run the model on examples. *)
Definition demoEquals (a b : val) : option bool :=
  match a, b with
  | VObj _ (OColor r g b a), VObj _ (OColor r' g' b' a') =>
      Some (PrimFloat.eqb r r' && PrimFloat.eqb g g' && PrimFloat.eqb b b' && PrimFloat.eqb a a')
  | VObj _ (OVec2 x y), VObj _ (OVec2 x' y') =>
      Some (PrimFloat.eqb x x' && PrimFloat.eqb y y')
  | _, _ => None
  end.

Definition demoCopy (a b : val) : option val :=
  match a, b with
  | VObj id (OColor _ _ _ _), VObj _ (OColor r g b a) => Some (VObj id (OColor r g b a))
  | VObj id (OVec2 _ _), VObj _ (OVec2 x y) => Some (VObj id (OVec2 x y))
  | _, _ => None
  end.

Definition demoSetParameter (name data : val) (parameters : gmap string val) : gmap string val :=
  match name with
  | VStr s => <[s := data]> parameters
  | _ => parameters
  end.

Definition demo : Collaborators := {|
  CUBEPROJ_BOX := 1;
  CUBEPROJ_NONE := 0;
  DETAILMODE_MUL := "mul";
  FRESNEL_SCHLICK := 2;
  SHADER_DEPTH := 2;
  SHADER_PICK := 3;
  SPECOCC_AO := 1;
  SPECULAR_BLINN := 1;
  SPECULAR_PHONG := 0;
  DEG_TO_RAD := 0.017453292519943295;
  Math_pow := λ x y, (x * x)%float;
  Math_cos := λ x, 1%float;
  Math_sin := λ x, x;
  fround := λ x, x;
  equals := demoEquals;
  copy := demoCopy;
  getMin := λ _, Some (0, 0, 0)%float;
  getMax := λ _, Some (1, 1, 1)%float;
  generatePrefilteredAtlas := λ _ target, VObj 1000 (OTexture "default" false 0);
  setParameter := demoSetParameter;
  ShaderPass_isShadow := λ pass, match pass with VNum x => PrimFloat.leb 4 x | _ => false end;
  updateRef := λ options _ _ _ _ pass _, <["pass" := pass]> options;
  updateMinRef := λ options _ _ _ _ pass _, <["pass" := pass]> options;
  getProgram := λ _ options _, VObj (size options) OOther
|}.

Definition demoTables : ModuleTables := @standardTables demo.

Definition demoScene : Scene := mkScene (VNum 1) VNull VNull true None.

(** A material just built by [new StandardMaterial()]. *)
Definition demoMaterial : state :=
  match @constructor demoTables moduleLoaded with
  | Some (_, w) => w
  | None => moduleLoaded
  end.

End StandardMaterial.

(* ===================================================================== *)
(** * A run with single precision stores and the array form of
      [setParameter]                                                      *)
(* ===================================================================== *)

Module EngineRun.
Import StandardMaterial Js.

(** A store into a [Float32Array] converts the number to binary32, rounding to
    nearest, ties to even (24 bits of precision, exponents below 128), and the
    read gives that value back as a binary64 number.  NaN, the zeros and the
    infinities are kept. *)
Definition fround32 (x : float) : float :=
  match FloatOps.Prim2SF x with
  | SpecFloat.S754_finite s m e =>
      FloatOps.SF2Prim (SpecFloat.binary_round 24 128 s m e)
  | _ => x
  end.

(** [setParameter(name, data)] as [updateUniforms] calls it.  With a name and
    a value it binds the value under the name.  With an array of
    [{ name, value }] records and no second argument, the call of line 746, it
    binds every record of the array under the record's own name.  No other
    call form is used by the material. *)
Definition arraySetParameter (name data : val) (parameters : gmap string val)
    : gmap string val :=
  match name, data with
  | VStr s, _ => <[s := data]> parameters
  | VParams _ items, VUndefined =>
      foldl (λ table '(n, l), <[n := VF32 l]> table) parameters items
  | _, _ => parameters
  end.

(** The constants of [constants.js]; the bounding box functions answer on
    objects only; [Math.pow], [Math.cos] and [Math.sin] are stand-ins. *)
Definition engine : Collaborators := {|
  CUBEPROJ_BOX := 1;
  CUBEPROJ_NONE := 0;
  DETAILMODE_MUL := "mul";
  FRESNEL_SCHLICK := 2;
  SHADER_DEPTH := 2;
  SHADER_PICK := 3;
  SPECOCC_AO := 1;
  SPECULAR_BLINN := 1;
  SPECULAR_PHONG := 0;
  DEG_TO_RAD := 0.017453292519943295;
  Math_pow := λ x y, (x * x)%float;
  Math_cos := λ x, 1%float;
  Math_sin := λ x, x;
  fround := fround32;
  equals := demoEquals;
  copy := demoCopy;
  getMin := λ box, match box with
                   | VObj _ _ => Some (-0.5, -0.5, -0.5)%float
                   | _ => None
                   end;
  getMax := λ box, match box with
                   | VObj _ _ => Some (0.5, 0.5, 0.5)%float
                   | _ => None
                   end;
  generatePrefilteredAtlas := λ _ target, VObj 1000 (OTexture "default" false 0);
  setParameter := arraySetParameter;
  ShaderPass_isShadow := λ pass, match pass with VNum x => PrimFloat.leb 4 x | _ => false end;
  updateRef := λ options _ _ _ _ pass _, <["pass" := pass]> options;
  updateMinRef := λ options _ _ _ _ pass _, <["pass" := pass]> options;
  getProgram := λ _ options _, VObj (size options) OOther
|}.

Definition engineTables : ModuleTables := @standardTables engine.

(** A scene without gamma correction. *)
Definition linearScene : Scene := mkScene (VNum 0) VNull VNull true None.

(** A material just built by [new StandardMaterial()]. *)
Definition engineMaterial : state :=
  match @constructor engineTables moduleLoaded with
  | Some (_, w) => w
  | None => moduleLoaded
  end.

(** The bounding box given to [cubeMapProjectionBox]. *)
Definition projectionBox : val := VObj 2000 OOther.

(** Pass N: box projection is on. *)
Definition boxPass : list op :=
  [OpSet "cubeMapProjectionBox" projectionBox;
   OpSet "cubeMapProjection" (VNum 1);
   OpUpdateUniforms VNull linearScene].

(** Pass N+1: box projection has been switched off. *)
Definition plainPass : list op :=
  [OpSet "cubeMapProjection" (VNum 0);
   OpUpdateUniforms VNull linearScene].

(** What a run of passes leaves: the members of the material's active set and
    what is bound under [envBoxMin] and [envBoxMax]. *)
Definition boxBindings (r : option (unit * state))
    : option (list pkey * option val * option val) :=
  match r with
  | Some (_, w) =>
      match setStore w !! _activeParams w with
      | Some names => Some (names, parameters w !! "envBoxMin", parameters w !! "envBoxMax")
      | None => None
      end
  | None => None
  end.

(** The numbers in the array a call of [getUniform] returned. *)
Definition uniformValues (r : option (val * state)) : option (list float) :=
  match r with
  | Some (VF32 l, w) => f32Store w !! l
  | _ => None
  end.

End EngineRun.

(* ===================================================================== *)
(** * Facts about render actions                                          *)
(* ===================================================================== *)

Module RenderActionFacts.
Import RenderAction.

Section CollectFacts.
Variable castShadows : Light → bool.

Lemma lockstep_reset allLights ra : lockstep allLights (reset ra).
Proof.
  repeat split; simpl; try set_solver. constructor.
Qed.

Lemma lockstep_visitLayer allLights light ra layer :
  lockstep allLights ra → lockstep allLights (visitLayer allLights light ra layer).
Proof.
  intros (Hmem & Hnd & Hidx). unfold visitLayer.
  destruct (0 <=? _); [|done].
  destruct (decide _) as [|Hnew]; [done|].
  repeat split; simpl.
  - rewrite elem_of_union, elem_of_singleton, elem_of_app, list_elem_of_singleton.
    rewrite Hmem. tauto.
  - rewrite elem_of_union, elem_of_singleton, elem_of_app, list_elem_of_singleton.
    rewrite Hmem. tauto.
  - apply NoDup_app. repeat split; [done| |apply NoDup_singleton].
    intros x Hx ->%list_elem_of_singleton. by apply Hnew, Hmem.
  - by rewrite fmap_app, Hidx.
Qed.

Lemma lockstep_visitLight cameraLayers allLights ra light :
  lockstep allLights ra →
  lockstep allLights (visitLight castShadows cameraLayers allLights ra light).
Proof.
  unfold visitLight. destruct (castShadows light); [|done].
  revert ra. induction cameraLayers as [|layer layers IH]; intros ra H; [done|].
  simpl. by apply IH, lockstep_visitLayer.
Qed.

Lemma lockstep_collect cameraLayers dirLights allLights ra :
  lockstep allLights
    (collectDirectionalLights castShadows cameraLayers dirLights allLights ra).
Proof.
  unfold collectDirectionalLights.
  generalize (lockstep_reset allLights ra). generalize (reset ra).
  induction dirLights as [|light lights IH]; intros ra0 H; [done|].
  simpl. by apply IH, lockstep_visitLight.
Qed.

Lemma lockstep_size allLights ra :
  lockstep allLights ra →
  size (directionalLightsSet ra) = length (directionalLights ra).
Proof.
  intros (Hmem & Hnd & _).
  rewrite <- (size_list_to_set (C := gset Light) (directionalLights ra)) by done.
  f_equal. apply set_eq. intros L. rewrite elem_of_list_to_set. apply Hmem.
Qed.

End CollectFacts.

(** C3: after [collectDirectionalLights], whatever the camera layers, the
    directional lights and the list of all lights: a light is in
    [directionalLightsSet] exactly when it occurs in [directionalLights],
    where no light occurs twice; at every position [k],
    [directionalLightsIndices[k]] is [allLights.indexOf(directionalLights[k])];
    and the set and the two arrays have the same size. *)
Theorem directional_lights_consistent (castShadows : Light → bool)
    (cameraLayers : list Layer) (dirLights allLights : list Light) (ra : t) :
  let ra' := collectDirectionalLights castShadows cameraLayers dirLights allLights ra in
  (∀ L, L ∈ directionalLightsSet ra' ↔ L ∈ directionalLights ra')
  ∧ NoDup (directionalLights ra')
  ∧ (∀ k L, directionalLights ra' !! k = Some L →
       directionalLightsIndices ra' !! k = Some (indexOf allLights L))
  ∧ size (directionalLightsSet ra') = length (directionalLights ra')
  ∧ length (directionalLightsIndices ra') = length (directionalLights ra').
Proof.
  intros ra'.
  pose proof (lockstep_collect castShadows cameraLayers dirLights allLights ra) as Hlock.
  fold ra' in Hlock. pose proof (lockstep_size allLights ra' Hlock) as Hsize.
  destruct Hlock as (Hmem & Hnd & Hidx).
  split; [exact Hmem|]. split; [exact Hnd|]. split; [|split; [exact Hsize|]].
  - intros k L Hk. rewrite Hidx, list_lookup_fmap, Hk. reflexivity.
  - rewrite Hidx. apply length_fmap.
Qed.

End RenderActionFacts.

Import Js StandardMaterial.

(* ===================================================================== *)
(** * Facts about the standard material                                   *)
(* ===================================================================== *)

Module StandardMaterialFacts.

Lemma append_assoc (a b c : string) : (a +:+ b) +:+ c = a +:+ (b +:+ c).
Proof.
  induction a as [|x a IH]; [done|].
  change (String x ((a +:+ b) +:+ c) = String x (a +:+ (b +:+ c))). by rewrite IH.
Qed.

(** ** Running a computation *)

Lemma bind_Some {A B} (c : M A) (f : A → M B) w b w' :
  (c ≫= f) w = Some (b, w') ↔ ∃ a w1, c w = Some (a, w1) ∧ f a w1 = Some (b, w').
Proof.
  unfold mbind, M_bind. destruct (c w) as [[a w1]|]; split.
  - eauto.
  - by intros (? & ? & [= <- <-] & ?).
  - done.
  - by intros (? & ? & ? & ?).
Qed.

Lemma bind_run {A B} (c : M A) (f : A → M B) w a w1 :
  c w = Some (a, w1) → (c ≫= f) w = f a w1.
Proof. unfold mbind, M_bind. by intros ->. Qed.

Lemma lift_Some {A} (o : option A) w a w' :
  lift o w = Some (a, w') ↔ o = Some a ∧ w' = w.
Proof.
  unfold lift. destruct o; simpl; split.
  - by intros [= <- <-].
  - by intros [[= <-] ->].
  - done.
  - by intros [? _].
Qed.

(** [preserves R c]: every run of [c] relates the state before to the state
    after. *)
Definition preserves {A} (R : relation state) (c : M A) : Prop :=
  ∀ w a w', c w = Some (a, w') → R w w'.

(** [total I c]: from a state in [I], [c] returns, in a state in [I]. *)
Definition total {A} (I : state → Prop) (c : M A) : Prop :=
  ∀ w, I w → ∃ a w', c w = Some (a, w') ∧ I w'.

Section Preserves.
Context (R : relation state) `{!PreOrder R}.

Lemma preserves_ret {A} (a : A) : preserves R (mret a).
Proof. intros w a' w' [= <- <-]. reflexivity. Qed.

Lemma preserves_bind {A B} (c : M A) (f : A → M B) :
  preserves R c → (∀ a, preserves R (f a)) → preserves R (c ≫= f).
Proof.
  intros Hc Hf w b w' (a & w1 & H1 & H2)%bind_Some.
  etrans; [by eapply Hc | by eapply Hf].
Qed.

Lemma preserves_throw {A} : preserves R (throw (A := A)).
Proof. by intros w a w'. Qed.

Lemma preserves_gets {A} (f : state → A) : preserves R (gets f).
Proof. intros w a w' [= <- <-]. reflexivity. Qed.

Lemma preserves_lift {A} (o : option A) : preserves R (lift o).
Proof. intros w a w' [_ ->]%lift_Some. reflexivity. Qed.

Lemma preserves_setElements r : preserves R (setElements r).
Proof.
  intros w a w'. unfold setElements. destruct (_ !! _); intros [= <- <-]. reflexivity.
Qed.

Lemma preserves_f32Elements l : preserves R (f32Elements l).
Proof.
  intros w a w'. unfold f32Elements. destruct (_ !! _); intros [= <- <-]. reflexivity.
Qed.

Lemma preserves_modify (f : state → state) :
  (∀ w, R w (f w)) → preserves R (modify f).
Proof. intros Hf w a w' [= <- <-]. apply Hf. Qed.

Lemma preserves_forEach {A} (l : list A) (f : A → M unit) :
  (∀ x, preserves R (f x)) → preserves R (forEach l f).
Proof.
  intros Hf. induction l as [|x l IH]; simpl.
  - apply preserves_ret.
  - apply preserves_bind; [apply Hf | intros _; apply IH].
Qed.

End Preserves.

Section Total.
Context (I : state → Prop).

Lemma total_ret {A} (a : A) : total I (mret a).
Proof. intros w Hw. by exists a, w. Qed.

Lemma total_bind {A B} (c : M A) (f : A → M B) :
  total I c → (∀ a, total I (f a)) → total I (c ≫= f).
Proof.
  intros Hc Hf w Hw. destruct (Hc w Hw) as (a & w1 & H1 & Hw1).
  destruct (Hf a w1 Hw1) as (b & w2 & H2 & Hw2).
  exists b, w2. split; [|done]. by rewrite (bind_run _ _ _ _ _ H1).
Qed.

Lemma total_gets {A} (f : state → A) : total I (gets f).
Proof. intros w Hw. by exists (f w), w. Qed.

Lemma total_modify (f : state → state) :
  (∀ w, I w → I (f w)) → total I (modify f).
Proof. intros Hf w Hw. exists tt, (f w). split; [done | by apply Hf]. Qed.

Lemma total_lookup {A} (f : state → option A) :
  (∀ w, I w → is_Some (f w)) → total I (λ w, (λ s, (s, w)) <$> f w).
Proof. intros Hf w Hw. destruct (Hf w Hw) as [s Hs]. exists s, w. by rewrite Hs. Qed.

Lemma total_forEach {A} (l : list A) (f : A → M unit) :
  (∀ x, total I (f x)) → total I (forEach l f).
Proof.
  intros Hf. induction l as [|x l IH]; simpl.
  - apply total_ret.
  - apply total_bind; [apply Hf | intros _; apply IH].
Qed.

End Total.

(** ** The registry *)

Section RegistryFacts.
Context `{Collaborators}.

Definition valueAccessor (name : string) (d : dirtyFn) : accessor :=
  mkAccessor (GetInternal ("_" +:+ name)) (SetValue ("_" +:+ name) d).

Definition registered (d : definition) : bool :=
  let R := moduleTables in
  match d with
  | DefColor name _ =>
      bool_decide (alist_get name (accessors R)
                   = Some (mkAccessor (GetColor ("_" +:+ name)) (SetAgg ("_" +:+ name) DirtyAlways)))
      && bool_decide (alist_get name (_uniforms R) = Some (Some (UColor name)))
  | DefFloat name _ u =>
      bool_decide (alist_get name (accessors R) = Some (valueAccessor name DirtyFloat))
  | DefObject name _ =>
      bool_decide (alist_get name (accessors R) = Some (valueAccessor name DirtyObject))
  | DefFlag name _ =>
      bool_decide (alist_get name (accessors R) = Some (valueAccessor name DirtyAlways))
  | DefTex2D name _ _ _ _ _ =>
      bool_decide (alist_get (name +:+ "Map") (accessors R)
                   = Some (valueAccessor (name +:+ "Map") DirtyTex2D))
      && bool_decide (alist_get (name +:+ "MapTiling") (accessors R)
                   = Some (mkAccessor (GetInternal ("_" +:+ name +:+ "MapTiling"))
                             (SetAgg ("_" +:+ name +:+ "MapTiling") DirtyAlways)))
      && bool_decide (alist_get (name +:+ "MapOffset") (accessors R)
                   = Some (mkAccessor (GetInternal ("_" +:+ name +:+ "MapOffset"))
                             (SetAgg ("_" +:+ name +:+ "MapOffset") DirtyAlways)))
      && bool_decide (alist_get (name +:+ "MapRotation") (accessors R)
                   = Some (valueAccessor (name +:+ "MapRotation") DirtyAlways))
      && bool_decide (alist_get (name +:+ "MapTransform") (_uniforms R)
                   = Some (Some (UMapTransform name)))
  | DefPropInternal name _ s g =>
      bool_decide (acc_set <$> alist_get name (accessors R) = Some s)
  end.

(** No call of [_defineMaterialProps] is overridden by a later one. *)
Lemma all_registered : forallb registered materialPropDefinitions = true.
Proof. vm_compute. reflexivity. Qed.

Lemma registered_In d : d ∈ materialPropDefinitions → registered d = true.
Proof.
  intros Hd. apply list_elem_of_In in Hd.
  exact (proj1 (forallb_forall _ _) all_registered d Hd).
Qed.

End RegistryFacts.

(** The tables are computed once, by [all_registered]; elsewhere they stay
    folded. *)
#[global] Opaque _defineMaterialProps.

(** ** Accessors *)

Section AccessorFacts.
Context `{Collaborators}.

Lemma set_value_accessor name acc internalName d value :
  alist_get name (accessors moduleTables) = Some acc →
  acc_set acc = SetValue internalName d →
  set name value = setValue internalName d value.
Proof.
  intros Hacc Hset. unfold set, setDefined. rewrite Hacc.
  destruct acc as [g s]. simpl in Hset. by subst s.
Qed.

Lemma get_internal name acc internalName :
  alist_get name (accessors moduleTables) = Some acc →
  acc_get acc = GetInternal internalName →
  get name = read internalName.
Proof. intros Hacc Hget. unfold get. rewrite Hacc. by rewrite Hget. Qed.

Lemma get_accessor name acc :
  alist_get name (accessors moduleTables) = Some acc →
  get name = runGetter (acc_get acc).
Proof. intros Hacc. unfold get. by rewrite Hacc. Qed.

Lemma setValue_same internalName d value w :
  strict_eq (field w internalName) value = true →
  setValue internalName d value w = Some (tt, w).
Proof.
  intros Heq. unfold setValue, read, gets, strict_ne, mbind, M_bind.
  by rewrite Heq.
Qed.

Lemma setValue_changed internalName d value r w :
  strict_eq (field w internalName) value = false →
  applyDirty d (field w internalName) value = Some r →
  setValue internalName d value w
  = Some (tt, set_fields (<[internalName := value]> (fields w))
                (set__dirtyShader (js_or (_dirtyShader w) r) w)).
Proof.
  intros Hne Hd.
  unfold setValue, markDirty, read, write, gets, modify, lift, strict_ne, js_or,
    mbind, M_bind, mret, M_ret.
  rewrite Hne. simpl. destruct (truthy (_dirtyShader w)); simpl; [done|].
  by rewrite Hd.
Qed.

Lemma field_write (m : gmap string val) w k v :
  field (set_fields (<[k := v]> m) w) k = v.
Proof. unfold field. simpl. by rewrite lookup_insert_eq. Qed.

Lemma truthy_js_or_true a : truthy (js_or a (VBool true)) = true.
Proof. unfold js_or. by destruct (truthy a) eqn:E. Qed.

Lemma runGetter_color internalName w :
  runGetter (GetColor internalName) w
  = Some (field w internalName, set__dirtyShader (VBool true) w).
Proof. reflexivity. Qed.

End AccessorFacts.

(** ** [_processParameters] *)

Section ProcessParameters.
Context `{Collaborators}.

(** The [parameters] object after the [forEach] of [_processParameters]. *)
Definition cleanup (cur : list pkey) (table : gmap string val) (prev : list pkey)
    : gmap string val :=
  foldl (λ (t : gmap string val) (k : pkey),
           if bool_decide (k ∈ cur) then t else delete (key_string k) t) table prev.

Lemma cleanup_None cur table prev k :
  table !! k = None → cleanup cur table prev !! k = None.
Proof.
  revert table. induction prev as [|p prev IH]; intros table Hk; [done|].
  simpl. apply IH. case_bool_decide; [done|].
  rewrite lookup_delete. by case_decide.
Qed.

Lemma cleanup_removes cur table prev P :
  P ∈ prev → P ∉ cur → cleanup cur table prev !! key_string P = None.
Proof.
  revert table. induction prev as [|p prev IH]; intros table Hin Hcur.
  - by apply elem_of_nil in Hin.
  - apply elem_of_cons in Hin as [<- | Hin]; simpl.
    + apply cleanup_None. rewrite bool_decide_eq_false_2 by done.
      apply lookup_delete_eq.
    + by apply IH.
Qed.

Lemma cleanup_keeps cur table prev :
  prev ⊆ cur → cleanup cur table prev = table.
Proof.
  revert table. induction prev as [|p prev IH]; intros table Hsub; [done|].
  simpl. rewrite bool_decide_eq_true_2 by set_solver. apply IH. set_solver.
Qed.

Lemma setElements_run r w s :
  setStore w !! r = Some s → setElements r w = Some (s, w).
Proof. unfold setElements. by intros ->. Qed.

Lemma processParameters_loop (cur elems : list pkey) w :
  setStore w !! _params w = Some cur →
  forEach elems (λ param : pkey,
    g ← gets _params;
    cur ← setElements g;
    when (negb (set_has param cur))
      (modify (λ w, set_parameters (delete (key_string param) (parameters w)) w))) w
  = Some (tt, set_parameters (cleanup cur (parameters w) elems) w).
Proof.
  revert w. induction elems as [|p elems IH]; intros w Hcur.
  - by destruct w.
  - cbn [forEach]. unfold mbind at 1, M_bind at 1. unfold mbind at 1, M_bind at 1.
    cbn [gets]. unfold mbind at 1, M_bind at 1.
    rewrite (setElements_run _ _ _ Hcur). unfold set_has.
    destruct (bool_decide (p ∈ cur)) eqn:E; cbn [negb when].
    + cbn [mret M_ret]. rewrite IH by done. cbn [cleanup foldl]. by rewrite E.
    + cbn [modify]. rewrite IH by done. cbn [cleanup foldl]. by rewrite E.
Qed.

(** The state [_processParameters] leaves. *)
Definition processed (n : paramsName) (prev cur : list pkey) (w : state) : state :=
  set_setStore (<[getParams n w := []]> (setStore w))
    (set__params (getParams n w)
       (setParams n (_params w)
          (set_parameters (cleanup cur (parameters w) prev) w))).

Lemma processParameters_run n w prev cur :
  setStore w !! getParams n w = Some prev →
  setStore w !! _params w = Some cur →
  _processParameters n w = Some (tt, processed n prev cur w).
Proof.
  intros Hprev Hcur. unfold _processParameters.
  unfold mbind at 1, M_bind at 1. cbn [gets].
  unfold mbind at 1, M_bind at 1. rewrite (setElements_run _ _ _ Hprev).
  unfold mbind at 1, M_bind at 1. rewrite (processParameters_loop cur) by done.
  unfold processed, setElements.
  destruct n; simpl in *; unfold mbind, M_bind; simpl; by rewrite Hprev.
Qed.

End ProcessParameters.

(** ** Forward reasoning on one run

    [hoare P c Q]: from a state in [P], [c] returns a value and a state in
    [Q]. *)
Definition hoare {A} (P : state → Prop) (c : M A) (Q : A → state → Prop) : Prop :=
  ∀ w, P w → ∃ a w', c w = Some (a, w') ∧ Q a w'.

Section Hoare.
Context {A B : Type}.
Implicit Types (P : state → Prop) (Q : B → state → Prop).

Lemma hoare_ret P (b : B) Q : (∀ w, P w → Q b w) → hoare P (mret b) Q.
Proof. intros HQ w Hw. exists b, w. split; [done | by apply HQ]. Qed.

Lemma hoare_bind P (c : M A) (R : A → state → Prop) (f : A → M B) Q :
  hoare P c R → (∀ a, hoare (R a) (f a) Q) → hoare P (c ≫= f) Q.
Proof.
  intros Hc Hf w Hw. destruct (Hc w Hw) as (a & w1 & H1 & HR).
  destruct (Hf a w1 HR) as (b & w2 & H2 & HQ).
  exists b, w2. split; [|done]. by rewrite (bind_run _ _ _ _ _ H1).
Qed.

Lemma hoare_bind_ret P (a : A) (f : A → M B) Q :
  hoare P (f a) Q → hoare P (mret a ≫= f) Q.
Proof. intros Hf w Hw. exact (Hf w Hw). Qed.

Lemma hoare_bind_lift P (o : option A) (a : A) (f : A → M B) Q :
  o = Some a → hoare P (f a) Q → hoare P (lift o ≫= f) Q.
Proof. intros -> Hf w Hw. exact (Hf w Hw). Qed.

Lemma hoare_bind_gets P (g : state → A) (a : A) (f : A → M B) Q :
  (∀ w, P w → g w = a) → hoare P (f a) Q → hoare P (gets g ≫= f) Q.
Proof.
  intros Hg Hf w Hw. destruct (Hf w Hw) as (b & w' & Hrun & HQ).
  exists b, w'. split; [|done]. unfold mbind, M_bind, gets. by rewrite (Hg w Hw).
Qed.

Lemma hoare_bind_assoc {C} P (c : M C) (f : C → M A) (g : A → M B) Q :
  hoare P (c ≫= λ x, f x ≫= g) Q → hoare P ((c ≫= f) ≫= g) Q.
Proof.
  intros Hc w Hw. destruct (Hc w Hw) as (b & w' & Hrun & HQ).
  exists b, w'. split; [|done]. revert Hrun. unfold mbind, M_bind.
  by destruct (c w) as [[x w1]|].
Qed.

Lemma hoare_if P (b : bool) (c1 c2 : M B) Q :
  (b = true → hoare P c1 Q) → (b = false → hoare P c2 Q) →
  hoare P (if b then c1 else c2) Q.
Proof. destruct b; auto. Qed.

End Hoare.

Lemma hoare_bind_modify {B} (P P' : state → Prop) (g : state → state)
    (f : unit → M B) (Q : B → state → Prop) :
  (∀ w, P w → P' (g w)) → hoare P' (f tt) Q → hoare P (modify g ≫= f) Q.
Proof. intros Hg Hf w Hw. exact (Hf (g w) (Hg w Hw)). Qed.

Lemma hoare_bind_f32Elements {B} (P : state → Prop) (l : nat) (arr : list float)
    (f : list float → M B) (Q : B → state → Prop) :
  (∀ w, P w → f32Store w !! l = Some arr) → hoare P (f arr) Q →
  hoare P (f32Elements l ≫= f) Q.
Proof.
  intros Hl Hf w Hw. destruct (Hf w Hw) as (b & w' & Hrun & HQ).
  exists b, w'. split; [|done]. unfold mbind, M_bind, f32Elements.
  by rewrite (Hl w Hw).
Qed.

Lemma hoare_conseq {A} (P P' : state → Prop) (c : M A) (Q Q' : A → state → Prop) :
  (∀ w, P w → P' w) → (∀ a w, Q' a w → Q a w) → hoare P' c Q' → hoare P c Q.
Proof.
  intros HP HQ Hc w Hw. destruct (Hc w (HP w Hw)) as (a & w' & Hrun & HQ').
  exists a, w'. auto.
Qed.

Lemma hoare_exists_pre {A X} (P : X → state → Prop) (c : M A) (Q : A → state → Prop) :
  (∀ x, hoare (P x) c Q) → hoare (λ w, ∃ x, P x w) c Q.
Proof. intros Hc w [x Hw]. exact (Hc x w Hw). Qed.

Lemma hoare_pure_pre {A} (φ : Prop) (P : state → Prop) (c : M A) (Q : A → state → Prop) :
  (φ → hoare P c Q) → hoare (λ w, φ ∧ P w) c Q.
Proof. intros Hc w [Hφ Hw]. exact (Hc Hφ w Hw). Qed.

(** ** Proof steps shared by the facts below *)

(** Unfold the methods down to the primitive computations. *)
Ltac head_of t :=
  lazymatch t with
  | ?f _ => head_of f
  | _ => t
  end.

(** Unfold the method at the head of the computation of the goal. *)
Ltac unfold_head :=
  lazymatch goal with
  | |- _ _ ?c => let h := head_of c in progress (unfold h)
  end.

(** One step of forward reasoning that needs no fact about the state. *)
Ltac hoare_pure_step :=
  cbv beta iota;
  lazymatch goal with
  | |- hoare _ ((_ ≫= _) ≫= _) _ => apply hoare_bind_assoc
  | |- hoare _ (mret _ ≫= _) _ => apply hoare_bind_ret
  | |- hoare _ (lift ?o ≫= _) _ =>
      let o' := eval simpl in o in
      change o with o'; eapply hoare_bind_lift; [reflexivity|]
  | |- hoare _ ((if ?b then _ else _) ≫= _) _ => destruct b eqn:?
  | |- hoare _ ((if ?b then _ else _)) _ => destruct b eqn:?
  | |- hoare _ (?c ≫= _) _ =>
      let h := head_of c in
      lazymatch h with
      | @gets => fail
      | @modify => fail
      | @f32Elements => fail
      | @setElements => fail
      | _ => unfold h
      end
  end.

Ltac preserves_step known :=
  first
    [ known
    | lazymatch goal with
      | |- preserves _ (mret _) => apply preserves_ret; exact _
      | |- preserves _ (gets _) => apply preserves_gets; exact _
      | |- preserves _ (lift _) => apply preserves_lift; exact _
      | |- preserves _ throw => apply preserves_throw
      | |- preserves _ (setElements _) => apply preserves_setElements; exact _
      | |- preserves _ (f32Elements _) => apply preserves_f32Elements; exact _
      | |- preserves _ (_ ≫= _) => apply preserves_bind; [exact _ | | intros ?]
      | |- preserves _ (forEach _ _) => apply preserves_forEach; [exact _ | intros ?]
      | |- preserves _ (if ?b then _ else _) => destruct b
      | |- preserves _ (match ?x with _ => _ end) => destruct x
      end
    | unfold_head ].

Ltac total_step known :=
  first
    [ known
    | lazymatch goal with
      | |- total _ (mret _) => apply total_ret
      | |- total _ (gets _) => apply total_gets
      | |- total _ (_ ≫= _) => apply total_bind; [| intros ?]
      | |- total _ (forEach _ _) => apply total_forEach; intros ?
      | |- total _ (if ?b then _ else _) => destruct b
      | |- total _ (match ?x with _ => _ end) => destruct x
      end
    | unfold_head ].

(** ** [updateEnvUniforms] and [getShaderVariant] *)

Section ShaderVariant.
Context `{Collaborators}.

(** The three sets exist. *)
Definition validSets (w : state) : Prop :=
  is_Some (setStore w !! _params w)
  ∧ is_Some (setStore w !! _activeParams w)
  ∧ is_Some (setStore w !! _activeLightingParams w).

Lemma total_setElements_params :
  total validSets (g ← gets _params; setElements g).
Proof.
  intros w Hw. destruct Hw as ([s Hs] & ? & ?).
  exists s, w. split; [|done]. unfold mbind, M_bind. simpl.
  by apply setElements_run.
Qed.

Lemma validSets_insert w r s :
  validSets w → validSets (set_setStore (<[r := s]> (setStore w)) w).
Proof.
  unfold validSets. simpl. rewrite !lookup_lt_is_Some, length_insert. done.
Qed.

Lemma total__setParameter name value :
  is_Some (key_of name) → total validSets (_setParameter name value).
Proof.
  intros [k Hk] w Hw. unfold _setParameter. rewrite Hk.
  destruct (Hw) as ([s Hs] & _).
  eexists tt, _. split.
  - unfold mbind, M_bind, lift. simpl. rewrite (setElements_run _ _ _ Hs). simpl.
    reflexivity.
  - by apply (validSets_insert w).
Qed.

Lemma validSets_processed n prev cur w :
  validSets w → validSets (processed n prev cur w).
Proof.
  unfold validSets, processed. rewrite !lookup_lt_is_Some.
  destruct n; simpl; rewrite !length_insert; tauto.
Qed.

Lemma total__processParameters n : total validSets (_processParameters n).
Proof.
  intros w Hw.
  assert (is_Some (setStore w !! getParams n w)) as [prev Hprev].
  { destruct n; apply Hw. }
  destruct (Hw) as ([cur Hcur] & _).
  exists tt, (processed n prev cur w). split.
  - by apply processParameters_run.
  - by apply validSets_processed.
Qed.

Ltac total_known :=
  idtac;
  lazymatch goal with
  | |- total _ (_processParameters _) => apply total__processParameters
  | |- total _ (_setParameter _ _) => apply total__setParameter; by eexists
  | |- total _ (modify _) => apply total_modify; intros ? ?; assumption
  end.

Lemma total_get name : total validSets (get name).
Proof. repeat total_step total_known. Qed.

Lemma total_updateEnvUniforms device scene :
  total validSets (updateEnvUniforms device scene).
Proof.
  repeat total_step ltac:(idtac; lazymatch goal with
                          | |- total _ (get _) => apply total_get
                          | _ => total_known
                          end).
Qed.

(** What [updateEnvUniforms] leaves alone. *)
Definition envFrame (w w' : state) : Prop :=
  onUpdateShader w' = onUpdateShader w ∧ trace w' = trace w
  ∧ optionsContext w' = optionsContext w
  ∧ optionsContextMin w' = optionsContextMin w.

#[local] Instance envFrame_preorder : PreOrder envFrame.
Proof.
  split.
  - by intros w.
  - intros w1 w2 w3 (?&?&?&?) (?&?&?&?). unfold envFrame. repeat split; congruence.
Qed.

Lemma preserves__processParameters_envFrame n :
  preserves envFrame (_processParameters n).
Proof.
  unfold _processParameters.
  repeat preserves_step ltac:(idtac; lazymatch goal with
    | |- preserves _ (modify _) => apply preserves_modify; intros ?; by destruct n
    end).
Qed.

Lemma preserves_updateEnvUniforms_envFrame device scene :
  preserves envFrame (updateEnvUniforms device scene).
Proof.
  repeat preserves_step ltac:(idtac; lazymatch goal with
    | |- preserves _ (_processParameters _) => apply preserves__processParameters_envFrame
    | |- preserves _ (modify _) => apply preserves_modify; intros ?; done
    end).
Qed.

(** The options the builder leaves, for a pass. *)
Definition builtOptions (scene : Scene) (objDefs staticLightList pass sortedLights : val)
    (w : state) : bool * Options :=
  if strict_eq pass (VNum SHADER_DEPTH) || strict_eq pass (VNum SHADER_PICK)
     || ShaderPass_isShadow pass
  then (true, updateMinRef (optionsContextMin w) scene w objDefs staticLightList pass sortedLights)
  else (false, updateRef (optionsContext w) scene w objDefs staticLightList pass sortedLights).

Lemma getShaderVariant_run device scene objDefs staticLightList pass sortedLights vuf vbgf w w1 :
  updateEnvUniforms device scene w = Some (tt, w1) →
  let '(minimal, built) := builtOptions scene objDefs staticLightList pass sortedLights w1 in
  let options := match onUpdateShader w1 with Some callback => callback built | None => built end in
  ∃ w',
    getShaderVariant device scene objDefs staticLightList pass sortedLights vuf vbgf w
    = Some (getProgram "standard" options (vuf, vbgf), w')
    ∧ _dirtyShader w' = VBool false
    ∧ trace w' = trace w1 ++ [EvUpdateRef minimal built]
                 ++ match onUpdateShader w1 with
                    | Some _ => [EvOnUpdateShader built options]
                    | None => []
                    end
                 ++ [EvRegister "standard"; EvGetProgram "standard" options (vuf, vbgf)].
Proof.
  intros Henv. unfold builtOptions, getShaderVariant.
  erewrite bind_run by exact Henv.
  destruct (strict_eq pass (VNum SHADER_DEPTH) || strict_eq pass (VNum SHADER_PICK)
            || ShaderPass_isShadow pass);
    destruct (onUpdateShader w1) as [callback|] eqn:Hhook;
    (eexists; split; [unfold mbind, M_bind, emit, modify, gets; simpl; rewrite ?Hhook; simpl; reflexivity|]);
    simpl; (split; [done|]); rewrite <- ?app_assoc; reflexivity.
Qed.

End ShaderVariant.

End StandardMaterialFacts.

Import StandardMaterialFacts.

Module UniformFacts.

(** ** The uniform of a colour *)

Section ColorUniform.
Context `{Collaborators}.

(** What stays true of the state while a colour uniform is filled: the
    properties are those of [w0], the array at [l] holds [arr] and is the cached
    uniform of [name]; if [w0] had it cached, it is that one and no array was
    allocated. *)
Definition colorInv (w0 : state) (name : string) (l : nat) (arr : list float)
    (w : state) : Prop :=
  fields w = fields w0
  ∧ f32Store w !! l = Some arr
  ∧ _uniformCache w !! name = Some (VF32 l)
  ∧ (∀ l0, _uniformCache w0 !! name = Some (VF32 l0) →
       l = l0 ∧ length (f32Store w) = length (f32Store w0)).

Definition cachedF32 (w : state) (name : string) : Prop :=
  _uniformCache w !! name = None
  ∨ ∃ l arr, _uniformCache w !! name = Some (VF32 l)
             ∧ f32Store w !! l = Some arr ∧ length arr = 3%nat.

Lemma allocUniform_color w0 name :
  cachedF32 w0 name →
  hoare (λ w, w = w0) (_allocUniform name newFloat32Array3)
    (λ u w, ∃ l arr, u = VF32 l ∧ length arr = 3%nat ∧ colorInv w0 name l arr w).
Proof.
  intros Hc w ->. unfold _allocUniform, newFloat32Array3, mbind, M_bind, gets, modify, mret, M_ret.
  destruct Hc as [Hnone | (l & arr & Hsome & Harr & Hlen)].
  - rewrite Hnone. simpl.
    eexists _, _. split; [reflexivity|]. 
    exists (length (f32Store w0)), [0; 0; 0]%float.
    split; [done|]. split; [done|]. split; [done|]. split; [|split]; simpl.
    + rewrite lookup_app_r by done. by rewrite Nat.sub_diag.
    + by rewrite lookup_insert_eq.
    + intros l0. by rewrite Hnone.
  - rewrite Hsome. simpl. eexists _, _. split; [reflexivity|].
    exists l, arr. split; [done|]. split; [done|]. split; [done|]. split; [done|].
    split; [done|]. intros l0. rewrite Hsome. by intros [= ->].
Qed.

Lemma storeF32_color w0 name l arr i x :
  hoare (colorInv w0 name l arr) (storeF32 (VF32 l) i (VNum x))
    (λ _, colorInv w0 name l (<[i := fround x]> arr)).
Proof.
  intros w (Hf & Hl & Hc & Hreuse). unfold storeF32, f32Elements, mbind, M_bind, lift, modify.
  simpl. rewrite Hl. simpl. eexists _, _. split; [reflexivity|].
  split; [done|]. split; [|split]; simpl.
  - apply list_lookup_insert_eq. by eapply lookup_lt_Some.
  - done.
  - intros l0 Hl0. rewrite length_insert. by apply Hreuse.
Qed.

Lemma get_color_inv w0 name l arr internalName :
  hoare (colorInv w0 name l arr) (runGetter (GetColor internalName))
    (λ v w, v = field w0 internalName ∧ colorInv w0 name l arr w).
Proof.
  intros w Hw. eexists _, _. split; [reflexivity|]. split.
  - unfold field. simpl. by destruct Hw as [-> _].
  - exact Hw.
Qed.

Lemma read_color_inv w0 name l arr internalName :
  hoare (colorInv w0 name l arr) (read internalName)
    (λ v w, v = field w0 internalName ∧ colorInv w0 name l arr w).
Proof.
  intros w Hw. eexists _, _. split; [reflexivity|]. split; [|done].
  unfold field. by destruct Hw as [-> _].
Qed.

(** The three numbers a colour uniform holds. *)
Definition colorValues (r g b : float) (gamma : bool) : list float :=
  if gamma
  then [fround (Math_pow r 2.2); fround (Math_pow g 2.2); fround (Math_pow b 2.2)]
  else [fround r; fround g; fround b].

Lemma three_stores (arr : list float) (x y z : float) :
  length arr = 3%nat → <[2%nat := z]> (<[1%nat := y]> (<[0%nat := x]> arr)) = [x; y; z].
Proof. destruct arr as [|a0 [|a1 [|a2 [|]]]]; by intros [=]. Qed.

Lemma color_uniform_run w0 name defaultValue device scene cid r g b a :
  DefColor name defaultValue ∈ materialPropDefinitions →
  DefFlag "useGammaTonemap" (VBool true) ∈ materialPropDefinitions →
  field w0 ("_" +:+ name) = VObj cid (OColor r g b a) →
  cachedF32 w0 name →
  hoare (λ w, w = w0) (getUniform name device (Some scene))
    (λ u w, ∃ l, u = VF32 l
       ∧ colorInv w0 name l
           (colorValues r g b
              (truthy (js_and (field w0 "_useGammaTonemap") (gammaCorrection scene)))) w).
Proof.
  intros Hdef Hflag Hcolor Hcache.
  apply registered_In in Hdef. simpl in Hdef.
  apply andb_prop in Hdef as [Hacc%bool_decide_eq_true Huni%bool_decide_eq_true].
  apply registered_In in Hflag. simpl in Hflag. apply bool_decide_eq_true in Hflag.
  unfold getUniform. rewrite Huni. unfold runUniform.
  eapply hoare_bind; [by apply allocUniform_color|].
  intros u. apply hoare_exists_pre; intros l. apply hoare_exists_pre; intros arr.
  apply hoare_pure_pre; intros ->. apply hoare_pure_pre; intros Hlen.
  rewrite (get_accessor _ _ Hacc). cbn [acc_get].
  eapply hoare_bind; [apply get_color_inv|].
  intros color. apply hoare_pure_pre; intros ->. rewrite Hcolor.
  rewrite (get_internal _ _ _ Hflag eq_refl).
  unfold andM. apply hoare_bind_assoc.
  eapply hoare_bind; [apply read_color_inv|].
  intros flag. apply hoare_pure_pre; intros ->.
  assert (∀ i x arr', hoare (colorInv w0 name l arr')
            (storeF32 (VF32 l) i (VNum x))
            (λ _, colorInv w0 name l (<[i := fround x]> arr'))) as Hstore.
  { intros. apply storeF32_color. }
  unfold js_and, colorValues.
  assert (∀ arr', length arr' = 3%nat →
            hoare (colorInv w0 name l arr') (mret (VF32 l))
              (λ u w, ∃ l0, u = VF32 l0 ∧ colorInv w0 name l0 arr' w)) as Hret.
  { intros arr' _. apply hoare_ret. intros w Hw. by exists l. }
  change ("_" +:+ "useGammaTonemap") with "_useGammaTonemap".
  repeat (first [ cbv beta iota;
                  lazymatch goal with
                  | |- hoare _ (storeF32 _ _ _ ≫= _) _ =>
                      eapply hoare_bind; [apply Hstore | intros ?]
                  end
                | hoare_pure_step ]);
    cbv beta; rewrite three_stores by done; by apply Hret.
Qed.

Lemma useGammaTonemap_defined :
  DefFlag "useGammaTonemap" (VBool true) ∈ materialPropDefinitions.
Proof. apply list_elem_of_lookup. exists 57%nat. reflexivity. Qed.

End ColorUniform.

(** ** The uniform of a texture transform *)

Section MapTransform.
Context `{Collaborators}.

(** The properties are those of [w0] and the two arrays exist. *)
Definition pairInv (w0 : state) (l0 l1 : nat) (w : state) : Prop :=
  fields w = fields w0
  ∧ (l0 < length (f32Store w))%nat
  ∧ (l1 < length (f32Store w))%nat.

Definition cachedPair (w : state) (key n0 n1 : string) : Prop :=
  _uniformCache w !! key = None
  ∨ ∃ id l0 l1, _uniformCache w !! key = Some (VParams id [(n0, l0); (n1, l1)])
                ∧ (l0 < length (f32Store w))%nat ∧ (l1 < length (f32Store w))%nat.

Lemma allocUniform_pair w0 key n0 n1 :
  cachedPair w0 key n0 n1 →
  hoare (λ w, w = w0) (_allocUniform key (newUniformPair n0 n1))
    (λ u w, ∃ id l0 l1, u = VParams id [(n0, l0); (n1, l1)] ∧ pairInv w0 l0 l1 w).
Proof.
  intros Hc w ->.
  unfold _allocUniform, newUniformPair, newFloat32Array3, fresh, mbind, M_bind, gets,
    modify, mret, M_ret.
  destruct Hc as [Hnone | (id & l0 & l1 & Hsome & H0 & H1)].
  - rewrite Hnone. simpl. eexists _, _. split; [reflexivity|].
    eexists _, _, _. split; [reflexivity|]. unfold pairInv. simpl.
    rewrite !length_app. simpl. split; [done|]. lia.
  - rewrite Hsome. simpl. eexists _, _. split; [reflexivity|].
    exists id, l0, l1. done.
Qed.

Lemma storeF32_pair w0 l0 l1 l i x :
  l = l0 ∨ l = l1 →
  hoare (pairInv w0 l0 l1) (storeF32 (VF32 l) i (VNum x)) (λ _, pairInv w0 l0 l1).
Proof.
  intros Hl w (Hf & H0 & H1).
  assert (is_Some (f32Store w !! l)) as [arr Harr].
  { apply lookup_lt_is_Some. by destruct Hl as [-> | ->]. }
  unfold storeF32, f32Elements, mbind, M_bind, lift, modify. simpl. rewrite Harr. simpl.
  eexists _, _. split; [reflexivity|]. unfold pairInv. simpl.
  by rewrite length_insert.
Qed.

Lemma read_pair w0 l0 l1 internalName :
  hoare (pairInv w0 l0 l1) (read internalName)
    (λ v w, v = field w0 internalName ∧ pairInv w0 l0 l1 w).
Proof.
  intros w Hw. eexists _, _. split; [reflexivity|]. split; [|done].
  unfold field. by destruct Hw as [-> _].
Qed.

Lemma read_same w0 internalName :
  hoare (λ w, w = w0) (read internalName) (λ v w, v = field w0 internalName ∧ w = w0).
Proof. intros w ->. by eexists _, _. Qed.

(** Whether tiling, offset and rotation are those of the identity. *)
Definition identityTransform (tx ty ox oy r : float) : bool :=
  PrimFloat.eqb tx 1 && PrimFloat.eqb ty 1 && PrimFloat.eqb ox 0 && PrimFloat.eqb oy 0
  && PrimFloat.eqb r 0.

Lemma mapTransform_run w0 name uv channels defChannel vertexColor detailMode
    device scene tid tx ty oid ox oy r :
  DefTex2D name uv channels defChannel vertexColor detailMode ∈ materialPropDefinitions →
  field w0 ("_" +:+ name +:+ "MapTiling") = VObj tid (OVec2 tx ty) →
  field w0 ("_" +:+ name +:+ "MapOffset") = VObj oid (OVec2 ox oy) →
  field w0 ("_" +:+ name +:+ "MapRotation") = VNum r →
  cachedPair w0 (name +:+ "MapTransform")
    ("texture_" +:+ (name +:+ "MapTransform") +:+ "0")
    ("texture_" +:+ (name +:+ "MapTransform") +:+ "1") →
  hoare (λ w, w = w0) (getUniform (name +:+ "MapTransform") device scene)
    (λ u w,
       if identityTransform tx ty ox oy r then u = VNull ∧ w = w0
       else ∃ id l0 l1,
              u = VParams id [("texture_" +:+ (name +:+ "MapTransform") +:+ "0", l0);
                              ("texture_" +:+ (name +:+ "MapTransform") +:+ "1", l1)]
              ∧ pairInv w0 l0 l1 w).
Proof.
  intros Hdef Htiling Hoffset Hrotation Hcache.
  apply registered_In in Hdef. simpl in Hdef.
  repeat (apply andb_prop in Hdef as [Hdef ?]).
  repeat match goal with
         | H : bool_decide _ = true |- _ => apply bool_decide_eq_true in H
         end.
  unfold getUniform.
  match goal with Hu : alist_get _ (_uniforms _) = _ |- _ => rewrite Hu end.
  unfold runUniform.
  erewrite (get_internal (name +:+ "MapTiling")) by (eassumption || reflexivity).
  erewrite (get_internal (name +:+ "MapOffset")) by (eassumption || reflexivity).
  erewrite (get_internal (name +:+ "MapRotation")) by (eassumption || reflexivity).
  eapply hoare_bind; [apply read_same|].
  intros tiling. apply hoare_pure_pre; intros ->. rewrite Htiling.
  eapply hoare_bind; [apply read_same|].
  intros offset. apply hoare_pure_pre; intros ->. rewrite Hoffset.
  eapply hoare_bind; [apply read_same|].
  intros rotation. apply hoare_pure_pre; intros ->. rewrite Hrotation.
  unfold identityTransform.
  repeat (first
    [ cbv beta iota;
      lazymatch goal with
      | |- hoare _ (_allocUniform _ _ ≫= _) _ =>
          eapply hoare_bind; [by apply allocUniform_pair |];
          intros ?; do 3 (apply hoare_exists_pre; intros ?);
          apply hoare_pure_pre; intros ->
      | |- hoare _ (storeF32 _ _ _ ≫= _) _ =>
          eapply hoare_bind; [apply storeF32_pair; auto | intros ?]
      | |- hoare _ (mret _) _ => apply hoare_ret; intros ? ?
      end
    | hoare_pure_step ]).
  all: simpl in *;
    repeat match goal with
           | Hb : PrimFloat.eqb ?a ?b = _ |- context [PrimFloat.eqb ?a ?b] => rewrite Hb
           end;
    simpl; try congruence.
  all: try (subst; done).
  all: eexists _, _, _; split; [reflexivity | assumption].
Qed.

(** What [_setParameter] leaves alone. *)
Definition paramFrame (w w' : state) : Prop :=
  fields w' = fields w ∧ _uniformCache w' = _uniformCache w
  ∧ f32Store w' = f32Store w.

#[local] Instance paramFrame_preorder : PreOrder paramFrame.
Proof.
  split.
  - by intros w.
  - intros w1 w2 w3 (?&?&?) (?&?&?). unfold paramFrame. repeat split; congruence.
Qed.

Lemma preserves__setParameter_paramFrame name value :
  preserves paramFrame (_setParameter name value).
Proof.
  unfold _setParameter.
  repeat preserves_step ltac:(idtac; lazymatch goal with
    | |- preserves _ (modify _) => apply preserves_modify; intros ?; done
    end).
Qed.

Lemma updateMap_identity w name uv channels defChannel vertexColor detailMode
    tid tx ty oid ox oy r map w1 :
  DefTex2D name uv channels defChannel vertexColor detailMode ∈ materialPropDefinitions →
  field w ("_" +:+ name +:+ "MapTiling") = VObj tid (OVec2 tx ty) →
  field w ("_" +:+ name +:+ "MapOffset") = VObj oid (OVec2 ox oy) →
  field w ("_" +:+ name +:+ "MapRotation") = VNum r →
  cachedPair w (name +:+ "MapTransform")
    ("texture_" +:+ (name +:+ "MapTransform") +:+ "0")
    ("texture_" +:+ (name +:+ "MapTransform") +:+ "1") →
  identityTransform tx ty ox oy r = true →
  field w ("_" +:+ name +:+ "Map") = map →
  truthy map = true →
  _setParameter (VStr ("texture_" +:+ name +:+ "Map")) map w = Some (tt, w1) →
  _updateMap name w = Some (tt, w1).
Proof.
  intros Hdef Htiling Hoffset Hrotation Hcache Hid Hmap Htruthy Hset.
  pose proof (registered_In _ Hdef) as Hreg. simpl in Hreg.
  repeat (apply andb_prop in Hreg as [Hreg ?]).
  apply bool_decide_eq_true in Hreg.
  unfold _updateMap. rewrite (get_internal _ _ _ Hreg eq_refl).
  unfold read. unfold mbind at 1, M_bind at 1. cbn [gets].
  rewrite Hmap, Htruthy. erewrite bind_run by exact Hset.
  destruct (preserves__setParameter_paramFrame _ _ _ _ _ Hset) as (Hf & Hc & Hs).
  destruct (mapTransform_run w1 name uv channels defChannel vertexColor detailMode
              VUndefined None tid tx ty oid ox oy r Hdef) with (w := w1)
    as (u & w' & Hrun & Hpost); try done.
  - unfold field. by rewrite Hf.
  - unfold field. by rewrite Hf.
  - unfold field. by rewrite Hf.
  - unfold cachedPair. by rewrite Hc, Hs.
  - rewrite Hid in Hpost. destruct Hpost as [-> ->].
    rewrite append_assoc. change ("Map" +:+ "Transform") with "MapTransform".
    erewrite bind_run by exact Hrun. reflexivity.
Qed.

End MapTransform.

End UniformFacts.

Module DirtyFacts.

(** ** [_dirtyShader] is never cleared by the accessors and the updates *)

Section DirtyMonotone.
Context `{Collaborators}.

(** A set flag stays set. *)
Definition dirtyKept (w w' : state) : Prop :=
  (truthy (_dirtyShader w) = true → truthy (_dirtyShader w') = true)
  ∧ (_dirtyShader w = VBool true → _dirtyShader w' = VBool true).

#[local] Instance dirtyKept_preorder : PreOrder dirtyKept.
Proof.
  split.
  - by intros w.
  - intros w1 w2 w3 [? ?] [? ?]. split; auto.
Qed.

Lemma dirtyKept_same w w' : _dirtyShader w' = _dirtyShader w → dirtyKept w w'.
Proof. intros Heq. unfold dirtyKept. by rewrite Heq. Qed.

Lemma dirtyKept_set w w' : _dirtyShader w' = VBool true → dirtyKept w w'.
Proof. intros Heq. unfold dirtyKept. by rewrite Heq. Qed.

Lemma preserves_markDirty d oldValue value :
  preserves dirtyKept (markDirty d oldValue value).
Proof.
  intros w [] w'. unfold markDirty, mbind, M_bind, gets, modify, lift, mret, M_ret.
  destruct (truthy (_dirtyShader w)) eqn:Hd.
  - intros [= <-]. by apply dirtyKept_same.
  - destruct (applyDirty d oldValue value); simpl; [|done].
    intros [= <-]. split; simpl; [congruence|].
    intros Htrue. rewrite Htrue in Hd. done.
Qed.

(** Steps on which the flag is left alone or set. *)
Ltac dirty_known :=
  idtac;
  lazymatch goal with
  | |- preserves _ (markDirty _ _ _) => apply preserves_markDirty
  | |- preserves _ (modify (setParams ?n _)) =>
      apply preserves_modify; intros ?; apply dirtyKept_same; by destruct n
  | |- preserves _ (modify _) =>
      apply preserves_modify; intros ?;
      first [ by apply dirtyKept_same | by apply dirtyKept_set ]
  end.

Lemma preserves_get_dirty name : preserves dirtyKept (get name).
Proof. repeat preserves_step dirty_known. Qed.

Lemma preserves__setParameter_dirty name value :
  preserves dirtyKept (_setParameter name value).
Proof. repeat preserves_step dirty_known. Qed.

Lemma preserves__processParameters_dirty n :
  preserves dirtyKept (_processParameters n).
Proof. unfold _processParameters. repeat preserves_step dirty_known. Qed.

Ltac dirty_known2 :=
  idtac;
  lazymatch goal with
  | |- preserves _ (get _) => apply preserves_get_dirty
  | |- preserves _ (_setParameter _ _) => apply preserves__setParameter_dirty
  | |- preserves _ (_processParameters _) => apply preserves__processParameters_dirty
  | _ => dirty_known
  end.

Lemma preserves_getUniform_dirty name device scene :
  preserves dirtyKept (getUniform name device scene).
Proof. repeat preserves_step dirty_known2. Qed.

Lemma preserves__updateMap_dirty p : preserves dirtyKept (_updateMap p).
Proof.
  unfold _updateMap.
  repeat preserves_step ltac:(idtac; lazymatch goal with
    | |- preserves _ (getUniform _ _ _) => apply preserves_getUniform_dirty
    | _ => dirty_known2
    end).
Qed.

Ltac dirty_known3 :=
  idtac;
  lazymatch goal with
  | |- preserves _ (getUniform _ _ _) => apply preserves_getUniform_dirty
  | |- preserves _ (_updateMap _) => apply preserves__updateMap_dirty
  | _ => dirty_known2
  end.

Lemma preserves_registerUniforms_dirty device scene :
  preserves dirtyKept (registerUniforms device scene).
Proof. unfold registerUniforms. repeat preserves_step dirty_known3. Qed.



Lemma preserves_updateUniforms_dirty device scene :
  preserves dirtyKept (updateUniforms device scene).
Proof.
  unfold updateUniforms.
  repeat preserves_step ltac:(idtac; lazymatch goal with
    | |- preserves _ (registerUniforms _ _) => apply preserves_registerUniforms_dirty
    | _ => dirty_known3
    end).
Qed.

Lemma preserves_updateEnvUniforms_dirty device scene :
  preserves dirtyKept (updateEnvUniforms device scene).
Proof. unfold updateEnvUniforms. repeat preserves_step dirty_known3. Qed.

Lemma preserves_setDefined_dirty name value :
  preserves dirtyKept (setDefined name value).
Proof. repeat preserves_step dirty_known3. Qed.

Lemma preserves_set_dirty name value : preserves dirtyKept (set name value).
Proof.
  unfold set.
  repeat preserves_step ltac:(idtac; lazymatch goal with
    | |- preserves _ (setDefined _ _) => apply preserves_setDefined_dirty
    | _ => dirty_known3
    end).
Qed.

Lemma preserves_runOp_dirty o :
  isGetShaderVariant o = false → preserves dirtyKept (runOp o).
Proof.
  destruct o; cbn [runOp isGetShaderVariant]; intros Hfetch;
    [idtac .. | discriminate Hfetch].
  all: repeat preserves_step ltac:(idtac; lazymatch goal with
    | |- preserves _ (set _ _) => apply preserves_set_dirty
    | |- preserves _ (updateUniforms _ _) => apply preserves_updateUniforms_dirty
    | |- preserves _ (updateEnvUniforms _ _) => apply preserves_updateEnvUniforms_dirty
    | _ => dirty_known3
    end).
Qed.

Lemma preserves_runOps_dirty ops :
  Forall (λ o, isGetShaderVariant o = false) ops → preserves dirtyKept (runOps ops).
Proof.
  induction 1 as [|o ops Ho Hops IH]; unfold runOps; cbn [forEach].
  - apply preserves_ret. exact _.
  - apply preserves_bind; [exact _ | by apply preserves_runOp_dirty | intros _; apply IH].
Qed.

End DirtyMonotone.

End DirtyFacts.

Import UniformFacts DirtyFacts.

Module IdempotenceFacts.

(** ** Two passes of [registerUniforms] register the same parameters *)

Section Passes.
Context `{Collaborators}.

(** The truthy entries of a uniform cache are kept. *)
Definition cacheKept (c c' : gmap string val) : Prop :=
  ∀ n v, c !! n = Some v → truthy v = true → c' !! n = Some v.

(** What the registering statements leave alone: the properties, which sets
    the material and [_params] hold, the cached uniforms, the arrays
    allocated, every set but [_params], and a flag that is [true]. *)
Definition passFrame (w w' : state) : Prop :=
  fields w' = fields w
  ∧ _params w' = _params w
  ∧ _activeParams w' = _activeParams w
  ∧ cacheKept (_uniformCache w) (_uniformCache w')
  ∧ (length (f32Store w) ≤ length (f32Store w'))%nat
  ∧ length (setStore w') = length (setStore w)
  ∧ (∀ r, r ≠ _params w → setStore w' !! r = setStore w !! r)
  ∧ (_dirtyShader w = VBool true → _dirtyShader w' = VBool true).

#[local] Instance passFrame_preorder : PreOrder passFrame.
Proof.
  split.
  - intros w. unfold passFrame, cacheKept. naive_solver.
  - intros w1 w2 w3 (Hf1 & Hp1 & Ha1 & Hc1 & Hl1 & Hs1 & Hr1 & Hd1)
      (Hf2 & Hp2 & Ha2 & Hc2 & Hl2 & Hs2 & Hr2 & Hd2).
    unfold passFrame. repeat split; try congruence.
    + intros n v Hn Hv. eauto.
    + lia.
    + intros r Hr. rewrite Hr2 by congruence. by apply Hr1.
    + auto.
Qed.

(** The second pass [wb] sees what the first pass [wa] sees. *)
Definition sameView (wa wb : state) : Prop :=
  fields wb = fields wa
  ∧ setStore wb !! _params wb = setStore wa !! _params wa.

(** The second pass starts with whatever the first pass has cached and
    allocated by the end of a step. *)
Definition ahead (wa' wb : state) : Prop :=
  cacheKept (_uniformCache wa') (_uniformCache wb)
  ∧ (length (f32Store wa') ≤ length (f32Store wb))%nat.

(** [repeats c]: a run of [c] keeps the frame, and a second pass in a state
    [ahead] of it returns the same value and keeps the same view. *)
Definition repeats {A} (c : M A) : Prop :=
  preserves passFrame c
  ∧ ∀ wa a wa' wb,
      c wa = Some (a, wa') → sameView wa wb → ahead wa' wb →
      ∃ wb', c wb = Some (a, wb') ∧ sameView wa' wb'.

Lemma ahead_earlier wa1 wa2 wb : passFrame wa1 wa2 → ahead wa2 wb → ahead wa1 wb.
Proof.
  intros (_ & _ & _ & Hc & Hl & _) [Hc2 Hl2]. split.
  - intros n v Hn Hv. eauto.
  - lia.
Qed.

Lemma ahead_later wa wb wb1 : ahead wa wb → passFrame wb wb1 → ahead wa wb1.
Proof.
  intros [Hc Hl] (_ & _ & _ & Hc2 & Hl2 & _). split.
  - intros n v Hn Hv. eauto.
  - lia.
Qed.

Lemma repeats_ret {A} (a : A) : repeats (mret a).
Proof.
  split; [apply preserves_ret; exact _|].
  intros wa a' wa' wb [= <- <-] Hs _. by exists wb.
Qed.

Lemma repeats_lift {A} (o : option A) : repeats (lift o).
Proof.
  split; [apply preserves_lift; exact _|].
  intros wa a wa' wb [-> ->]%lift_Some Hs _. by exists wb.
Qed.

Lemma repeats_throw {A} : repeats (throw (A := A)).
Proof. split; [apply preserves_throw|]. by intros wa a wa' wb. Qed.

Lemma repeats_bind {A B} (c : M A) (f : A → M B) :
  repeats c → (∀ a, repeats (f a)) → repeats (c ≫= f).
Proof.
  intros [Hc1 Hc2] Hf. split.
  - apply preserves_bind; [exact _ | done | intros a; apply Hf].
  - intros wa b wa2 wb (a & wa1 & Hrun1 & Hrun2)%bind_Some Hs Ha.
    destruct (Hf a) as [Hf1 Hf2].
    destruct (Hc2 wa a wa1 wb Hrun1 Hs) as (wb1 & Hrunb1 & Hs1).
    { eapply ahead_earlier; [by eapply Hf1 | done]. }
    destruct (Hf2 wa1 b wa2 wb1 Hrun2 Hs1) as (wb2 & Hrunb2 & Hs2).
    { eapply ahead_later; [done | by eapply Hc1]. }
    exists wb2. split; [|done]. by rewrite (bind_run _ _ _ _ _ Hrunb1).
Qed.

Lemma repeats_forEach {A} (l : list A) (f : A → M unit) :
  (∀ x, repeats (f x)) → repeats (forEach l f).
Proof.
  intros Hf. induction l as [|x l IH]; simpl.
  - apply repeats_ret.
  - apply repeats_bind; [apply Hf | intros _; apply IH].
Qed.

Lemma repeats_read k : repeats (read k).
Proof.
  split; [apply preserves_gets; exact _|].
  intros wa a wa' wb [= <- <-] [Hf Hs] _. exists wb. split; [|done].
  unfold read, gets, field. by rewrite Hf.
Qed.

Lemma repeats_setDirty : repeats (modify (set__dirtyShader (VBool true))).
Proof.
  split.
  - apply preserves_modify. intros w. unfold passFrame, cacheKept. simpl. naive_solver.
  - intros wa [] wa' wb [= <-] Hs _. by eexists.
Qed.

Lemma repeats_storeF32 array i x : repeats (storeF32 array i x).
Proof.
  split.
  - unfold storeF32. destruct array; try apply preserves_throw.
    repeat preserves_step ltac:(idtac; lazymatch goal with
      | |- preserves _ (modify _) =>
          apply preserves_modify; intros w; unfold passFrame, cacheKept; simpl;
          rewrite length_insert; naive_solver
      end).
  - intros wa [] wa' wb Hrun Hs [Hc Hl].
    unfold storeF32 in *. destruct array as [| | | | | |l| |]; try done.
    apply bind_Some in Hrun as (n & w1 & [Hn ->]%lift_Some & Hrun).
    apply bind_Some in Hrun as (arr & w1 & Hrun1 & Hrun).
    unfold f32Elements in Hrun1. destruct (f32Store wa !! l) as [arr'|] eqn:Harr; [|done].
    injection Hrun1 as <- <-. injection Hrun as <-. simpl in Hl.
    rewrite length_insert in Hl.
    assert (is_Some (f32Store wb !! l)) as [arrb Harrb].
    { apply lookup_lt_is_Some. apply lookup_lt_Some in Harr. lia. }
    eexists. split.
    + unfold mbind, M_bind, lift, f32Elements, modify. rewrite Hn. simpl.
      rewrite Harrb. simpl. reflexivity.
    + done.
Qed.

(** An allocation function: it only allocates and gives an object. *)
Definition allocates (alloc : M val) : Prop :=
  ∀ w u w', alloc w = Some (u, w') →
    truthy u = true
    ∧ fields w' = fields w ∧ _params w' = _params w ∧ _activeParams w' = _activeParams w
    ∧ _uniformCache w' = _uniformCache w ∧ setStore w' = setStore w
    ∧ _dirtyShader w' = _dirtyShader w
    ∧ (length (f32Store w) ≤ length (f32Store w'))%nat.

Lemma allocates_newFloat32Array3 : allocates newFloat32Array3.
Proof.
  intros w u w' [= <- <-]. simpl. rewrite length_app. repeat split; try done. lia.
Qed.

Lemma allocates_newUniformPair n0 n1 : allocates (newUniformPair n0 n1).
Proof.
  intros w u w' [= <- <-]. simpl. rewrite !length_app. repeat split; try done. lia.
Qed.

Lemma repeats__allocUniform name alloc :
  allocates alloc → repeats (_allocUniform name alloc).
Proof.
  intros Halloc. unfold _allocUniform. split.
  - intros w u w' Hrun.
    apply bind_Some in Hrun as (cached & w1 & [= <- <-] & Hrun).
    destruct (truthy (default VUndefined (_uniformCache w !! name))) eqn:Hcached; simpl in Hrun.
    + injection Hrun as <- <-. reflexivity.
    + apply bind_Some in Hrun as (v & w1 & Hrun1 & Hrun).
      injection Hrun as <- <-.
      destruct (Halloc _ _ _ Hrun1) as (Hv & Hf & Hp & Ha & Hc & Hs & Hd & Hl).
      unfold passFrame. simpl. rewrite Hf, Hp, Ha, Hs, Hd, Hc.
      repeat split; try done.
      intros n v' Hn Hv'. destruct (decide (name = n)) as [<- | Hne].
      * rewrite Hn in Hcached. simpl in Hcached. congruence.
      * by rewrite lookup_insert_ne.
  - intros wa u wa' wb Hrun [Hf Hs] [Hc Hl].
    apply bind_Some in Hrun as (cached & w1 & [= <- <-] & Hrun).
    assert (truthy u = true ∧ _uniformCache wa' !! name = Some u
            ∧ fields wa' = fields wa ∧ _params wa' = _params wa
            ∧ setStore wa' = setStore wa) as (Hu & Hcache & Hf' & Hp' & Hs').
    { destruct (truthy (default VUndefined (_uniformCache wa !! name))) eqn:Hcached;
        simpl in Hrun.
      - injection Hrun as <- <-. repeat split; try done.
        destruct (_uniformCache wa !! name); [done | discriminate].
      - apply bind_Some in Hrun as (v & w1 & Hrun1 & Hrun).
        injection Hrun as <- <-.
        destruct (Halloc _ _ _ Hrun1) as (Hv & Hf1 & Hp1 & Ha1 & Hc1 & Hs1 & Hd1 & Hl1).
        simpl. by rewrite lookup_insert_eq. }
    exists wb. split.
    + unfold mbind, M_bind, gets. rewrite (Hc _ _ Hcache Hu). simpl. by rewrite Hu.
    + unfold sameView. by rewrite Hf', Hp', Hs'.
Qed.

Lemma setParameter_Some name value w w' :
  _setParameter name value w = Some (tt, w') →
  ∃ k s, key_of name = Some k ∧ setStore w !! _params w = Some s
    ∧ w' = set_parameters (setParameter name value (parameters w))
             (set_setStore (<[_params w := set_add k s]> (setStore w)) w).
Proof.
  unfold _setParameter. intros Hrun.
  apply bind_Some in Hrun as (k & w1 & [Hk ->]%lift_Some & Hrun).
  apply bind_Some in Hrun as (g & w1 & [= <- <-] & Hrun).
  apply bind_Some in Hrun as (s & w1 & Hs & Hrun).
  unfold setElements in Hs. destruct (setStore w !! _params w) as [s'|] eqn:Hs'; [|done].
  injection Hs as <- <-. injection Hrun as <-. by exists k, s'.
Qed.

Lemma repeats__setParameter name value : repeats (_setParameter name value).
Proof.
  split.
  - intros w [] w' (k & s & Hk & Hs & ->)%setParameter_Some.
    unfold passFrame, cacheKept. simpl. rewrite length_insert.
    repeat split; try done.
    intros r Hr. by rewrite list_lookup_insert_ne.
  - intros wa [] wa' wb (k & s & Hk & Hs & ->)%setParameter_Some [Hf Hv] _.
    rewrite Hs in Hv. eexists. split.
    + unfold _setParameter, mbind, M_bind, lift, gets, modify. rewrite Hk. simpl.
      rewrite (setElements_run _ _ _ Hv). reflexivity.
    + unfold sameView. simpl. split; [done|].
      rewrite !list_lookup_insert_eq; [done | by eapply lookup_lt_Some..].
Qed.

(** One step of the decomposition of a registering statement. *)
Ltac repeats_step :=
  lazymatch goal with
  | |- repeats (mret _) => apply repeats_ret
  | |- repeats (lift _) => apply repeats_lift
  | |- repeats throw => apply repeats_throw
  | |- repeats (read _) => apply repeats_read
  | |- repeats (modify (set__dirtyShader (VBool true))) => apply repeats_setDirty
  | |- repeats (storeF32 _ _ _) => apply repeats_storeF32
  | |- repeats (_setParameter _ _) => apply repeats__setParameter
  | |- repeats (_allocUniform _ newFloat32Array3) =>
      apply repeats__allocUniform, allocates_newFloat32Array3
  | |- repeats (_allocUniform _ (newUniformPair _ _)) =>
      apply repeats__allocUniform, allocates_newUniformPair
  | |- repeats (_ ≫= _) => apply repeats_bind; [| intros ?]
  | |- repeats (forEach _ _) => apply repeats_forEach; intros ?
  | |- repeats (if ?b then _ else _) => destruct b
  | |- repeats (match ?x with _ => _ end) => destruct x
  | |- repeats ?c => let h := head_of c in progress (unfold h)
  end.

Lemma repeats_get name : repeats (get name).
Proof. repeat repeats_step. Qed.

Lemma repeats_getUniform name device scene : repeats (getUniform name device scene).
Proof.
  unfold getUniform, runUniform.
  repeat (lazymatch goal with
          | |- repeats (get _) => apply repeats_get
          | _ => repeats_step
          end).
Qed.

Lemma repeats__updateMap p : repeats (_updateMap p).
Proof.
  unfold _updateMap.
  repeat (lazymatch goal with
          | |- repeats (get _) => apply repeats_get
          | |- repeats (getUniform _ _ _) => apply repeats_getUniform
          | _ => repeats_step
          end).
Qed.

Lemma repeats_registerUniforms device scene : repeats (registerUniforms device scene).
Proof.
  unfold registerUniforms.
  repeat (lazymatch goal with
          | |- repeats (get _) => apply repeats_get
          | |- repeats (getUniform _ _ _) => apply repeats_getUniform
          | |- repeats (_updateMap _) => apply repeats__updateMap
          | _ => repeats_step
          end).
Qed.

(** The end of [updateUniforms], after [_processParameters]. *)
Lemma clearVariants_run w :
  ∃ w', ifM (gets _dirtyShader) (emit EvClearVariants) w = Some (tt, w')
    ∧ fields w' = fields w ∧ _params w' = _params w ∧ _activeParams w' = _activeParams w
    ∧ setStore w' = setStore w ∧ _uniformCache w' = _uniformCache w
    ∧ f32Store w' = f32Store w ∧ _dirtyShader w' = _dirtyShader w.
Proof.
  unfold ifM, emit, mbind, M_bind, gets, modify. simpl.
  destruct (truthy (_dirtyShader w)); eexists; (split; [reflexivity|]); done.
Qed.

(** The parts of a run of [updateUniforms]. *)
Lemma updateUniforms_Some device scene w w1 :
  is_Some (setStore w !! _params w) →
  updateUniforms device scene w = Some (tt, w1) →
  ∃ wa prev cur,
    registerUniforms device scene w = Some (tt, wa)
    ∧ passFrame w wa
    ∧ setStore wa !! _activeParams wa = Some prev
    ∧ setStore wa !! _params wa = Some cur
    ∧ ifM (gets _dirtyShader) (emit EvClearVariants)
        (processed ActiveParams prev cur wa) = Some (tt, w1).
Proof.
  unfold updateUniforms. intros Hvalid Hrun.
  apply bind_Some in Hrun as ([] & wa & Hreg & Hrun).
  apply bind_Some in Hrun as ([] & w' & Hproc & Hrun).
  pose proof (proj1 (repeats_registerUniforms device scene) _ _ _ Hreg) as Hframe.
  assert (is_Some (setStore wa !! _params wa)) as [cur Hcur].
  { destruct Hframe as (_ & Hp & _ & _ & _ & Hlen & _).
    rewrite Hp. apply lookup_lt_is_Some. rewrite Hlen. by apply lookup_lt_is_Some. }
  assert (is_Some (setStore wa !! _activeParams wa)) as [prev Hprev].
  { revert Hproc. unfold _processParameters.
    intros (p & w2 & [= <- <-] & Hproc)%bind_Some.
    apply bind_Some in Hproc as (elems & w2 & Helems & _).
    unfold setElements in Helems. simpl in Helems.
    destruct (setStore wa !! _activeParams wa); [by eexists | done]. }
  rewrite (processParameters_run ActiveParams wa prev cur Hprev Hcur) in Hproc.
  injection Hproc as <-. by exists wa, prev, cur.
Qed.


End Passes.



End IdempotenceFacts.

Import IdempotenceFacts.

Module MaterialClaims.

(** Run a sequence of operations on a new material, for the examples. *)
Definition after (ops : list op) : state :=
  match runOps (H := demo) (H0 := demoTables) ops demoMaterial with
  | Some (_, w) => w
  | None => demoMaterial
  end.

(** What [_processParameters] cleans up: for a member [P] of the set left by
    the previous pass that was not registered in [_params] during this pass,
    the entry under the string form of [P] (for a name, the name itself) is
    not in the [parameters] table afterwards; the material's set and [_params]
    have exchanged their [Set] objects, none was allocated, the new [_params]
    is empty and the material's set holds what this pass registered. *)
Theorem parameter_cleanup `{Collaborators} (n : paramsName) (w : state)
    (prev cur : list pkey) (P : pkey) :
  setStore w !! getParams n w = Some prev →
  setStore w !! _params w = Some cur →
  P ∈ prev → P ∉ cur →
  ∃ w', _processParameters n w = Some (tt, w')
    ∧ parameters w' !! key_string P = None
    ∧ getParams n w' = _params w
    ∧ _params w' = getParams n w
    ∧ length (setStore w') = length (setStore w)
    ∧ setStore w' !! _params w' = Some []
    ∧ (getParams n w ≠ _params w → setStore w' !! getParams n w' = Some cur).
Proof.
  intros Hprev Hcur HP HnP. exists (processed n prev cur w).
  split; [by apply processParameters_run|].
  apply lookup_lt_Some in Hprev as Hlt.
  unfold processed. destruct n; simpl in *.
  all: repeat split;
    [ by apply cleanup_removes
    | by rewrite length_insert
    | by apply list_lookup_insert_eq
    | intros Hne; by rewrite list_lookup_insert_ne ].
Qed.

(** A material with clear coat is updated, clear coat is switched off, and the
    next pass has registered its parameters. *)
Definition cleanupState : state :=
  match registerUniforms (H := demo) (H0 := demoTables) VNull demoScene
          (after [OpSet "clearCoat" (VNum 0.5);
                  OpUpdateUniforms VNull demoScene;
                  OpSet "clearCoat" (VNum 0)]) with
  | Some (_, w) => w
  | None => demoMaterial
  end.

Lemma parameter_cleanup_witness :
  is_Some (parameters cleanupState !! "material_clearCoat")
  ∧ ∃ w', _processParameters ActiveParams cleanupState = Some (tt, w')
    ∧ parameters w' !! "material_clearCoat" = None.
Proof.
  split; [by vm_compute; eexists|].
  destruct (parameter_cleanup (H := demo) ActiveParams cleanupState
              [KName "material_ambient"; KName "material_diffuse";
               KName "material_specular"; KName "material_clearCoat";
               KName "material_clearCoatGlossiness";
               KName "material_clearCoatReflectivity";
               KName "material_clearCoatBumpiness"; KName "material_shininess";
               KName "material_emissive"; KName "material_opacity";
               KName "material_occludeSpecularIntensity";
               KName "material_reflectivity"]
              [KName "material_ambient"; KName "material_diffuse";
               KName "material_specular"; KName "material_shininess";
               KName "material_emissive"; KName "material_opacity";
               KName "material_occludeSpecularIntensity";
               KName "material_reflectivity"]
              (KName "material_clearCoat"))
    as (w' & Hrun & Hgone & _).
  - vm_compute. reflexivity.
  - vm_compute. reflexivity.
  - refine (bool_decide_unpack _ _). vm_compute. exact I.
  - refine (bool_decide_unpack _ _). vm_compute. exact I.
  - exists w'. split; [exact Hrun | exact Hgone].
Defined.

(** The colour properties are the six of the claim. *)
Lemma color_properties `{Collaborators} :
  omap (λ d, match d with DefColor name _ => Some name | _ => None end)
    materialPropDefinitions
  = ["ambient"; "diffuse"; "specular"; "emissive"; "sheen"; "attenuation"].
Proof. reflexivity. Qed.

(** C7: reading a colour property (one defined by [_defineColor]) returns the
    stored colour and leaves [_dirtyShader] set to [true], whatever the caller
    does with the colour afterwards. *)
Theorem color_getter_marks_dirty `{Collaborators} (name : string) (defaultValue : val)
    (w : state) :
  DefColor name defaultValue ∈ materialPropDefinitions →
  ∃ w', get name w = Some (field w ("_" +:+ name), w')
    ∧ _dirtyShader w' = VBool true
    ∧ w' = set__dirtyShader (VBool true) w.
Proof.
  intros Hdef. apply registered_In in Hdef. simpl in Hdef.
  apply andb_prop in Hdef as [Hacc%bool_decide_eq_true _].
  rewrite (get_accessor _ _ Hacc). cbn [acc_get]. rewrite runGetter_color. eauto.
Qed.

Lemma color_getter_marks_dirty_witness :
  let w := after [OpGetShaderVariant VNull demoScene VNull VNull (VNum 0) VNull VNull VNull] in
  _dirtyShader w = VBool false
  ∧ ∃ w', get (H0 := demoTables) "diffuse" w = Some (field w "_diffuse", w')
          ∧ _dirtyShader w' = VBool true.
Proof.
  intros w. split; [vm_compute; reflexivity|].
  destruct (color_getter_marks_dirty (H := demo) "diffuse" (Color 1 1 1) w)
    as (w' & Hget & Hdirty & _).
  - apply list_elem_of_lookup. exists 1%nat. reflexivity.
  - exists w'. split; [exact Hget | exact Hdirty].
Defined.

(** C9: for a property defined by [_defineFloat], assigning a value that
    differs from the stored one stores it and computes
    [_dirtyShader || (old in {0, 1}) !== (new in {0, 1})]: starting from
    [false] the flag becomes [true] exactly when one of the two values, and
    not the other, is 0 or 1; between two values outside {0, 1} the flag keeps
    its truth value. *)
Theorem float_setter_dirty `{Collaborators} (name : string) (defaultValue : float)
    (getUniformFunc : option uniformFn) (w : state) (value : val) :
  DefFloat name defaultValue getUniformFunc ∈ materialPropDefinitions →
  strict_eq (field w ("_" +:+ name)) value = false →
  let old := field w ("_" +:+ name) in
  ∃ w', set name value w = Some (tt, w')
    ∧ field w' ("_" +:+ name) = value
    ∧ _dirtyShader w' = js_or (_dirtyShader w) (VBool (xorb (in01 old) (in01 value)))
    ∧ (_dirtyShader w = VBool false →
       (_dirtyShader w' = VBool true ↔ xorb (in01 old) (in01 value) = true))
    ∧ (in01 old = false → in01 value = false →
       truthy (_dirtyShader w') = truthy (_dirtyShader w)).
Proof.
  intros Hdef Hne old. apply registered_In in Hdef. simpl in Hdef.
  apply bool_decide_eq_true in Hdef.
  rewrite (set_value_accessor name _ _ DirtyFloat value Hdef eq_refl).
  rewrite (setValue_changed _ DirtyFloat _ (VBool (xorb (in01 old) (in01 value))) _ Hne eq_refl).
  eexists. split; [reflexivity|].
  split; [apply field_write|]. split; [reflexivity|]. split.
  - cbn [_dirtyShader set_fields set__dirtyShader]. intros ->. cbn [js_or truthy].
    split; [by intros [= ->] | by intros ->].
  - cbn [_dirtyShader set_fields set__dirtyShader]. intros -> ->. unfold js_or.
    by destruct (truthy (_dirtyShader w)) eqn:E.
Qed.

Lemma float_setter_dirty_witness :
  let w := after [OpGetShaderVariant VNull demoScene VNull VNull (VNum 0) VNull VNull VNull] in
  (∃ w', set (H := demo) (H0 := demoTables) "opacity" (VNum 0.5) w = Some (tt, w')
         ∧ _dirtyShader w' = VBool true
         ∧ ∃ w'', set (H := demo) (H0 := demoTables) "opacity" (VNum 0.25) (set__dirtyShader (VBool false) w')
                  = Some (tt, w'')
                ∧ _dirtyShader w'' = VBool false).
Proof.
  intros w.
  destruct (float_setter_dirty (H := demo) "opacity" 1 None w (VNum 0.5))
    as (w' & Hset & Hfield & Hdirty & _).
  - apply list_elem_of_lookup. exists 11%nat. reflexivity.
  - vm_compute. reflexivity.
  - exists w'. split; [exact Hset|]. split; [rewrite Hdirty; vm_compute; reflexivity|].
    destruct (float_setter_dirty (H := demo) "opacity" 1 None
                (set__dirtyShader (VBool false) w') (VNum 0.25))
      as (w'' & Hset' & _ & Hdirty' & _).
    + apply list_elem_of_lookup. exists 11%nat. reflexivity.
    + unfold field in *. simpl. unfold field in Hfield. rewrite Hfield. vm_compute. reflexivity.
    + exists w''. split; [exact Hset'|]. rewrite Hdirty'. unfold field in *. simpl.
      rewrite Hfield. vm_compute. reflexivity.
Defined.

(** C2: for a property defined by [defineValueProp]: assigning a value
    strictly equal to the stored one changes nothing, so [_dirtyShader] is not
    set; assigning a different value for which the property's predicate
    returns [true] stores it and leaves [_dirtyShader] set ([true], unless the
    flag held another truthy value, which it keeps); and [getShaderVariant]
    returns with [_dirtyShader] equal to [false]. *)
Theorem dirty_tracking `{Collaborators} (name internalName : string) (acc : accessor)
    (d : dirtyFn) (w : state) (value : val) (device : val) (scene : Scene)
    (objDefs staticLightList pass sortedLights viewUniformFormat viewBindGroupFormat : val) :
  alist_get name (accessors moduleTables) = Some acc →
  acc_set acc = SetValue internalName d →
  validSets w →
  (strict_eq (field w internalName) value = true → set name value w = Some (tt, w))
  ∧ (strict_eq (field w internalName) value = false →
     applyDirty d (field w internalName) value = Some (VBool true) →
     ∃ w', set name value w = Some (tt, w')
       ∧ field w' internalName = value
       ∧ truthy (_dirtyShader w') = true
       ∧ (truthy (_dirtyShader w) = false → _dirtyShader w' = VBool true))
  ∧ (∃ shader w',
       getShaderVariant device scene objDefs staticLightList pass sortedLights
         viewUniformFormat viewBindGroupFormat w = Some (shader, w')
       ∧ _dirtyShader w' = VBool false).
Proof.
  intros Hacc Hset Hvalid. rewrite (set_value_accessor _ _ _ _ value Hacc Hset).
  split; [|split].
  - apply setValue_same.
  - intros Hne Hd. rewrite (setValue_changed _ _ _ _ _ Hne Hd).
    eexists. split; [reflexivity|]. split; [apply field_write|].
    cbn [_dirtyShader set_fields set__dirtyShader]. split.
    + apply truthy_js_or_true.
    + unfold js_or. by intros ->.
  - destruct (total_updateEnvUniforms device scene w Hvalid) as ([] & w1 & Henv & _).
    pose proof (getShaderVariant_run device scene objDefs staticLightList pass
                  sortedLights viewUniformFormat viewBindGroupFormat w w1 Henv) as Hrun.
    destruct (builtOptions _ _ _ _ _ _) as [minimal built].
    destruct Hrun as (w' & Hrun & Hdirty & _). eauto.
Qed.

Lemma dirty_tracking_witness :
  let w := after [OpGetShaderVariant VNull demoScene VNull VNull (VNum 0) VNull VNull VNull] in
  _dirtyShader w = VBool false
  ∧ set (H := demo) (H0 := demoTables) "useFog" (VBool true) w = Some (tt, w)
  ∧ (∃ w', set (H := demo) (H0 := demoTables) "useFog" (VBool false) w = Some (tt, w')
           ∧ _dirtyShader w' = VBool true)
  ∧ (_dirtyShader demoMaterial = VBool true
     ∧ ∃ shader w'',
         getShaderVariant (H := demo) (H0 := demoTables)
           VNull demoScene VNull VNull (VNum 0) VNull VNull VNull demoMaterial
         = Some (shader, w'') ∧ _dirtyShader w'' = VBool false).
Proof.
  intros w.
  destruct (dirty_tracking (H := demo) "useFog" "_useFog"
              (valueAccessor "useFog" DirtyAlways) DirtyAlways w (VBool true)
              VNull demoScene VNull VNull (VNum 0) VNull VNull VNull)
    as (Hsame & _ & _); [vm_compute; reflexivity | reflexivity | |].
  { vm_compute. repeat split; eexists; reflexivity. }
  destruct (dirty_tracking (H := demo) "useFog" "_useFog"
              (valueAccessor "useFog" DirtyAlways) DirtyAlways w (VBool false)
              VNull demoScene VNull VNull (VNum 0) VNull VNull VNull)
    as (_ & Hdiff & _); [vm_compute; reflexivity | reflexivity | |].
  { vm_compute. repeat split; eexists; reflexivity. }
  destruct (dirty_tracking (H := demo) "useFog" "_useFog"
              (valueAccessor "useFog" DirtyAlways) DirtyAlways demoMaterial (VBool false)
              VNull demoScene VNull VNull (VNum 0) VNull VNull VNull)
    as (_ & _ & Hfetch); [vm_compute; reflexivity | reflexivity | |].
  { vm_compute. repeat split; eexists; reflexivity. }
  split; [vm_compute; reflexivity|].
  split; [apply Hsame; vm_compute; reflexivity|].
  split.
  - destruct Hdiff as (w' & Hset & _ & _ & Hdirty);
      [vm_compute; reflexivity | reflexivity |].
    exists w'. split; [exact Hset|]. apply Hdirty. vm_compute. reflexivity.
  - split; [vm_compute; reflexivity | exact Hfetch].
Defined.

(** C8: when [onUpdateShader] is set, a call of [getShaderVariant] makes the
    calls: the options builder ([updateMinRef] for the depth, pick and shadow
    passes, [updateRef] otherwise), then once the hook on the options the
    builder left, then [register] and [getProgram] on the options the hook
    returned; the program is the one [getProgram] gives for them. *)
Theorem hook_after_builder `{Collaborators} (w : state) (callback : Options → Options)
    (device : val) (scene : Scene)
    (objDefs staticLightList pass sortedLights viewUniformFormat viewBindGroupFormat : val) :
  validSets w →
  onUpdateShader w = Some callback →
  ∃ w1 w' minimal built,
    updateEnvUniforms device scene w = Some (tt, w1)
    ∧ builtOptions scene objDefs staticLightList pass sortedLights w1 = (minimal, built)
    ∧ getShaderVariant device scene objDefs staticLightList pass sortedLights
        viewUniformFormat viewBindGroupFormat w
      = Some (getProgram "standard" (callback built)
                (viewUniformFormat, viewBindGroupFormat), w')
    ∧ trace w' = trace w ++
        [EvUpdateRef minimal built;
         EvOnUpdateShader built (callback built);
         EvRegister "standard";
         EvGetProgram "standard" (callback built) (viewUniformFormat, viewBindGroupFormat)].
Proof.
  intros Hvalid Hhook.
  destruct (total_updateEnvUniforms device scene w Hvalid) as ([] & w1 & Henv & _).
  destruct (preserves_updateEnvUniforms_envFrame device scene w tt w1 Henv)
    as (Hhook1 & Htrace1 & _).
  pose proof (getShaderVariant_run device scene objDefs staticLightList pass
                sortedLights viewUniformFormat viewBindGroupFormat w w1 Henv) as Hrun.
  destruct (builtOptions _ _ _ _ _ _) as [minimal built] eqn:Hbuilt.
  rewrite Hhook1, Hhook, Htrace1 in Hrun.
  destruct Hrun as (w' & Hrun & _ & Htrace).
  exists w1, w', minimal, built. repeat split; done.
Qed.

Lemma hook_after_builder_witness :
  let hook : Options → Options := λ options, <["useFog" := VBool false]> options in
  let w := mkState (fields demoMaterial) (_dirtyShader demoMaterial) (_chunks demoMaterial)
             (_activeParams demoMaterial) (_activeLightingParams demoMaterial)
             (_uniformCache demoMaterial) (parameters demoMaterial) (Some hook)
             (_params demoMaterial) (setStore demoMaterial) (f32Store demoMaterial)
             (nextId demoMaterial) (optionsContext demoMaterial)
             (optionsContextMin demoMaterial) (trace demoMaterial) in
  ∃ w1 w' minimal built,
    builtOptions (H := demo) demoScene VNull VNull (VNum 2) VNull w1 = (minimal, built)
    ∧ getShaderVariant (H := demo) (H0 := demoTables)
        VNull demoScene VNull VNull (VNum 2) VNull VNull VNull w
      = Some (getProgram (Collaborators := demo) "standard" (hook built) (VNull, VNull), w')
    ∧ trace w' =
        [EvUpdateRef minimal built;
         EvOnUpdateShader built (hook built);
         EvRegister "standard";
         EvGetProgram "standard" (hook built) (VNull, VNull)].
Proof.
  intros hook w.
  destruct (hook_after_builder (H := demo) w hook VNull demoScene VNull VNull (VNum 2)
              VNull VNull VNull)
    as (w1 & w' & minimal & built & Henv & Hbuilt & Hrun & Htrace).
  - vm_compute. repeat split; eexists; reflexivity.
  - reflexivity.
  - exists w1, w', minimal, built. split; [exact Hbuilt|]. split; [exact Hrun | exact Htrace].
Defined.

(** C5: for a texture slot defined by [_defineTex2D], with tiling [(tx, ty)],
    offset [(ox, oy)] and rotation [r], the uniform function of
    [<name>MapTransform] returns: [null], leaving the material as it was,
    exactly when [tx === 1], [ty === 1], [ox === 0], [oy === 0] and [r === 0];
    otherwise the pair of parameters [texture_<name>MapTransform0] and
    [texture_<name>MapTransform1].  In the first case [_updateMap] on a bound
    map does what its [_setParameter] of the sampler does, and registers
    nothing else. *)
Theorem identity_transform_elision `{Collaborators} (name : string) (uv : float)
    (channels : Z) (defChannel : string) (vertexColor detailMode : bool)
    (w : state) (device : val) (scene : option Scene)
    (tid oid : nat) (tx ty ox oy r : float) :
  DefTex2D name uv channels defChannel vertexColor detailMode ∈ materialPropDefinitions →
  field w ("_" +:+ name +:+ "MapTiling") = VObj tid (OVec2 tx ty) →
  field w ("_" +:+ name +:+ "MapOffset") = VObj oid (OVec2 ox oy) →
  field w ("_" +:+ name +:+ "MapRotation") = VNum r →
  cachedPair w (name +:+ "MapTransform")
    ("texture_" +:+ (name +:+ "MapTransform") +:+ "0")
    ("texture_" +:+ (name +:+ "MapTransform") +:+ "1") →
  ∃ u w',
    getUniform (name +:+ "MapTransform") device scene w = Some (u, w')
    ∧ (u = VNull ↔ identityTransform tx ty ox oy r = true)
    ∧ (identityTransform tx ty ox oy r = true → w' = w)
    ∧ (identityTransform tx ty ox oy r = false →
       ∃ id l0 l1,
         u = VParams id [("texture_" +:+ (name +:+ "MapTransform") +:+ "0", l0);
                         ("texture_" +:+ (name +:+ "MapTransform") +:+ "1", l1)])
    ∧ (identityTransform tx ty ox oy r = true →
       ∀ map w1,
         field w ("_" +:+ name +:+ "Map") = map → truthy map = true →
         _setParameter (VStr ("texture_" +:+ name +:+ "Map")) map w = Some (tt, w1) →
         _updateMap name w = Some (tt, w1)).
Proof.
  intros Hdef Htiling Hoffset Hrotation Hcache.
  destruct (mapTransform_run w name uv channels defChannel vertexColor detailMode
              device scene tid tx ty oid ox oy r Hdef Htiling Hoffset Hrotation Hcache
              w eq_refl) as (u & w' & Hrun & Hpost).
  exists u, w'. split; [exact Hrun|].
  destruct (identityTransform tx ty ox oy r) eqn:Hid.
  - destruct Hpost as [-> ->]. repeat split; try done.
    intros _ map w1 Hmap Htruthy Hset.
    by eapply updateMap_identity.
  - destruct Hpost as (id & l0 & l1 & -> & _). repeat split; try done.
    intros _. by exists id, l0, l1.
Qed.

Lemma diffuse_slot_defined :
  DefTex2D "diffuse" 0 3 "" true false ∈ materialPropDefinitions (H := demo).
Proof. apply list_elem_of_lookup. exists 65%nat. reflexivity. Qed.

Lemma identity_transform_elision_witness :
  let w := after [OpSet "diffuseMapTiling" (Vec2 2 1)] in
  (∃ w', getUniform (H := demo) (H0 := demoTables) "diffuseMapTransform" VUndefined None
           demoMaterial = Some (VNull, w'))
  ∧ (∃ id l0 l1 w',
       getUniform (H := demo) (H0 := demoTables) "diffuseMapTransform" VUndefined None w
       = Some (VParams id [("texture_diffuseMapTransform0", l0);
                           ("texture_diffuseMapTransform1", l1)], w')).
Proof.
  intros w. split.
  - destruct (identity_transform_elision (H := demo) "diffuse" 0 3 "" true false
                 demoMaterial VUndefined None 7 8 1 1 0 0 0)
      as (u & w' & Hrun & Hnull & _).
    + exact diffuse_slot_defined.
    + vm_compute. reflexivity.
    + vm_compute. reflexivity.
    + vm_compute. reflexivity.
    + left. vm_compute. reflexivity.
    + assert (u = VNull) as -> by (apply Hnull; vm_compute; reflexivity).
      exists w'. exact Hrun.
  - destruct (identity_transform_elision (H := demo) "diffuse" 0 3 "" true false
                 w VUndefined None 7 8 2 1 0 0 0)
      as (u & w' & Hrun & _ & _ & Hpair & _).
    + exact diffuse_slot_defined.
    + vm_compute. reflexivity.
    + vm_compute. reflexivity.
    + vm_compute. reflexivity.
    + left. vm_compute. reflexivity.
    + destruct Hpair as (id & l0 & l1 & ->); [vm_compute; reflexivity|].
      exists id, l0, l1, w'. exact Hrun.
Defined.

(** C10: for a colour property holding [(r, g, b)], [getUniform] returns a
    [Float32Array] that holds [pow(r, 2.2)], [pow(g, 2.2)], [pow(b, 2.2)] when
    [material.useGammaTonemap && scene.gammaCorrection] is truthy and [r], [g],
    [b] otherwise, each as the array stores it; the array is cached under the
    property's name, a cached array is the one returned, without allocating,
    and so is the array of a second call. *)
Theorem color_uniform_value `{Collaborators} (name : string) (defaultValue : val)
    (w : state) (device : val) (scene : Scene) (cid : nat) (r g b a : float) :
  DefColor name defaultValue ∈ materialPropDefinitions →
  field w ("_" +:+ name) = VObj cid (OColor r g b a) →
  cachedF32 w name →
  let gamma := truthy (field w "_useGammaTonemap") && truthy (gammaCorrection scene) in
  ∃ l w1 w2,
    getUniform name device (Some scene) w = Some (VF32 l, w1)
    ∧ f32Store w1 !! l
      = Some (if gamma
              then [fround (Math_pow r 2.2); fround (Math_pow g 2.2);
                    fround (Math_pow b 2.2)]
              else [fround r; fround g; fround b])
    ∧ _uniformCache w1 !! name = Some (VF32 l)
    ∧ (∀ l0, _uniformCache w !! name = Some (VF32 l0) →
         l = l0 ∧ length (f32Store w1) = length (f32Store w))
    ∧ getUniform name device (Some scene) w1 = Some (VF32 l, w2)
    ∧ length (f32Store w2) = length (f32Store w1).
Proof.
  intros Hdef Hcolor Hcache gamma.
  destruct (color_uniform_run w name defaultValue device scene cid r g b a Hdef
              useGammaTonemap_defined Hcolor Hcache w eq_refl)
    as (u & w1 & Hrun & l & -> & Hf & Hl & Hc & Hreuse).
  assert (truthy (js_and (field w "_useGammaTonemap") (gammaCorrection scene)) = gamma)
    as Hgamma.
  { unfold gamma, js_and. by destruct (truthy (field w "_useGammaTonemap")) eqn:E. }
  rewrite Hgamma in Hl.
  destruct (color_uniform_run w1 name defaultValue device scene cid r g b a Hdef
              useGammaTonemap_defined) with (w := w1)
    as (u & w2 & Hrun2 & l' & -> & _ & _ & _ & Hreuse2); try done.
  - unfold field. by rewrite Hf.
  - right. eexists l, _. split; [exact Hc|]. split; [exact Hl|]. by destruct gamma.
  - destruct (Hreuse2 l Hc) as [-> Hlen].
    exists l, w1, w2. unfold colorValues in Hl. done.
Qed.

Lemma color_uniform_value_witness :
  ∃ l w1 w2,
    getUniform (H := demo) (H0 := demoTables) "ambient" VNull (Some demoScene) demoMaterial
    = Some (VF32 l, w1)
    ∧ f32Store w1 !! l
      = Some [fround (Collaborators := demo) (Math_pow (Collaborators := demo) 0.7 2.2);
              fround (Collaborators := demo) (Math_pow (Collaborators := demo) 0.7 2.2);
              fround (Collaborators := demo) (Math_pow (Collaborators := demo) 0.7 2.2)]
    ∧ getUniform (H := demo) (H0 := demoTables) "ambient" VNull (Some demoScene) w1
      = Some (VF32 l, w2)
    ∧ length (f32Store w2) = length (f32Store w1).
Proof.
  destruct (color_uniform_value (H := demo) "ambient" (Color 0.7 0.7 0.7) demoMaterial
               VNull demoScene 1 0.7 0.7 0.7 1)
    as (l & w1 & w2 & Hrun & Hvalues & _ & _ & Hrun2 & Hlen).
  - apply list_elem_of_lookup. exists 0%nat. reflexivity.
  - vm_compute. reflexivity.
  - left. vm_compute. reflexivity.
  - exists l, w1, w2. split; [exact Hrun|]. split; [exact Hvalues|].
    split; [exact Hrun2 | exact Hlen].
Defined.

End MaterialClaims.

Module UpdateClaims.


(** Whether a run returns. *)
Definition returns {A} (r : option (A * state)) : bool :=
  match r with Some _ => true | None => false end.


(** C4: over any sequence of property assignments, property reads, in-place
    changes of an aggregate, [chunks] accesses, [setParameter] calls,
    [updateUniforms] and [updateEnvUniforms] calls, none of them a
    [getShaderVariant], a [_dirtyShader] that is [true] stays [true], and one
    that is truthy stays truthy. *)
Theorem dirty_cleared_only_by_fetch `{Collaborators} (ops : list op) (w w' : state) :
  Forall (λ o, isGetShaderVariant o = false) ops →
  runOps ops w = Some (tt, w') →
  (_dirtyShader w = VBool true → _dirtyShader w' = VBool true)
  ∧ (truthy (_dirtyShader w) = true → truthy (_dirtyShader w') = true).
Proof.
  intros Hops Hrun.
  destruct (preserves_runOps_dirty ops Hops w tt w' Hrun) as [Htruthy Htrue]. by split.
Qed.

Lemma dirty_cleared_only_by_fetch_witness :
  let ops := [OpSet "opacity" (VNum 0.5); OpGet "diffuse";
              OpUpdateUniforms VNull demoScene;
              OpSetParameter (VStr "material_opacity") (VNum 0.25);
              OpUpdateUniforms VNull demoScene;
              OpUpdateEnvUniforms VNull demoScene] in
  _dirtyShader demoMaterial = VBool true
  ∧ ∃ w', runOps (H := demo) (H0 := demoTables) ops demoMaterial = Some (tt, w')
          ∧ _dirtyShader w' = VBool true.
Proof.
  intros ops. split; [vm_compute; reflexivity|].
  destruct (runOps (H := demo) (H0 := demoTables) ops demoMaterial) as [[[] w']|] eqn:Hrun.
  - exists w'. split; [reflexivity|].
    apply (dirty_cleared_only_by_fetch (H := demo) ops demoMaterial w').
    + repeat constructor.
    + exact Hrun.
    + vm_compute. reflexivity.
  - assert (returns (runOps (H := demo) (H0 := demoTables) ops demoMaterial) = true)
      as Hreturns by (vm_compute; reflexivity).
    rewrite Hrun in Hreturns. discriminate Hreturns.
Defined.

End UpdateClaims.

Module EngineRunFacts.
Import EngineRun.

(** C6: a material is updated with [cubeMapProjection] set to [CUBEPROJ_BOX]
    (pass N), the projection is switched off and the material is updated again
    (pass N+1).  Pass N registers the uniform of [cubeMapProjectionBox] in the
    active set as the array itself and binds [envBoxMin] and [envBoxMax].
    Pass N+1 registers neither, and after its [_processParameters] both names
    are still in the [parameters] table: the clean-up deletes the entry under
    the string form of the array, which is not one of the two names. *)
Theorem box_uniforms_stay_bound :
  let array := KObj 55 [("envBoxMin", 4%nat); ("envBoxMax", 5%nat)] in
  boxBindings (runOps (H := engine) (H0 := engineTables) boxPass engineMaterial)
  = Some ([KName "material_ambient"; KName "material_diffuse";
           KName "material_specular"; KName "material_shininess";
           KName "material_emissive"; KName "material_opacity";
           KName "material_occludeSpecularIntensity";
           array;
           KName "material_reflectivity"],
          Some (VF32 4), Some (VF32 5))
  ∧ boxBindings (runOps (H := engine) (H0 := engineTables) (boxPass ++ plainPass)
                   engineMaterial)
    = Some ([KName "material_ambient"; KName "material_diffuse";
             KName "material_specular"; KName "material_shininess";
             KName "material_emissive"; KName "material_opacity";
             KName "material_occludeSpecularIntensity";
             KName "material_reflectivity"],
            Some (VF32 4), Some (VF32 5))
  ∧ key_string array = "[object Object],[object Object]".
Proof. repeat apply conj; vm_compute; reflexivity. Qed.

(** The ambient colour of a new material is [(0.7, 0.7, 0.7)]; without gamma
    correction its uniform holds [0.7] rounded to single precision, which is
    [0.699999988079071044921875] and not the stored component. *)
Lemma color_uniform_is_rounded :
  let uniform := getUniform (H := engine) (H0 := engineTables) "ambient" VNull
                   (Some linearScene) engineMaterial in
  field engineMaterial "_ambient" = VObj 1 (OColor 0.7 0.7 0.7 1)
  ∧ truthy (gammaCorrection linearScene) = false
  ∧ uniformValues uniform = Some [0x1.666666p-1; 0x1.666666p-1; 0x1.666666p-1]%float
  ∧ uniformValues uniform ≠ Some [0.7; 0.7; 0.7]%float.
Proof.
  assert (∀ v : option (list float),
            v = Some [0x1.666666p-1; 0x1.666666p-1; 0x1.666666p-1]%float →
            v ≠ Some [0.7; 0.7; 0.7]%float) as Hne.
  { intros v -> Heq.
    apply (f_equal (λ o, match o with
                         | Some (x :: _) => PrimFloat.eqb x 0.7
                         | _ => false
                         end)) in Heq.
    vm_compute in Heq. discriminate Heq. }
  assert (∀ P Q : Prop, P → (P → Q) → P ∧ Q) as Hboth by tauto.
  intros uniform.
  apply conj; [vm_compute; reflexivity|]. apply conj; [reflexivity|].
  apply Hboth; [vm_compute; reflexivity | apply Hne].
Qed.

End EngineRunFacts.

(* ===================================================================== *)
(** * Which lights a render action collects                               *)
(* ===================================================================== *)

Module CollectedLights.
Import RenderAction RenderActionFacts.

(** ** [indexOf] *)

Lemma indexOfFrom_absent (l : list Light) (x : Light) (i : Z) :
  x ∉ l → indexOfFrom i l x = -1.
Proof.
  revert i. induction l as [|y l IH]; intros i Hx; [done|].
  simpl. apply not_elem_of_cons in Hx as [Hne Hx].
  destruct (decide (y = x)); [congruence | by apply IH].
Qed.

Lemma indexOfFrom_found (l : list Light) (x : Light) (i : Z) :
  x ∈ l →
  ∃ n : nat, indexOfFrom i l x = i + Z.of_nat n ∧ l !! n = Some x
    ∧ ∀ m : nat, (m < n)%nat → l !! m ≠ Some x.
Proof.
  revert i. induction l as [|y l IH]; intros i Hx; [by apply elem_of_nil in Hx|].
  simpl. destruct (decide (y = x)) as [-> | Hne].
  - exists 0%nat. split; [lia|]. split; [done|]. lia.
  - apply elem_of_cons in Hx as [? | Hx]; [congruence|].
    destruct (IH (i + 1) Hx) as (n & Hn & Hl & Hfirst).
    exists (S n). split; [lia|]. split; [done|].
    intros [|m] Hm; simpl; [congruence|]. apply Hfirst. lia.
Qed.

(** ** The lights that qualify *)

(** [light.castShadows] holds and some layer of the camera has the light
    among its directional lights. *)
Definition qualifies (castShadows : Light → bool) (cameraLayers : list Layer)
    (L : Light) : Prop :=
  castShadows L = true
  ∧ ∃ layer, layer ∈ cameraLayers ∧ L ∈ splitLightsDirectional layer.

Definition qualifiesb (castShadows : Light → bool) (cameraLayers : list Layer)
    (L : Light) : bool :=
  castShadows L
  && existsb (λ layer, bool_decide (L ∈ splitLightsDirectional layer)) cameraLayers.

Lemma qualifiesb_spec castShadows cameraLayers L :
  qualifiesb castShadows cameraLayers L = true ↔ qualifies castShadows cameraLayers L.
Proof.
  unfold qualifiesb, qualifies. rewrite andb_true_iff, existsb_exists.
  split; intros [Hc (layer & Hin & HL)]; (split; [done|]); exists layer.
  - split; [by apply list_elem_of_In | by apply bool_decide_eq_true in HL].
  - split; [by apply list_elem_of_In | by apply bool_decide_eq_true].
Qed.

Lemma layer_test (layer : Layer) (light : Light) :
  (0 <=? indexOf (splitLightsDirectional layer) light) = true
  ↔ light ∈ splitLightsDirectional layer.
Proof.
  rewrite Z.leb_le. unfold indexOf. split.
  - intros Hle. destruct (decide (light ∈ splitLightsDirectional layer)) as [|Hno]; [done|].
    rewrite (indexOfFrom_absent _ _ 0 Hno) in Hle. lia.
  - intros (n & -> & _)%(indexOfFrom_found _ _ 0). lia.
Qed.

(** The inner loop, on a render action that holds [light] already. *)
Lemma visitLayers_present allLights light layers ra :
  light ∈ directionalLightsSet ra →
  foldl (visitLayer allLights light) ra layers = ra.
Proof.
  intros Hin. induction layers as [|layer layers IH]; [done|].
  simpl. unfold visitLayer at 2. destruct (0 <=? _); [|done].
  by rewrite decide_True.
Qed.

(** The inner loop, on a render action that does not hold [light]. *)
Lemma visitLayers_new allLights light layers ra :
  light ∉ directionalLightsSet ra →
  foldl (visitLayer allLights light) ra layers
  = if existsb (λ layer, bool_decide (light ∈ splitLightsDirectional layer)) layers
    then {| directionalLightsSet := {[ light ]} ∪ directionalLightsSet ra;
            directionalLights := directionalLights ra ++ [light];
            directionalLightsIndices :=
              directionalLightsIndices ra ++ [indexOf allLights light] |}
    else ra.
Proof.
  intros Hnew. induction layers as [|layer layers IH]; [done|].
  simpl. unfold visitLayer at 2.
  destruct (0 <=? indexOf (splitLightsDirectional layer) light) eqn:Htest.
  - apply layer_test in Htest. rewrite bool_decide_eq_true_2 by done. simpl.
    rewrite decide_False by done. apply visitLayers_present. simpl. set_solver.
  - rewrite bool_decide_eq_false_2; [exact IH|].
    intros Hin%layer_test. congruence.
Qed.

(** The outer loop from any render action whose set and array agree. *)
Lemma visitLights_members castShadows cameraLayers allLights dirLights ra L :
  lockstep allLights ra →
  L ∈ directionalLights (foldl (visitLight castShadows cameraLayers allLights) ra dirLights)
  ↔ L ∈ directionalLights ra ∨ (L ∈ dirLights ∧ qualifies castShadows cameraLayers L).
Proof.
  revert ra. induction dirLights as [|light lights IH]; intros ra Hlock.
  - simpl. split; [by left|]. intros [? | [?%elem_of_nil _]]; done.
  - simpl. rewrite IH by (by apply lockstep_visitLight).
    rewrite elem_of_cons, <- qualifiesb_spec.
    unfold visitLight at 1, qualifiesb at 2.
    destruct Hlock as (Hmem & _).
    destruct (castShadows light) eqn:Hcast.
    + destruct (decide (light ∈ directionalLightsSet ra)) as [Hin | Hnew].
      * rewrite visitLayers_present by done.
        split; [tauto|]. intros [? | [[-> | ?] HL]]; [tauto | | tauto].
        left. by apply Hmem.
      * rewrite visitLayers_new by done.
        destruct (existsb _ cameraLayers) eqn:Hany; simpl.
        -- rewrite elem_of_app, list_elem_of_singleton.
           split; [|tauto]. intros [[? | ->] | ?]; [tauto | | tauto].
           right. split; [by left|]. unfold qualifiesb. by rewrite Hcast, Hany.
        -- split; [tauto|]. intros [? | [[-> | ?] HL]]; [tauto | | tauto].
           unfold qualifiesb in HL. rewrite Hcast, Hany in HL. done.
    + split; [tauto|]. intros [? | [[-> | ?] HL]]; [tauto | | tauto].
      unfold qualifiesb in HL. rewrite Hcast in HL. done.
Qed.

Lemma visitLights_order castShadows cameraLayers allLights dirLights ra :
  lockstep allLights ra →
  NoDup dirLights →
  (∀ L, L ∈ dirLights → L ∉ directionalLights ra) →
  directionalLights (foldl (visitLight castShadows cameraLayers allLights) ra dirLights)
  = directionalLights ra ++ filter (λ L, qualifiesb castShadows cameraLayers L = true) dirLights.
Proof.
  revert ra. induction dirLights as [|light lights IH]; intros ra Hlock Hnd Hfresh.
  - simpl. by rewrite app_nil_r.
  - apply NoDup_cons in Hnd as [Hnotin Hnd].
    assert (light ∉ directionalLightsSet ra) as Hnew.
    { destruct Hlock as (Hmem & _). rewrite Hmem. apply Hfresh. by left. }
    simpl. rewrite IH; [| apply lockstep_visitLight; exact Hlock | exact Hnd |].
    + unfold visitLight. rewrite filter_cons.
      destruct (castShadows light) eqn:Hcast.
      * rewrite visitLayers_new by done.
        destruct (existsb _ cameraLayers) eqn:Hany; simpl.
        -- rewrite decide_True by (unfold qualifiesb; by rewrite Hcast, Hany).
           by rewrite <- app_assoc.
        -- rewrite decide_False; [done|]. unfold qualifiesb. by rewrite Hcast, Hany.
      * rewrite decide_False; [done|]. unfold qualifiesb. by rewrite Hcast.
    + intros L HL. unfold visitLight. destruct (castShadows light); [|apply Hfresh; by right].
      rewrite visitLayers_new by done.
      destruct (existsb _ cameraLayers); simpl; [|apply Hfresh; by right].
      rewrite elem_of_app, list_elem_of_singleton.
      intros [Hin | ->]; [|done]. revert Hin. apply Hfresh. by right.
Qed.

(** X1: the lights [collectDirectionalLights] collects are exactly the lights
    of [dirLights] that cast shadows and are among the directional lights of
    one of the camera's layers; what the render action held before plays no
    role. *)
Theorem collected_lights_are_the_qualifying (castShadows : Light → bool)
    (cameraLayers : list Layer) (dirLights allLights : list Light) (ra : t) (L : Light) :
  L ∈ directionalLights
        (collectDirectionalLights castShadows cameraLayers dirLights allLights ra)
  ↔ L ∈ dirLights ∧ qualifies castShadows cameraLayers L.
Proof.
  unfold collectDirectionalLights.
  rewrite visitLights_members by apply lockstep_reset.
  simpl. split; [|tauto]. by intros [?%elem_of_nil | ?].
Qed.

(** X2: when no light occurs twice in [dirLights], [directionalLights] lists
    the qualifying lights in the order of [dirLights]. *)
Theorem collected_lights_keep_order (castShadows : Light → bool)
    (cameraLayers : list Layer) (dirLights allLights : list Light) (ra : t) :
  NoDup dirLights →
  directionalLights
    (collectDirectionalLights castShadows cameraLayers dirLights allLights ra)
  = filter (λ L, qualifiesb castShadows cameraLayers L = true) dirLights.
Proof.
  intros Hnd. unfold collectDirectionalLights.
  rewrite visitLights_order; [done | apply lockstep_reset | done |].
  intros L _. simpl. apply not_elem_of_nil.
Qed.

Lemma collected_lights_keep_order_witness :
  let castShadows := λ L : Light, negb (Nat.eqb L 2) in
  let layers := [mkLayer [3; 1]%nat; mkLayer [2; 5]%nat] in
  NoDup [1; 2; 3; 4]%nat
  ∧ directionalLights
      (collectDirectionalLights castShadows layers [1; 2; 3; 4]%nat [4; 3; 2; 1]%nat
         (mk ∅ [] []))
    = [1; 3]%nat.
Proof.
  intros castShadows layers.
  assert (NoDup [1; 2; 3; 4]%nat) as Hnd
    by (refine (bool_decide_unpack _ _); vm_compute; exact I).
  split; [exact Hnd|].
  rewrite (collected_lights_keep_order castShadows layers [1; 2; 3; 4]%nat
             [4; 3; 2; 1]%nat (mk ∅ [] []) Hnd).
  vm_compute. reflexivity.
Defined.

(** X3: an index stored in [directionalLightsIndices] leads back to its
    light: at every position [k], when the light [directionalLights[k]] is in
    [allLights] the index is a position of [allLights] that holds the light,
    the first such position; when it is not, the index is [-1]. *)
Theorem collected_indices_lead_back (castShadows : Light → bool)
    (cameraLayers : list Layer) (dirLights allLights : list Light) (ra : t)
    (k : nat) (L : Light) :
  directionalLights
    (collectDirectionalLights castShadows cameraLayers dirLights allLights ra) !! k
  = Some L →
  ∃ i : Z,
    directionalLightsIndices
      (collectDirectionalLights castShadows cameraLayers dirLights allLights ra) !! k
    = Some i
    ∧ (L ∈ allLights →
       0 ≤ i ∧ allLights !! Z.to_nat i = Some L
       ∧ ∀ m : nat, (m < Z.to_nat i)%nat → allLights !! m ≠ Some L)
    ∧ (L ∉ allLights → i = -1).
Proof.
  intros Hk.
  destruct (lockstep_collect castShadows cameraLayers dirLights allLights ra)
    as (_ & _ & Hidx).
  exists (indexOf allLights L). split; [|split].
  - rewrite Hidx, list_lookup_fmap, Hk. reflexivity.
  - intros (n & Hn & Hl & Hfirst)%(indexOfFrom_found _ _ 0). unfold indexOf.
    rewrite Hn, Z.add_0_l, Nat2Z.id. split; [lia|]. done.
  - intros Hno. by apply indexOfFrom_absent.
Qed.

Lemma collected_indices_lead_back_witness :
  let castShadows := λ L : Light, true in
  let layers := [mkLayer [7; 9]%nat] in
  let ra := collectDirectionalLights castShadows layers [9; 7]%nat [5; 7]%nat (mk ∅ [] []) in
  directionalLights ra = [9; 7]%nat
  ∧ directionalLightsIndices ra = [-1; 1]
  ∧ ∃ i : Z, directionalLightsIndices ra !! 1%nat = Some i
      ∧ [5; 7]%nat !! Z.to_nat i = Some 7%nat.
Proof.
  intros castShadows layers ra.
  split; [vm_compute; reflexivity|]. split; [vm_compute; reflexivity|].
  destruct (collected_indices_lead_back castShadows layers [9; 7]%nat [5; 7]%nat
              (mk ∅ [] []) 1 7%nat) as (i & Hi & Hin & _).
  - vm_compute. reflexivity.
  - exists i. split; [exact Hi|]. apply Hin.
    refine (bool_decide_unpack _ _). vm_compute. exact I.
Defined.

(** X4: after [collectDirectionalLights], [hasDirectionalShadowLights] is
    [true] exactly when some light of [dirLights] qualifies; in particular it
    is [false] when [dirLights] or [cameraLayers] is empty. *)
Theorem has_shadow_lights_iff_some_qualifies (castShadows : Light → bool)
    (cameraLayers : list Layer) (dirLights allLights : list Light) (ra : t) :
  hasDirectionalShadowLights
    (collectDirectionalLights castShadows cameraLayers dirLights allLights ra) = true
  ↔ ∃ L, L ∈ dirLights ∧ qualifies castShadows cameraLayers L.
Proof.
  unfold hasDirectionalShadowLights. rewrite bool_decide_eq_true.
  split.
  - intros Hlen.
    destruct (directionalLights _) as [|L rest] eqn:Hlist; [simpl in Hlen; lia|].
    exists L.
    assert (L ∈ directionalLights (foldl (visitLight castShadows cameraLayers allLights)
                                     (reset ra) dirLights)) as HL.
    { unfold collectDirectionalLights in Hlist. rewrite Hlist. by left. }
    apply visitLights_members in HL as [?%elem_of_nil | HL]; [done | done |].
    apply lockstep_reset.
  - intros (L & HL).
    assert (L ∈ directionalLights (foldl (visitLight castShadows cameraLayers allLights)
                                     (reset ra) dirLights)) as Hin.
    { apply visitLights_members; [apply lockstep_reset | by right]. }
    unfold collectDirectionalLights.
    destruct (directionalLights _); [by apply elem_of_nil in Hin | simpl; lia].
Qed.

End CollectedLights.

(* ===================================================================== *)
(** * The parameter sets of a material                                    *)
(* ===================================================================== *)

Module ParameterSets.

(** [ensures I c Q]: a run of [c] from a state in [I] ends in a state in
    [Q]. *)
Definition ensures {A} (I : state → Prop) (c : M A) (Q : state → Prop) : Prop :=
  ∀ w a w', I w → c w = Some (a, w') → Q w'.

Lemma ensures_bind {A B} (I Q : state → Prop) (c : M A) (f : A → M B) :
  ensures I c I → (∀ a, ensures I (f a) Q) → ensures I (c ≫= f) Q.
Proof.
  intros Hc Hf w b w' Hw (a & w1 & H1 & H2)%bind_Some.
  eapply Hf; [|exact H2]. by eapply Hc.
Qed.

Lemma ensures_frame {A} (R : relation state) (I Q : state → Prop) (c : M A) :
  preserves R c → (∀ w w', I w → R w w' → Q w') → ensures I c Q.
Proof. intros Hc HQ w a w' Hw Hrun. eapply HQ; [done | by eapply Hc]. Qed.

Lemma ensures_ret {A} (I : state → Prop) (a : A) : ensures I (mret a) I.
Proof. by intros w a' w' Hw [= <- <-]. Qed.

Lemma ensures_throw {A} (I Q : state → Prop) : ensures I (throw (A := A)) Q.
Proof. by intros w a w'. Qed.

Lemma ensures_forEach {A} (I : state → Prop) (l : list A) (f : A → M unit) :
  (∀ x, ensures I (f x) I) → ensures I (forEach l f) I.
Proof.
  intros Hf. induction l as [|x l IH]; simpl.
  - apply ensures_ret.
  - apply ensures_bind; [apply Hf | intros _; apply IH].
Qed.

(** The three sets exist and are three objects. *)
Definition wellSets (w : state) : Prop :=
  validSets w
  ∧ _params w ≠ _activeParams w
  ∧ _params w ≠ _activeLightingParams w
  ∧ _activeParams w ≠ _activeLightingParams w.

(** Between two updates, moreover, the module-level [_params] is empty. *)
Definition setsInv (w : state) : Prop :=
  wellSets w ∧ setStore w !! _params w = Some [].

(** Steps that leave the sets alone. *)
Definition storeFrame (w w' : state) : Prop :=
  _params w' = _params w ∧ _activeParams w' = _activeParams w
  ∧ _activeLightingParams w' = _activeLightingParams w
  ∧ setStore w' = setStore w.

#[local] Instance storeFrame_preorder : PreOrder storeFrame.
Proof.
  split.
  - by intros w.
  - intros w1 w2 w3 (?&?&?&?) (?&?&?&?). unfold storeFrame. repeat split; congruence.
Qed.

(** Steps that at most add names to [_params]. *)
Definition setsFrame (w w' : state) : Prop :=
  _params w' = _params w ∧ _activeParams w' = _activeParams w
  ∧ _activeLightingParams w' = _activeLightingParams w
  ∧ length (setStore w') = length (setStore w).

#[local] Instance setsFrame_preorder : PreOrder setsFrame.
Proof.
  split.
  - by intros w.
  - intros w1 w2 w3 (?&?&?&?) (?&?&?&?). unfold setsFrame. repeat split; congruence.
Qed.

Lemma storeFrame_setsInv w w' : setsInv w → storeFrame w w' → setsInv w'.
Proof.
  unfold setsInv, wellSets, validSets. intros Hw (Hp & Ha & Hl & Hs).
  by rewrite Hp, Ha, Hl, Hs.
Qed.

Lemma setsFrame_wellSets w w' : wellSets w → setsFrame w w' → wellSets w'.
Proof.
  unfold wellSets, validSets. intros Hw (Hp & Ha & Hl & Hs).
  rewrite Hp, Ha, Hl, !lookup_lt_is_Some, Hs. by rewrite <- !lookup_lt_is_Some.
Qed.

Section SetsFacts.
Context `{Collaborators}.

Ltac frame_known :=
  idtac;
  lazymatch goal with
  | |- preserves _ (modify (setParams ?n _)) => fail
  | |- preserves setsFrame (modify _) =>
      apply preserves_modify; intros ?; unfold setsFrame; simpl;
      rewrite ?length_insert; done
  | |- preserves storeFrame (modify _) => apply preserves_modify; intros ?; done
  end.

Lemma preserves_get_storeFrame name : preserves storeFrame (get name).
Proof. repeat preserves_step frame_known. Qed.

Lemma preserves_setDefined_storeFrame name value :
  preserves storeFrame (setDefined name value).
Proof. repeat preserves_step frame_known. Qed.

Lemma preserves_set_storeFrame name value : preserves storeFrame (set name value).
Proof.
  unfold set, setPrefilteredCubemaps.
  repeat preserves_step ltac:(idtac; lazymatch goal with
    | |- preserves _ (get _) => apply preserves_get_storeFrame
    | |- preserves _ (setDefined _ _) => apply preserves_setDefined_storeFrame
    | _ => frame_known
    end).
Qed.

Lemma preserves_get_setsFrame name : preserves setsFrame (get name).
Proof. repeat preserves_step frame_known. Qed.

Lemma preserves__setParameter_setsFrame name value :
  preserves setsFrame (_setParameter name value).
Proof. repeat preserves_step frame_known. Qed.

Ltac frame_known2 :=
  idtac;
  lazymatch goal with
  | |- preserves _ (get _) => apply preserves_get_setsFrame
  | |- preserves _ (_setParameter _ _) => apply preserves__setParameter_setsFrame
  | _ => frame_known
  end.

Lemma preserves_getUniform_setsFrame name device scene :
  preserves setsFrame (getUniform name device scene).
Proof. repeat preserves_step frame_known2. Qed.

Lemma preserves__updateMap_setsFrame p : preserves setsFrame (_updateMap p).
Proof.
  unfold _updateMap.
  repeat preserves_step ltac:(idtac; lazymatch goal with
    | |- preserves _ (getUniform _ _ _) => apply preserves_getUniform_setsFrame
    | _ => frame_known2
    end).
Qed.

Lemma preserves_registerUniforms_setsFrame device scene :
  preserves setsFrame (registerUniforms device scene).
Proof.
  unfold registerUniforms.
  repeat preserves_step ltac:(idtac; lazymatch goal with
    | |- preserves _ (getUniform _ _ _) => apply preserves_getUniform_setsFrame
    | |- preserves _ (_updateMap _) => apply preserves__updateMap_setsFrame
    | _ => frame_known2
    end).
Qed.

(** [_processParameters] exchanges two of the three sets and empties
    [_params]. *)
Lemma ensures__processParameters n : ensures wellSets (_processParameters n) setsInv.
Proof.
  intros w [] w' Hw Hrun.
  destruct Hw as (([cur Hcur] & [act Hact] & [lit Hlit]) & Hpa & Hpl & Hal).
  assert (∃ prev, setStore w !! getParams n w = Some prev) as [prev Hprev].
  { destruct n; by eexists. }
  rewrite (processParameters_run n w prev cur Hprev Hcur) in Hrun.
  injection Hrun as <-.
  apply lookup_lt_Some in Hcur, Hact, Hlit, Hprev.
  unfold setsInv, wellSets, validSets, processed.
  destruct n; simpl in *; rewrite !lookup_lt_is_Some, length_insert;
    (split; [done|]); by apply list_lookup_insert_eq.
Qed.

Lemma ensures_get name : ensures wellSets (get name) wellSets.
Proof.
  eapply ensures_frame; [apply preserves_get_setsFrame | apply setsFrame_wellSets].
Qed.

Lemma ensures__setParameter name value :
  ensures wellSets (_setParameter name value) wellSets.
Proof.
  eapply ensures_frame; [apply preserves__setParameter_setsFrame | apply setsFrame_wellSets].
Qed.

Lemma ensures_updateEnvUniforms device scene :
  ensures wellSets (updateEnvUniforms device scene) setsInv.
Proof.
  unfold updateEnvUniforms.
  repeat (lazymatch goal with
          | |- ensures _ (_processParameters _) setsInv => apply ensures__processParameters
          | |- ensures _ (get _) _ => apply ensures_get
          | |- ensures _ (_setParameter _ _) _ => apply ensures__setParameter
          | |- ensures _ (mret _) wellSets => apply ensures_ret
          | |- ensures _ (_ ≫= _) _ => apply ensures_bind; [| intros ?]
          | |- ensures _ (if ?b then _ else _) _ => destruct b
          | |- ensures _ (match ?x with _ => _ end) _ => destruct x
          | |- ensures _ ?c _ => let h := head_of c in progress (unfold h)
          end).
Qed.

Lemma ensures_updateUniforms device scene :
  ensures wellSets (updateUniforms device scene) setsInv.
Proof.
  unfold updateUniforms. intros w [] w' Hw Hrun.
  apply bind_Some in Hrun as ([] & wa & Hreg & Hrun).
  apply bind_Some in Hrun as ([] & wb & Hproc & Hrun).
  pose proof (preserves_registerUniforms_setsFrame device scene _ _ _ Hreg) as Hframe.
  pose proof (ensures__processParameters ActiveParams wa tt wb
                (setsFrame_wellSets _ _ Hw Hframe) Hproc) as Hwb.
  destruct (clearVariants_run wb) as (w'' & Hrun' & _ & Hp & Ha & Hs & _).
  rewrite Hrun in Hrun'. injection Hrun' as <-.
  apply (storeFrame_setsInv wb); [done|].
  revert Hrun. unfold ifM, emit, mbind, M_bind, gets, modify. simpl.
  destruct (truthy (_dirtyShader wb)); by intros [= <-].
Qed.

Lemma ensures_getShaderVariant device scene objDefs staticLightList pass sortedLights
    vuf vbgf :
  ensures wellSets
    (getShaderVariant device scene objDefs staticLightList pass sortedLights vuf vbgf)
    setsInv.
Proof.
  intros w shader w' Hw Hrun. unfold getShaderVariant in Hrun.
  apply bind_Some in Hrun as ([] & w1 & Henv & Hrun).
  pose proof (ensures_updateEnvUniforms device scene w tt w1 Hw Henv) as Hw1.
  apply (storeFrame_setsInv w1); [done|].
  cbv zeta in Hrun.
  destruct (strict_eq pass (VNum SHADER_DEPTH) || strict_eq pass (VNum SHADER_PICK)
            || ShaderPass_isShadow pass);
    destruct (onUpdateShader w1) as [callback|] eqn:Hhook;
    unfold mbind, M_bind, emit, modify, gets in Hrun; simpl in Hrun;
    rewrite ?Hhook in Hrun; simpl in Hrun; injection Hrun as <- <-;
    unfold storeFrame; repeat split.
Qed.

Lemma ensures_runOp o : ensures setsInv (runOp o) setsInv.
Proof.
  assert (∀ c : M unit, preserves storeFrame c → ensures setsInv c setsInv) as Hframe.
  { intros c Hc. eapply ensures_frame; [exact Hc | apply storeFrame_setsInv]. }
  assert (∀ {A} (c : M A), ensures wellSets c setsInv → ensures setsInv c setsInv) as Hweak.
  { intros A c Hc w a w' [Hw _]. by apply Hc. }
  destruct o; cbn [runOp].
  - apply Hframe, preserves_set_storeFrame.
  - apply Hframe. repeat preserves_step ltac:(idtac; lazymatch goal with
      | |- preserves _ (get _) => apply preserves_get_storeFrame
      end).
  - apply Hframe. repeat preserves_step ltac:(idtac; lazymatch goal with
      | |- preserves _ (get _) => apply preserves_get_storeFrame
      | _ => frame_known
      end).
  - apply Hframe. repeat preserves_step frame_known.
  - apply Hframe. repeat preserves_step frame_known.
  - apply Hframe. repeat preserves_step frame_known.
  - apply Hweak, ensures_updateUniforms.
  - apply Hweak, ensures_updateEnvUniforms.
  - apply ensures_bind; [apply Hweak, ensures_getShaderVariant | intros _; apply ensures_ret].
Qed.

Lemma ensures_runOps ops : ensures setsInv (runOps ops) setsInv.
Proof. apply ensures_forEach. intros o. apply ensures_runOp. Qed.

(** The constructors of [_props] that return: all of them do, for the
    properties of the file. *)
Definition constructible (c : ctorFn) : bool :=
  match c with
  | CtorClone (VObj _ _) | CtorValue _ | CtorEmptySlice => true
  | CtorClone _ => false
  end.

Lemma props_constructible :
  forallb (λ p : string * ctorFn, constructible p.2) (_props moduleTables) = true.
Proof. vm_compute. reflexivity. Qed.

Lemma reset_loop_run (l : list (string * ctorFn)) (w : state) :
  forallb (λ p : string * ctorFn, constructible p.2) l = true →
  ∃ w', forEach l (λ '(name, c), v ← construct c; write ("_" +:+ name) v) w = Some (tt, w')
    ∧ storeFrame w w' ∧ _dirtyShader w' = _dirtyShader w.
Proof.
  revert w. induction l as [|[name c] l IH]; intros w Hl.
  - by exists w.
  - simpl in Hl. apply andb_prop in Hl as [Hc Hl].
    assert (∃ w1, (v ← construct c; write ("_" +:+ name) v) w = Some (tt, w1)
                  ∧ storeFrame w w1 ∧ _dirtyShader w1 = _dirtyShader w) as (w1 & Hrun & Hf & Hd).
    { destruct c as [v | [| | | | |id o| | |] |]; try discriminate Hc;
        by eexists. }
    destruct (IH w1 Hl) as (w' & Hrun' & Hf' & Hd').
    exists w'. split; [|split].
    + cbn [forEach]. by rewrite (bind_run _ _ _ _ _ Hrun).
    + by etrans.
    + congruence.
Qed.

Lemma cleanup_lookup cur table prev key :
  Forall (λ P, key_string P = key → P ∈ cur) prev →
  cleanup cur table prev !! key = table !! key.
Proof.
  revert table. induction prev as [|p prev IH]; intros table Hprev; [done|].
  apply Forall_cons in Hprev as [Hp Hprev]. simpl. rewrite IH by done.
  case_bool_decide as Hcur; [done|].
  apply lookup_delete_ne. intros Hkey. by apply Hcur, Hp.
Qed.

End SetsFacts.

(** Run a sequence of operations on a new material. *)
Definition materialAfter (ops : list op) : state :=
  match runOps (H := demo) (H0 := demoTables) ops demoMaterial with
  | Some (_, w) => w
  | None => demoMaterial
  end.

(** Whether a run returns. *)
Definition succeeds {A} (r : option (A * state)) : bool :=
  match r with Some _ => true | None => false end.

(** X5: the constructor returns whenever the module-level [_params] exists.
    It gives the material two new empty [Set] objects, different from each
    other and from [_params], which it leaves as it was; the material starts
    with [_dirtyShader] set and an empty uniform cache. *)
Theorem constructor_allocates_sets `{Collaborators} (w : state) :
  is_Some (setStore w !! _params w) →
  ∃ w', constructor w = Some (tt, w')
    ∧ _params w' = _params w
    ∧ _activeParams w' = length (setStore w)
    ∧ _activeLightingParams w' = S (length (setStore w))
    ∧ setStore w' = setStore w ++ [[]; []]
    ∧ wellSets w'
    ∧ _dirtyShader w' = VBool true
    ∧ _uniformCache w' = ∅.
Proof.
  intros Hp. apply lookup_lt_is_Some in Hp.
  pose (wa := set__activeParams (length (setStore w))
                (set_setStore (setStore w ++ [[]])
                   (set__dirtyShader (VBool true) (set_parameters ∅ w)))).
  pose (w0 := set__activeLightingParams (length (setStore wa))
                (set_setStore (setStore wa ++ [[]]) wa)).
  assert (constructor w = reset w0) as -> by reflexivity.
  destruct (reset_loop_run (_props moduleTables) w0 props_constructible)
    as (w1 & Hloop & (Hp1 & Ha1 & Hl1 & Hs1) & Hd1).
  unfold reset. rewrite (bind_run _ _ _ _ _ Hloop).
  eexists. split; [reflexivity|].
  subst w0 wa. simpl in Hp1, Ha1, Hl1, Hs1, Hd1.
  rewrite length_app, Nat.add_1_r in Hl1. rewrite <- app_assoc in Hs1. simpl in Hs1.
  unfold wellSets, validSets. simpl. rewrite Hp1, Ha1, Hl1, Hs1, Hd1.
  rewrite !lookup_lt_is_Some, !length_app. simpl. clear Hloop.
  repeat split; try reflexivity; lia.
Qed.

Lemma constructor_allocates_sets_witness :
  ∃ w', constructor (H0 := demoTables) moduleLoaded = Some (tt, w')
    ∧ _params w' = 0%nat ∧ _activeParams w' = 1%nat ∧ _activeLightingParams w' = 2%nat
    ∧ setStore w' = [[]; []; []].
Proof.
  destruct (constructor_allocates_sets (H := demo) moduleLoaded)
    as (w' & Hrun & Hp & Ha & Hl & Hs & _).
  - eexists. vm_compute. reflexivity.
  - exists w'. split; [exact Hrun|]. split; [exact Hp|]. split; [exact Ha|].
    split; [exact Hl | exact Hs].
Defined.

(** An assignment or an in-place change goes through a property that
    [_defineMaterialProps] defined; the other operations are calls. *)
Definition definedOp `{Collaborators} (o : op) : bool :=
  match o with
  | OpSet name _ | OpMutate name _ =>
      bool_decide (is_Some (alist_get name (accessors moduleTables)))
  | _ => true
  end.

(** X6: the three sets stay three existing objects, and [_params] is empty
    again after every operation: whatever sequence of accesses to the defined
    properties, [chunks] accesses, [setParameter], [updateUniforms],
    [updateEnvUniforms] and [getShaderVariant] calls returns, it keeps
    [setsInv]. *)
Theorem operations_keep_sets `{Collaborators} (ops : list op) (w w' : state) :
  Forall (λ o, definedOp o = true) ops →
  setsInv w → runOps ops w = Some (tt, w') → setsInv w'.
Proof. intros _ Hw Hrun. exact (ensures_runOps ops w tt w' Hw Hrun). Qed.

Lemma operations_keep_sets_witness :
  let ops := [OpSet "clearCoat" (VNum 0.5);
              OpUpdateUniforms VNull demoScene;
              OpGetShaderVariant VNull demoScene VNull VNull (VNum 0) VNull VNull VNull;
              OpGet "diffuse";
              OpUpdateUniforms VNull demoScene] in
  setsInv demoMaterial
  ∧ ∃ w', runOps (H := demo) (H0 := demoTables) ops demoMaterial = Some (tt, w')
          ∧ setsInv w'.
Proof.
  intros ops.
  assert (setsInv demoMaterial) as Hinv.
  { repeat split; try (eexists; vm_compute; reflexivity); vm_compute; discriminate. }
  split; [exact Hinv|].
  destruct (runOps (H := demo) (H0 := demoTables) ops demoMaterial) as [[[] w']|] eqn:Hrun.
  - exists w'. split; [reflexivity|].
    refine (operations_keep_sets (H := demo) ops demoMaterial w' _ Hinv Hrun).
    repeat (apply List.Forall_cons; [vm_compute; reflexivity|]). apply List.Forall_nil.
  - assert (succeeds (runOps (H := demo) (H0 := demoTables) ops demoMaterial) = true)
      as Hreturns by (vm_compute; reflexivity).
    rewrite Hrun in Hreturns. discriminate Hreturns.
Defined.

(** X7: [_processParameters] deletes nothing else: an entry of [parameters]
    is left as it was when every name of the previous set that is stored
    under its key is in [_params]; the properties, [_dirtyShader] and the
    uniform cache are not touched. *)
Theorem registered_parameters_survive `{Collaborators} (n : paramsName) (w : state)
    (prev cur : list pkey) (key : string) :
  setStore w !! getParams n w = Some prev →
  setStore w !! _params w = Some cur →
  Forall (λ P, key_string P = key → P ∈ cur) prev →
  ∃ w', _processParameters n w = Some (tt, w')
    ∧ parameters w' !! key = parameters w !! key
    ∧ fields w' = fields w
    ∧ _dirtyShader w' = _dirtyShader w
    ∧ _uniformCache w' = _uniformCache w.
Proof.
  intros Hprev Hcur Hkey. exists (processed n prev cur w).
  split; [by apply processParameters_run|].
  unfold processed. destruct n; simpl; (split; [by apply cleanup_lookup | done]).
Qed.

(** A material with clear coat is updated, clear coat is switched off, and the
    next pass has registered its parameters. *)
Definition secondPass : state :=
  match registerUniforms (H := demo) (H0 := demoTables) VNull demoScene
          (materialAfter [OpSet "clearCoat" (VNum 0.5);
                          OpUpdateUniforms VNull demoScene;
                          OpSet "clearCoat" (VNum 0)]) with
  | Some (_, w) => w
  | None => demoMaterial
  end.

Lemma registered_parameters_survive_witness :
  ∃ w', _processParameters ActiveParams secondPass = Some (tt, w')
    ∧ parameters w' !! "material_opacity" = parameters secondPass !! "material_opacity"
    ∧ is_Some (parameters secondPass !! "material_opacity").
Proof.
  destruct (registered_parameters_survive (H := demo) ActiveParams secondPass
              [KName "material_ambient"; KName "material_diffuse";
               KName "material_specular"; KName "material_clearCoat";
               KName "material_clearCoatGlossiness";
               KName "material_clearCoatReflectivity";
               KName "material_clearCoatBumpiness"; KName "material_shininess";
               KName "material_emissive"; KName "material_opacity";
               KName "material_occludeSpecularIntensity";
               KName "material_reflectivity"]
              [KName "material_ambient"; KName "material_diffuse";
               KName "material_specular"; KName "material_shininess";
               KName "material_emissive"; KName "material_opacity";
               KName "material_occludeSpecularIntensity";
               KName "material_reflectivity"]
              "material_opacity")
    as (w' & Hrun & Hkept & _).
  - vm_compute. reflexivity.
  - vm_compute. reflexivity.
  - refine (bool_decide_unpack _ _). vm_compute. exact I.
  - exists w'. split; [exact Hrun|]. split; [exact Hkept|].
    eexists. vm_compute. reflexivity.
Defined.


End ParameterSets.

Import ParameterSets.

(* ===================================================================== *)
(** * Setters, maps and uniforms                                          *)
(* ===================================================================== *)

Module PropertyFacts.

Section Setters.
Context `{Collaborators}.

(** The uniform function a call of [_defineFloat] or [_defineObject] leaves
    under the property's name. *)
Definition uniformRegistered (d : definition) : bool :=
  match d with
  | DefFloat name _ u | DefObject name u =>
      bool_decide (alist_get name (_uniforms moduleTables) = Some u)
  | _ => true
  end.

Lemma all_uniformRegistered : forallb uniformRegistered materialPropDefinitions = true.
Proof. vm_compute. reflexivity. Qed.

Lemma uniformRegistered_In d : d ∈ materialPropDefinitions → uniformRegistered d = true.
Proof.
  intros Hd. apply list_elem_of_In in Hd.
  exact (proj1 (forallb_forall _ _) all_uniformRegistered d Hd).
Qed.

Lemma applyDirty_tex2D_Some oldValue newValue :
  is_Some (applyDirty DirtyTex2D oldValue newValue).
Proof.
  unfold applyDirty.
  destruct (truthy oldValue) eqn:Hold, (truthy newValue) eqn:Hnew; simpl; try by eexists.
  destruct oldValue as [| | | | |? []| | |], newValue as [| | | | |? []| | |];
    try discriminate Hold; try discriminate Hnew; by eexists.
Qed.

End Setters.

(** A material whose shader variant has just been fetched. *)
Definition fetched : state :=
  materialAfter [OpGetShaderVariant VNull demoScene VNull VNull (VNum 0) VNull VNull VNull].

Definition demoTexture (id : nat) (format : float) : val :=
  VObj id (OTexture "2d" false format).

(** X8: for a property defined by [_defineObject], assigning a value that
    differs from the stored one stores it and computes
    [_dirtyShader || (!!old === !!new)]: starting from [false] the flag
    becomes [true] exactly when the old and the new value are both truthy or
    both falsy; binding a first object, or removing the object, leaves it
    [false]. *)
Theorem object_setter_dirty `{Collaborators} (name : string)
    (getUniformFunc : option uniformFn) (w : state) (value : val) :
  DefObject name getUniformFunc ∈ materialPropDefinitions →
  strict_eq (field w ("_" +:+ name)) value = false →
  let old := field w ("_" +:+ name) in
  ∃ w', set name value w = Some (tt, w')
    ∧ field w' ("_" +:+ name) = value
    ∧ _dirtyShader w'
      = js_or (_dirtyShader w) (VBool (Bool.eqb (truthy old) (truthy value)))
    ∧ (_dirtyShader w = VBool false →
       (_dirtyShader w' = VBool true ↔ truthy old = truthy value)
       ∧ (truthy old ≠ truthy value → _dirtyShader w' = VBool false)).
Proof.
  intros Hdef Hne old. apply registered_In in Hdef. simpl in Hdef.
  apply bool_decide_eq_true in Hdef.
  rewrite (set_value_accessor name _ _ DirtyObject value Hdef eq_refl).
  rewrite (setValue_changed _ DirtyObject _
             (VBool (Bool.eqb (truthy old) (truthy value))) _ Hne eq_refl).
  eexists. split; [reflexivity|].
  split; [apply field_write|]. split; [reflexivity|].
  cbn [_dirtyShader set_fields set__dirtyShader]. intros ->. cbn [js_or truthy].
  fold old. destruct (truthy old), (truthy value); simpl; split; try done;
    split; done.
Qed.

Lemma object_setter_dirty_witness :
  _dirtyShader fetched = VBool false
  ∧ ∃ w', set (H := demo) (H0 := demoTables) "cubeMap" (demoTexture 50 7) fetched
          = Some (tt, w')
    ∧ _dirtyShader w' = VBool false
    ∧ ∃ w'', set (H := demo) (H0 := demoTables) "cubeMap" (demoTexture 51 7) w'
             = Some (tt, w'')
      ∧ _dirtyShader w'' = VBool true.
Proof.
  split; [vm_compute; reflexivity|].
  destruct (object_setter_dirty (H := demo) "cubeMap" None fetched (demoTexture 50 7))
    as (w' & Hset & Hfield & Hdirty & _).
  - apply list_elem_of_lookup. exists 88%nat. reflexivity.
  - vm_compute. reflexivity.
  - exists w'. split; [exact Hset|].
    assert (_dirtyShader w' = VBool false) as Hclean.
    { rewrite Hdirty. vm_compute. reflexivity. }
    split; [exact Hclean|].
    destruct (object_setter_dirty (H := demo) "cubeMap" None w' (demoTexture 51 7))
      as (w'' & Hset' & _ & Hdirty' & _).
    + apply list_elem_of_lookup. exists 88%nat. reflexivity.
    + change ("_" +:+ "cubeMap") with "_cubeMap" in *. rewrite Hfield.
      vm_compute. reflexivity.
    + exists w''. split; [exact Hset'|]. rewrite Hdirty', Hclean.
      change ("_" +:+ "cubeMap") with "_cubeMap" in *. rewrite Hfield.
      vm_compute. reflexivity.
Defined.

(** X9: for the [<name>Map] property of a texture slot, assigning a value
    that differs from the stored one stores it and computes
    [_dirtyShader || p], where [p] is [true] when exactly one of the old
    and the new value is truthy, the old value itself when both are falsy, and,
    between two textures, whether [type], [fixCubemapSeams] or [format]
    differ. *)
Theorem map_setter_dirty `{Collaborators} (name : string) (uv : float) (channels : Z)
    (defChannel : string) (vertexColor detailMode : bool) (w : state) (value : val) :
  DefTex2D name uv channels defChannel vertexColor detailMode ∈ materialPropDefinitions →
  strict_eq (field w ("_" +:+ name +:+ "Map")) value = false →
  let old := field w ("_" +:+ name +:+ "Map") in
  ∃ w' p, set (name +:+ "Map") value w = Some (tt, w')
    ∧ field w' ("_" +:+ name +:+ "Map") = value
    ∧ _dirtyShader w' = js_or (_dirtyShader w) p
    ∧ (truthy old ≠ truthy value → p = VBool true)
    ∧ (truthy old = false → truthy value = false → p = old)
    ∧ (∀ i type seams format j type' seams' format',
         old = VObj i (OTexture type seams format) →
         value = VObj j (OTexture type' seams' format') →
         p = VBool (negb (String.eqb type type') || negb (Bool.eqb seams seams')
                    || negb (PrimFloat.eqb format format'))).
Proof.
  intros Hdef Hne old. apply registered_In in Hdef. simpl in Hdef.
  repeat (apply andb_prop in Hdef as [Hdef _]). apply bool_decide_eq_true in Hdef.
  rewrite (set_value_accessor (name +:+ "Map") _ _ DirtyTex2D value Hdef eq_refl).
  destruct (applyDirty_tex2D_Some old value) as [p Hp].
  rewrite (setValue_changed _ DirtyTex2D _ p _ Hne Hp).
  eexists _, p. split; [reflexivity|].
  split; [apply field_write|]. split; [reflexivity|].
  revert Hp. unfold applyDirty. clear Hne Hdef.
  generalize old. clear old. intros old Hp.
  split; [|split].
  - intros Hdiff. destruct (truthy old), (truthy value); simpl in Hp; congruence.
  - intros Hold Hnew. rewrite Hold, Hnew in Hp. simpl in Hp. congruence.
  - intros i type seams format j type' seams' format' -> ->. simpl in Hp.
    by injection Hp as <-.
Qed.

Lemma map_setter_dirty_witness :
  _dirtyShader fetched = VBool false
  ∧ ∃ w', set (H := demo) (H0 := demoTables) "diffuseMap" (demoTexture 50 7) fetched
          = Some (tt, w')
    ∧ _dirtyShader w' = VBool true
    ∧ ∃ w'', set (H := demo) (H0 := demoTables) "diffuseMap" (demoTexture 51 7)
               (set__dirtyShader (VBool false) w')
             = Some (tt, w'')
      ∧ _dirtyShader w'' = VBool false.
Proof.
  split; [vm_compute; reflexivity|].
  destruct (map_setter_dirty (H := demo) "diffuse" 0 3 "" true false fetched
              (demoTexture 50 7))
    as (w' & p & Hset & Hfield & Hdirty & Hfirst & _).
  - apply list_elem_of_lookup. exists 65%nat. reflexivity.
  - vm_compute. reflexivity.
  - exists w'. split; [exact Hset|]. split.
    { rewrite Hdirty, Hfirst; [vm_compute; reflexivity | vm_compute; discriminate]. }
    destruct (map_setter_dirty (H := demo) "diffuse" 0 3 "" true false
                (set__dirtyShader (VBool false) w') (demoTexture 51 7))
      as (w'' & p' & Hset' & _ & Hdirty' & _ & _ & Htextures).
    + apply list_elem_of_lookup. exists 65%nat. reflexivity.
    + unfold field in *. simpl. change ("_" +:+ "diffuse" +:+ "Map") with "_diffuseMap" in *.
      rewrite Hfield. vm_compute. reflexivity.
    + exists w''. split; [exact Hset'|]. rewrite Hdirty'.
      rewrite (Htextures 50%nat "2d" false 7%float 51%nat "2d" false 7%float).
      * vm_compute. reflexivity.
      * unfold field in *. simpl.
        change ("_" +:+ "diffuse" +:+ "Map") with "_diffuseMap" in *. exact Hfield.
      * reflexivity.
Defined.

(** X10: without a map ([<name>Map] is falsy), [_updateMap] registers
    nothing and leaves the material and [_params] as they were, whatever the
    tiling, offset and rotation of the slot. *)
Theorem updateMap_without_map `{Collaborators} (name : string) (uv : float)
    (channels : Z) (defChannel : string) (vertexColor detailMode : bool) (w : state) :
  DefTex2D name uv channels defChannel vertexColor detailMode ∈ materialPropDefinitions →
  truthy (field w ("_" +:+ name +:+ "Map")) = false →
  _updateMap name w = Some (tt, w).
Proof.
  intros Hdef Hmap. apply registered_In in Hdef. simpl in Hdef.
  repeat (apply andb_prop in Hdef as [Hdef _]). apply bool_decide_eq_true in Hdef.
  unfold _updateMap. rewrite (get_internal _ _ _ Hdef eq_refl).
  unfold read, mbind, M_bind, gets. by rewrite Hmap.
Qed.

Lemma updateMap_without_map_witness :
  let w := materialAfter [OpSet "diffuseMapTiling" (Vec2 2 3)] in
  _updateMap (H := demo) (H0 := demoTables) "diffuse" w = Some (tt, w).
Proof.
  intros w.
  apply (updateMap_without_map (H := demo) "diffuse" 0 3 "" true false w).
  - apply list_elem_of_lookup. exists 65%nat. reflexivity.
  - vm_compute. reflexivity.
Defined.

(** X11: [getUniform] throws for a property that [_defineFloat] or
    [_defineObject] defined without a uniform function: [_uniforms[name]] is
    [undefined], and calling it is an error. *)
Theorem getUniform_without_function `{Collaborators} (d : definition) (name : string)
    (device : val) (scene : option Scene) (w : state) :
  d ∈ materialPropDefinitions →
  (∃ defaultValue, d = DefFloat name defaultValue None) ∨ d = DefObject name None →
  getUniform name device scene w = None.
Proof.
  intros Hdef Hd. apply uniformRegistered_In in Hdef.
  unfold getUniform.
  destruct Hd as [[defaultValue ->] | ->]; simpl in Hdef;
    apply bool_decide_eq_true in Hdef; by rewrite Hdef.
Qed.

Lemma getUniform_without_function_witness :
  getUniform (H := demo) (H0 := demoTables) "opacity" VNull (Some demoScene) demoMaterial
  = None.
Proof.
  apply (getUniform_without_function (H := demo) (DefFloat "opacity" 1 None)).
  - apply list_elem_of_lookup. exists 11%nat. reflexivity.
  - left. by exists 1%float.
Defined.

End PropertyFacts.

Import ParameterSets PropertyFacts.

Module TransformFacts.

Section Rows.
Context `{Collaborators}.

(** While the two rows of a transform are filled: the properties are those of
    [w0], the rows are two arrays, they hold [a0] and [a1], and the pair is the
    cached uniform. *)
Definition rowsInv (w0 : state) (key : string) (u : val) (l0 l1 : nat)
    (a0 a1 : list float) (w : state) : Prop :=
  fields w = fields w0
  ∧ l0 ≠ l1
  ∧ f32Store w !! l0 = Some a0
  ∧ f32Store w !! l1 = Some a1
  ∧ _uniformCache w !! key = Some u.

(** The uniform cache holds nothing under [key], or a pair of two arrays of
    three numbers, as the uniform function allocates it. *)
Definition cachedRows (w : state) (key n0 n1 : string) : Prop :=
  _uniformCache w !! key = None
  ∨ ∃ id l0 l1 a0 a1,
      _uniformCache w !! key = Some (VParams id [(n0, l0); (n1, l1)])
      ∧ l0 ≠ l1
      ∧ f32Store w !! l0 = Some a0 ∧ f32Store w !! l1 = Some a1
      ∧ length a0 = 3%nat ∧ length a1 = 3%nat.

Lemma allocUniform_rows w0 key n0 n1 :
  cachedRows w0 key n0 n1 →
  hoare (λ w, w = w0) (_allocUniform key (newUniformPair n0 n1))
    (λ u w, ∃ id l0 l1 a0 a1,
       u = VParams id [(n0, l0); (n1, l1)]
       ∧ length a0 = 3%nat ∧ length a1 = 3%nat
       ∧ rowsInv w0 key u l0 l1 a0 a1 w).
Proof.
  intros Hc w ->.
  unfold _allocUniform, newUniformPair, newFloat32Array3, fresh, mbind, M_bind, gets,
    modify, mret, M_ret.
  destruct Hc as [Hnone | (id & l0 & l1 & a0 & a1 & Hsome & Hne & H0 & H1 & Hlen0 & Hlen1)].
  - rewrite Hnone. simpl. eexists _, _. split; [reflexivity|].
    eexists _, _, _, [0; 0; 0]%float, [0; 0; 0]%float. split; [reflexivity|].
    split; [done|]. split; [done|]. unfold rowsInv. simpl.
    split; [done|]. split; [rewrite length_app; simpl; lia|]. split; [|split].
    + rewrite lookup_app_l by (rewrite length_app; simpl; lia).
      rewrite lookup_app_r by done. by rewrite Nat.sub_diag.
    + rewrite lookup_app_r by (rewrite length_app; simpl; lia).
      rewrite length_app. simpl. by replace (_ - _)%nat with 0%nat by lia.
    + by rewrite lookup_insert_eq.
  - rewrite Hsome. simpl. eexists _, _. split; [reflexivity|].
    exists id, l0, l1, a0, a1. done.
Qed.

Lemma storeF32_row0 w0 key u l0 l1 a0 a1 i x :
  hoare (rowsInv w0 key u l0 l1 a0 a1) (storeF32 (VF32 l0) i (VNum x))
    (λ _, rowsInv w0 key u l0 l1 (<[i := fround x]> a0) a1).
Proof.
  intros w (Hf & Hne & H0 & H1 & Hc).
  unfold storeF32, f32Elements, mbind, M_bind, lift, modify. simpl. rewrite H0. simpl.
  eexists _, _. split; [reflexivity|]. unfold rowsInv. simpl.
  split; [done|]. split; [done|]. split; [|split; [|done]].
  - apply list_lookup_insert_eq. by eapply lookup_lt_Some.
  - by rewrite list_lookup_insert_ne.
Qed.

Lemma storeF32_row1 w0 key u l0 l1 a0 a1 i x :
  hoare (rowsInv w0 key u l0 l1 a0 a1) (storeF32 (VF32 l1) i (VNum x))
    (λ _, rowsInv w0 key u l0 l1 a0 (<[i := fround x]> a1)).
Proof.
  intros w (Hf & Hne & H0 & H1 & Hc).
  unfold storeF32, f32Elements, mbind, M_bind, lift, modify. simpl. rewrite H1. simpl.
  eexists _, _. split; [reflexivity|]. unfold rowsInv. simpl.
  split; [done|]. split; [done|]. split; [|split; [|done]].
  - by rewrite list_lookup_insert_ne.
  - apply list_lookup_insert_eq. by eapply lookup_lt_Some.
Qed.

Lemma mapTransform_rows w0 name uv channels defChannel vertexColor detailMode
    device scene tid tx ty oid ox oy r :
  DefTex2D name uv channels defChannel vertexColor detailMode ∈ materialPropDefinitions →
  field w0 ("_" +:+ name +:+ "MapTiling") = VObj tid (OVec2 tx ty) →
  field w0 ("_" +:+ name +:+ "MapOffset") = VObj oid (OVec2 ox oy) →
  field w0 ("_" +:+ name +:+ "MapRotation") = VNum r →
  cachedRows w0 (name +:+ "MapTransform")
    ("texture_" +:+ (name +:+ "MapTransform") +:+ "0")
    ("texture_" +:+ (name +:+ "MapTransform") +:+ "1") →
  identityTransform tx ty ox oy r = false →
  hoare (λ w, w = w0) (getUniform (name +:+ "MapTransform") device scene)
    (λ u w, ∃ id l0 l1,
       u = VParams id [("texture_" +:+ (name +:+ "MapTransform") +:+ "0", l0);
                       ("texture_" +:+ (name +:+ "MapTransform") +:+ "1", l1)]
       ∧ rowsInv w0 (name +:+ "MapTransform") u l0 l1
           [fround (Math_cos (r * DEG_TO_RAD) * tx);
            fround (- Math_sin (r * DEG_TO_RAD) * ty);
            fround ox]%float
           [fround (Math_sin (r * DEG_TO_RAD) * tx);
            fround (Math_cos (r * DEG_TO_RAD) * ty);
            fround (1 - ty - oy)]%float w).
Proof.
  intros Hdef Htiling Hoffset Hrotation Hcache Hid.
  apply registered_In in Hdef. simpl in Hdef.
  repeat (apply andb_prop in Hdef as [Hdef ?]).
  repeat match goal with
         | H : bool_decide _ = true |- _ => apply bool_decide_eq_true in H
         end.
  unfold getUniform.
  match goal with Hu : alist_get _ (_uniforms _) = _ |- _ => rewrite Hu end.
  unfold runUniform.
  repeat match goal with
         | Ha : alist_get ?k (accessors _) = Some _ |- context [get ?k] =>
             rewrite (get_internal _ _ _ Ha eq_refl)
         end.
  repeat match goal with
         | Ha : alist_get _ _ = Some _ |- _ => clear Ha
         end.
  eapply hoare_bind; [apply read_same|].
  intros tiling. apply hoare_pure_pre; intros ->. rewrite Htiling.
  eapply hoare_bind; [apply read_same|].
  intros offset. apply hoare_pure_pre; intros ->. rewrite Hoffset.
  eapply hoare_bind; [apply read_same|].
  intros rotation. apply hoare_pure_pre; intros ->. rewrite Hrotation.
  unfold identityTransform in Hid.
  repeat (first
    [ cbv beta iota;
      lazymatch goal with
      | |- hoare _ (_allocUniform _ _ ≫= _) _ =>
          eapply hoare_bind; [by apply allocUniform_rows |];
          intros ?; do 5 (apply hoare_exists_pre; intros ?);
          apply hoare_pure_pre; intros ->;
          apply hoare_pure_pre; intros ?; apply hoare_pure_pre; intros ?
      | |- hoare _ (storeF32 _ _ _ ≫= _) _ =>
          first [ eapply hoare_bind; [apply storeF32_row0 | intros ?]
                | eapply hoare_bind; [apply storeF32_row1 | intros ?] ]
      | |- hoare _ (mret _) _ => apply hoare_ret; intros ? ?
      end
    | hoare_pure_step ]).
  all: simpl in *;
    try (revert Hid;
         repeat match goal with
                | Hb : PrimFloat.eqb _ _ = true |- _ => rewrite Hb; clear Hb
                end;
         simpl; discriminate).
  all: eexists _, _, _; (split; [reflexivity|]);
    rewrite !three_stores in * by done; assumption.
Qed.

End Rows.

(** X12: for a texture slot whose tiling [(tx, ty)], offset [(ox, oy)] and
    rotation [r] are not those of the identity, the transform uniform is a
    pair of two different arrays that hold the rows
    [(cos a * tx, -sin a * ty, ox)] and [(sin a * tx, cos a * ty, 1 - ty - oy)]
    with [a = r * DEG_TO_RAD], each number as the array stores it; the pair is
    the cached uniform, and the properties are not touched. *)
Theorem map_transform_rows `{Collaborators} (name : string) (uv : float)
    (channels : Z) (defChannel : string) (vertexColor detailMode : bool)
    (w : state) (device : val) (scene : option Scene)
    (tid oid : nat) (tx ty ox oy r : float) :
  DefTex2D name uv channels defChannel vertexColor detailMode ∈ materialPropDefinitions →
  field w ("_" +:+ name +:+ "MapTiling") = VObj tid (OVec2 tx ty) →
  field w ("_" +:+ name +:+ "MapOffset") = VObj oid (OVec2 ox oy) →
  field w ("_" +:+ name +:+ "MapRotation") = VNum r →
  cachedRows w (name +:+ "MapTransform")
    ("texture_" +:+ (name +:+ "MapTransform") +:+ "0")
    ("texture_" +:+ (name +:+ "MapTransform") +:+ "1") →
  identityTransform tx ty ox oy r = false →
  ∃ id l0 l1 w',
    getUniform (name +:+ "MapTransform") device scene w
    = Some (VParams id [("texture_" +:+ (name +:+ "MapTransform") +:+ "0", l0);
                        ("texture_" +:+ (name +:+ "MapTransform") +:+ "1", l1)], w')
    ∧ l0 ≠ l1
    ∧ f32Store w' !! l0
      = Some [fround (Math_cos (r * DEG_TO_RAD) * tx);
              fround (- Math_sin (r * DEG_TO_RAD) * ty);
              fround ox]%float
    ∧ f32Store w' !! l1
      = Some [fround (Math_sin (r * DEG_TO_RAD) * tx);
              fround (Math_cos (r * DEG_TO_RAD) * ty);
              fround (1 - ty - oy)]%float
    ∧ _uniformCache w' !! (name +:+ "MapTransform")
      = Some (VParams id [("texture_" +:+ (name +:+ "MapTransform") +:+ "0", l0);
                          ("texture_" +:+ (name +:+ "MapTransform") +:+ "1", l1)])
    ∧ fields w' = fields w.
Proof.
  intros Hdef Htiling Hoffset Hrotation Hcache Hid.
  destruct (mapTransform_rows w name uv channels defChannel vertexColor detailMode
              device scene tid tx ty oid ox oy r Hdef Htiling Hoffset Hrotation Hcache
              Hid w eq_refl)
    as (u & w' & Hrun & id & l0 & l1 & -> & Hf & Hne & H0 & H1 & Hc).
  by exists id, l0, l1, w'.
Qed.

Lemma map_transform_rows_witness :
  let w := materialAfter [OpSet "diffuseMapTiling" (Vec2 2 3);
                          OpSet "diffuseMapOffset" (Vec2 0.5 0.25);
                          OpSet "diffuseMapRotation" (VNum 90)] in
  ∃ id l0 l1 w',
    getUniform (H := demo) (H0 := demoTables) "diffuseMapTransform" VUndefined None w
    = Some (VParams id [("texture_diffuseMapTransform0", l0);
                        ("texture_diffuseMapTransform1", l1)], w')
    ∧ f32Store w' !! l0
      = Some [fround (Collaborators := demo)
                (Math_cos (Collaborators := demo) (90 * DEG_TO_RAD (Collaborators := demo)) * 2);
              fround (Collaborators := demo)
                (- Math_sin (Collaborators := demo) (90 * DEG_TO_RAD (Collaborators := demo)) * 3);
              fround (Collaborators := demo) 0.5]%float
    ∧ f32Store w' !! l1
      = Some [fround (Collaborators := demo)
                (Math_sin (Collaborators := demo) (90 * DEG_TO_RAD (Collaborators := demo)) * 2);
              fround (Collaborators := demo)
                (Math_cos (Collaborators := demo) (90 * DEG_TO_RAD (Collaborators := demo)) * 3);
              fround (Collaborators := demo) (1 - 3 - 0.25)]%float.
Proof.
  intros w.
  destruct (map_transform_rows (H := demo) "diffuse" 0 3 "" true false
              w VUndefined None 7 8 2 3 0.5 0.25 90)
    as (id & l0 & l1 & w' & Hrun & _ & Hrow0 & Hrow1 & _).
  - apply list_elem_of_lookup. exists 65%nat. reflexivity.
  - vm_compute. reflexivity.
  - vm_compute. reflexivity.
  - vm_compute. reflexivity.
  - left. vm_compute. reflexivity.
  - vm_compute. reflexivity.
  - exists id, l0, l1, w'. split; [exact Hrun|]. split; [exact Hrow0 | exact Hrow1].
Defined.

Section Environment.
Context `{Collaborators}.

#[local] Existing Instance paramFrame_preorder.


Lemma object_accessor name u :
  DefObject name u ∈ materialPropDefinitions →
  get name = read ("_" +:+ name).
Proof.
  intros Hdef%registered_In. simpl in Hdef. apply bool_decide_eq_true in Hdef.
  exact (get_internal _ _ _ Hdef eq_refl).
Qed.





Lemma get_envAtlas : get "envAtlas" = read "_envAtlas".
Proof.
  apply (object_accessor "envAtlas" None).
  apply list_elem_of_lookup. exists 90%nat. reflexivity.
Qed.

(** [(this.envAtlas && !isPhong) || this.cubeMap || this.sphereMap] *)
Definition hasLocalEnvOverride (w : state) : val :=
  let isPhong := strict_eq (field w "_shadingModel") (VNum SPECULAR_PHONG) in
  js_or (js_or (js_and (field w "_envAtlas") (VBool (negb isPhong))) (field w "_cubeMap"))
    (field w "_sphereMap").





End Environment.







End TransformFacts.

Import ParameterSets PropertyFacts TransformFacts.

(* ===================================================================== *)
(** * Prefiltered cubemaps and defaults                                   *)
(* ===================================================================== *)

Module CubemapFacts.

(** The six faces after the loop of the setter: [cubemaps[i]] where it is
    identical to [value[i] || null], and [value[i] || null] elsewhere. *)
Definition mergeFaces (elems vs : list val) : list val :=
  (λ i : nat,
     let e := default VUndefined (elems !! i) in
     let v := js_or (default VUndefined (vs !! i)) VNull in
     if strict_eq e v then e else v) <$> [0; 1; 2; 3; 4; 5]%nat.

(** Whether no face differs from the stored one ([cubemaps[i] !== v] never
    holds). *)
Definition sameFaces (elems vs : list val) : bool :=
  forallb (λ i : nat, strict_eq (default VUndefined (elems !! i))
                        (js_or (default VUndefined (vs !! i)) VNull))
    [0; 1; 2; 3; 4; 5]%nat.

Section Cubemaps.
Context `{Collaborators}.

Lemma cubemapFaces_run (id : nat) (vs elems : list val) :
  length elems = 6%nat →
  cubemapFaces (VArray id vs) [0; 1; 2; 3; 4; 5]%nat (elems, false, true)
  = Some (mergeFaces elems vs, negb (sameFaces elems vs),
          forallb truthy (mergeFaces elems vs)).
Proof.
  intros Hlen.
  destruct elems as [|e0 [|e1 [|e2 [|e3 [|e4 [|e5 [|]]]]]]]; try discriminate Hlen.
  unfold sameFaces, mergeFaces, cubemapFaces, get_index, strict_ne.
  cbn -[strict_eq js_or truthy].
  generalize (js_or (default VUndefined (vs !! 0%nat)) VNull).
  generalize (js_or (default VUndefined (vs !! 1%nat)) VNull).
  generalize (js_or (default VUndefined (vs !! 2%nat)) VNull).
  generalize (js_or (default VUndefined (vs !! 3%nat)) VNull).
  generalize (js_or (default VUndefined (vs !! 4%nat)) VNull).
  generalize (js_or (default VUndefined (vs !! 5%nat)) VNull).
  intros v5 v4 v3 v2 v1 v0.
  destruct (strict_eq e0 v0) eqn:E0, (strict_eq e1 v1) eqn:E1, (strict_eq e2 v2) eqn:E2,
           (strict_eq e3 v3) eqn:E3, (strict_eq e4 v4) eqn:E4, (strict_eq e5 v5) eqn:E5;
    repeat (cbn -[strict_eq truthy]; rewrite ?E0, ?E1, ?E2, ?E3, ?E4, ?E5);
    by rewrite ?andb_true_r, ?andb_assoc.
Qed.

Lemma sameFaces_merge (elems vs : list val) :
  length elems = 6%nat → sameFaces elems vs = true → mergeFaces elems vs = elems.
Proof.
  intros Hlen.
  destruct elems as [|e0 [|e1 [|e2 [|e3 [|e4 [|e5 [|]]]]]]]; try discriminate Hlen.
  unfold sameFaces, mergeFaces. cbn -[strict_eq js_or].
  rewrite !andb_true_iff. intros (-> & -> & -> & -> & -> & -> & _). reflexivity.
Qed.

Lemma prefiltered_accessor :
  alist_get "prefilteredCubemaps" (accessors moduleTables)
  = Some (mkAccessor GetPrefilteredCubemaps SetPrefilteredCubemaps).
Proof. vm_compute. reflexivity. Qed.

Lemma envAtlas_accessor :
  alist_get "envAtlas" (accessors moduleTables)
  = Some (valueAccessor "envAtlas" DirtyObject).
Proof.
  assert (DefObject "envAtlas" None ∈ materialPropDefinitions) as Hdef.
  { apply list_elem_of_lookup. exists 90%nat. reflexivity. }
  apply registered_In in Hdef. simpl in Hdef. by apply bool_decide_eq_true in Hdef.
Qed.

Lemma setPrefilteredCubemaps_run (w : state) (id id' : nat) (elems vs : list val) :
  field w "_prefilteredCubemaps" = VArray id elems →
  length elems = 6%nat →
  set "prefilteredCubemaps" (VArray id' vs) w
  = (write "_prefilteredCubemaps" (VArray id (mergeFaces elems vs));;
     if negb (sameFaces elems vs) then
       (if forallb truthy (mergeFaces elems vs) then
          target ← read "_envAtlas";
          setValue "_envAtlas" DirtyObject
            (generatePrefilteredAtlas (mergeFaces elems vs) target)
        else
          atlas ← read "_envAtlas";
          if truthy atlas then
            emit (EvDestroy atlas);;
            setValue "_envAtlas" DirtyObject VNull
          else mret tt);;
       modify (set__dirtyShader (VBool true))
     else mret tt) w.
Proof.
  intros Hfield Hlen. unfold set. rewrite prefiltered_accessor.
  unfold setPrefilteredCubemaps, setDefined.
  rewrite envAtlas_accessor. cbn [acc_set valueAccessor].
  generalize TransformFacts.get_envAtlas. generalize (get "envAtlas"). intros getAtlas ->.
  change ("_" +:+ "envAtlas") with "_envAtlas".
  unfold mbind at 1, M_bind at 1, read at 1. cbn [gets]. rewrite Hfield.
  cbn [truthy]. unfold mbind at 1, M_bind at 1. cbn [mret M_ret].
  unfold mbind at 1, M_bind at 1. rewrite cubemapFaces_run by done.
  cbn [lift fmap option_fmap option_map].
  reflexivity.
Qed.

End Cubemaps.


(** X15: assigning [prefilteredCubemaps] an array whose six faces
    ([value[i] || null]) are identical to the stored ones changes nothing: the
    material is as it was, no atlas is generated or destroyed and
    [_dirtyShader] is not set. *)
Theorem same_cubemaps_change_nothing `{Collaborators} (w : state) (id id' : nat)
    (elems vs : list val) :
  field w "_prefilteredCubemaps" = VArray id elems →
  length elems = 6%nat →
  sameFaces elems vs = true →
  set "prefilteredCubemaps" (VArray id' vs) w = Some (tt, w).
Proof.
  intros Hfield Hlen Hsame.
  rewrite (setPrefilteredCubemaps_run w id id' elems vs Hfield Hlen).
  rewrite Hsame, (sameFaces_merge elems vs Hlen Hsame).
  unfold write, mbind, M_bind, modify, mret, M_ret. cbn [negb].
  unfold field in Hfield.
  destruct (fields w !! "_prefilteredCubemaps") as [v|] eqn:Hlookup; [|discriminate Hfield].
  simpl in Hfield. subst v. rewrite insert_id by done. by destruct w.
Qed.

Lemma same_cubemaps_change_nothing_witness :
  let w := materialAfter [OpSet "prefilteredCubemaps"
                            (VArray 70 [demoTexture 71 7; demoTexture 72 7])] in
  set (H := demo) (H0 := demoTables) "prefilteredCubemaps"
    (VArray 80 [demoTexture 71 7; demoTexture 72 7; VNull]) w = Some (tt, w).
Proof.
  intros w.
  apply (same_cubemaps_change_nothing (H := demo) w 53 80
           [demoTexture 71 7; demoTexture 72 7; VNull; VNull; VNull; VNull]).
  - vm_compute. reflexivity.
  - reflexivity.
  - vm_compute. reflexivity.
Defined.

(** X16: assigning [prefilteredCubemaps] an array of which a face differs
    from the stored one keeps the stored array object, gives it the new faces
    and sets [_dirtyShader]. When all six faces are truthy, [envAtlas] becomes
    the atlas [generatePrefilteredAtlas] makes of them (with the old atlas as
    target) and nothing is destroyed; otherwise an atlas the material holds is
    destroyed and [envAtlas] is [null]. *)
Theorem new_cubemaps_rebuild_atlas `{Collaborators} (w : state) (id id' : nat)
    (elems vs : list val) :
  field w "_prefilteredCubemaps" = VArray id elems →
  length elems = 6%nat →
  sameFaces elems vs = false →
  let cubemaps := mergeFaces elems vs in
  let atlas := field w "_envAtlas" in
  ∃ w', set "prefilteredCubemaps" (VArray id' vs) w = Some (tt, w')
    ∧ field w' "_prefilteredCubemaps" = VArray id cubemaps
    ∧ _dirtyShader w' = VBool true
    ∧ (forallb truthy cubemaps = true →
       trace w' = trace w
       ∧ (field w' "_envAtlas" = generatePrefilteredAtlas cubemaps atlas
          ∨ strict_eq atlas (generatePrefilteredAtlas cubemaps atlas) = true
            ∧ field w' "_envAtlas" = atlas))
    ∧ (forallb truthy cubemaps = false →
       trace w' = trace w ++ (if truthy atlas then [EvDestroy atlas] else [])
       ∧ field w' "_envAtlas" = (if truthy atlas then VNull else atlas)).
Proof.
  intros Hfield Hlen Hsame cubemaps atlas.
  rewrite (setPrefilteredCubemaps_run w id id' elems vs Hfield Hlen).
  rewrite Hsame. fold cubemaps. cbn [negb].
  unfold write. unfold mbind at 1, M_bind at 1. cbn [modify].
  set (w1 := set_fields _ w).
  assert (field w1 "_envAtlas" = atlas) as Hatlas.
  { unfold w1, field, atlas. simpl. by rewrite lookup_insert_ne. }
  assert (field w1 "_prefilteredCubemaps" = VArray id cubemaps) as Hcube.
  { unfold w1. apply field_write. }
  assert (trace w1 = trace w) as Htrace by reflexivity.
  clearbody w1. clear Hfield.
  unfold setValue, markDirty, read, write, emit, strict_ne.
  unfold mbind, M_bind, gets, modify, lift, mret, M_ret. cbn [applyDirty].
  destruct (forallb truthy cubemaps); cbv beta iota; rewrite ?Hatlas.
  - destruct (strict_eq atlas (generatePrefilteredAtlas cubemaps atlas)) eqn:Heq;
      cbn [negb].
    + eexists. split; [reflexivity|].
      split; [exact Hcube|]. split; [reflexivity|].
      split; [|intros [=]]. intros _. split; [exact Htrace|]. right. split; [done|].
      exact Hatlas.
    + destruct (truthy (_dirtyShader w1)); cbv beta iota;
        (eexists; split; [reflexivity|]);
        (split; [unfold field in *; simpl; by rewrite lookup_insert_ne|]);
        (split; [reflexivity|]); (split; [|intros [=]]); intros _;
        (split; [exact Htrace|]); left; apply field_write.
  - destruct (truthy atlas) eqn:Htruthy; cbv beta iota; rewrite ?Hatlas.
    + change (field (set_trace (trace w1 ++ [EvDestroy atlas]) w1) "_envAtlas")
        with (field w1 "_envAtlas"). rewrite Hatlas.
      assert (strict_eq atlas VNull = false) as ->.
      { clear -Htruthy. by destruct atlas. }
      cbn [negb]. cbv beta iota. cbn [_dirtyShader set_trace].
      destruct (truthy (_dirtyShader w1)); cbv beta iota;
        (eexists; split; [reflexivity|]);
        (split; [unfold field in *; simpl; by rewrite lookup_insert_ne|]);
        (split; [reflexivity|]); (split; [intros [=]|]); intros _;
        (split; [simpl; by rewrite Htrace|]); apply field_write.
    + eexists. split; [reflexivity|].
      split; [exact Hcube|]. split; [reflexivity|].
      split; [intros [=]|]. intros _. split; [|exact Hatlas].
      simpl. by rewrite Htrace, app_nil_r.
Qed.

Lemma new_cubemaps_rebuild_atlas_witness :
  let six := [demoTexture 71 7; demoTexture 72 7; demoTexture 73 7;
              demoTexture 74 7; demoTexture 75 7; demoTexture 76 7] in
  ∃ w', set (H := demo) (H0 := demoTables) "prefilteredCubemaps" (VArray 70 six)
          demoMaterial = Some (tt, w')
    ∧ field w' "_prefilteredCubemaps" = VArray 53 six
    ∧ _dirtyShader w' = VBool true
    ∧ field w' "_envAtlas"
      = generatePrefilteredAtlas (Collaborators := demo) six VNull.
Proof.
  intros six.
  destruct (new_cubemaps_rebuild_atlas (H := demo) demoMaterial 53 70
              (replicate 6 VNull) six)
    as (w' & Hrun & Hcube & Hdirty & Hcomplete & _).
  - vm_compute. reflexivity.
  - reflexivity.
  - vm_compute. reflexivity.
  - exists w'. split; [exact Hrun|]. split; [exact Hcube|]. split; [exact Hdirty|].
    destruct Hcomplete as [_ [Hatlas | [Hsame _]]].
    + vm_compute. reflexivity.
    + exact Hatlas.
    + vm_compute in Hsame. discriminate Hsame.
Defined.

End CubemapFacts.

Import ParameterSets PropertyFacts TransformFacts CubemapFacts.

Module ResetFacts.

(** What [reset] leaves in [_<name>] for the constructor [c] of [_props]:
    the default value itself, or a new object with the content of the
    default, numbered between the [nextId] before and after. *)
Definition restored (w w' : state) (name : string) (c : ctorFn) : Prop :=
  match c with
  | CtorValue v => field w' ("_" +:+ name) = v
  | CtorClone v =>
      ∃ id id0 o, v = VObj id0 o ∧ field w' ("_" +:+ name) = VObj id o
                  ∧ (nextId w ≤ id < nextId w')%nat
  | CtorEmptySlice =>
      ∃ id, field w' ("_" +:+ name) = VArray id (replicate 6 VNull)
            ∧ (nextId w ≤ id < nextId w')%nat
  end.

(** Whether the constructor makes a new object. *)
Definition allocated (c : ctorFn) : bool :=
  match c with
  | CtorValue _ => false
  | CtorClone _ | CtorEmptySlice => true
  end.

(** The identity of an object. *)
Definition identity (v : val) : option nat :=
  match v with
  | VObj id _ | VArray id _ | VParams id _ => Some id
  | _ => None
  end.

Section Reset.
Context `{Collaborators}.

Lemma props_unique : NoDup (_props moduleTables).*1.
Proof. refine (bool_decide_unpack _ _). vm_compute. exact I. Qed.

Lemma internal_name_inj (a b : string) : "_" +:+ a = "_" +:+ b → a = b.
Proof. intros Heq. by injection Heq. Qed.

Lemma restored_identity w w' name c :
  restored w w' name c → allocated c = true →
  ∃ id, identity (field w' ("_" +:+ name)) = Some id ∧ (nextId w ≤ id < nextId w')%nat.
Proof.
  destruct c as [v | v |]; simpl; [done | |].
  - intros (id & id0 & o & _ & -> & Hid) _. by exists id.
  - intros (id & -> & Hid) _. by exists id.
Qed.

Lemma restored_later w0 w w' name c :
  (nextId w0 ≤ nextId w)%nat → restored w w' name c → restored w0 w' name c.
Proof.
  intros Hle. destruct c as [v | v |]; simpl; [done | |].
  - intros (id & id0 & o & ? & ? & ?). exists id, id0, o. repeat split; try done; lia.
  - intros (id & ? & ?). exists id. repeat split; try done; lia.
Qed.

(** The loop of [reset] over a table without repeated names. *)
Lemma reset_loop_restores (l : list (string * ctorFn)) (w : state) :
  NoDup l.*1 →
  forallb (λ p : string * ctorFn, constructible p.2) l = true →
  ∃ w', forEach l (λ '(name, c), v ← construct c; write ("_" +:+ name) v) w = Some (tt, w')
    ∧ (nextId w ≤ nextId w')%nat
    ∧ (∀ k, (∀ name, name ∈ l.*1 → k ≠ "_" +:+ name) → fields w' !! k = fields w !! k)
    ∧ (∀ name c, (name, c) ∈ l → restored w w' name c)
    ∧ (∀ n1 c1 n2 c2, (n1, c1) ∈ l → (n2, c2) ∈ l → n1 ≠ n2 →
         allocated c1 = true → allocated c2 = true →
         identity (field w' ("_" +:+ n1)) ≠ identity (field w' ("_" +:+ n2))).
Proof.
  revert w. induction l as [|[name c] l IH]; intros w Hnd Hl.
  - exists w. split; [done|]. split; [done|]. split; [done|].
    split; intros; by match goal with Hin : _ ∈ [] |- _ => apply elem_of_nil in Hin end.
  - simpl in Hnd, Hl. apply NoDup_cons in Hnd as [Hname Hnd].
    apply andb_prop in Hl as [Hc Hl].
    assert (∃ w1, (v ← construct c; write ("_" +:+ name) v) w = Some (tt, w1)
                  ∧ (nextId w ≤ nextId w1)%nat
                  ∧ (∀ k, k ≠ "_" +:+ name → fields w1 !! k = fields w !! k)
                  ∧ restored w w1 name c
                  ∧ (allocated c = true →
                     identity (field w1 ("_" +:+ name)) = Some (nextId w)
                     ∧ nextId w1 = S (nextId w)))
      as (w1 & Hrun & Hle1 & Hframe1 & Hres1 & Hid1).
    { destruct c as [v | [| | | | |id0 o| | |] |]; try discriminate Hc;
        (eexists; split; [reflexivity|]); simpl.
      - split; [done|]. split; [intros k Hk; by rewrite lookup_insert_ne|].
        split; [apply field_write | done].
      - split; [lia|]. split; [intros k Hk; by rewrite lookup_insert_ne|].
        split.
        + exists (nextId w), id0, o. split; [done|]. split; [apply field_write | lia].
        + intros _. split; [|done]. unfold field. simpl. by rewrite lookup_insert_eq.
      - split; [lia|]. split; [intros k Hk; by rewrite lookup_insert_ne|].
        split.
        + exists (nextId w). split; [apply field_write | lia].
        + intros _. split; [|done]. unfold field. simpl. by rewrite lookup_insert_eq. }
    destruct (IH w1 Hnd Hl) as (w' & Hrun' & Hle' & Hframe' & Hres' & Hdist').
    assert (field w' ("_" +:+ name) = field w1 ("_" +:+ name)) as Hhead.
    { unfold field. rewrite Hframe'; [done|].
      intros name' Hin Heq%internal_name_inj. by subst. }
    exists w'. split; [|split; [|split; [|split]]].
    + cbn [forEach]. by rewrite (bind_run _ _ _ _ _ Hrun).
    + lia.
    + intros k Hk. rewrite Hframe'.
      * apply Hframe1. apply Hk. simpl. by left.
      * intros name' Hin. apply Hk. simpl. by right.
    + intros name' c' [[= -> ->] | Hin]%elem_of_cons.
      * clear Hid1 Hrun Hc. destruct c as [v | v |]; simpl in *.
        -- by rewrite Hhead.
        -- destruct Hres1 as (id & id0 & o & ? & ? & ?). exists id, id0, o.
           rewrite Hhead. repeat split; try done; lia.
        -- destruct Hres1 as (id & ? & ?). exists id.
           rewrite Hhead. repeat split; try done; lia.
      * by apply (restored_later w w1), Hres'.
    + intros n1 c1 n2 c2 [[= -> ->] | Hin1]%elem_of_cons [[= -> ->] | Hin2]%elem_of_cons
        Hne Ha1 Ha2; [done | | |].
      * destruct (Hid1 Ha1) as [Hid Hnext]. rewrite Hhead, Hid.
        destruct (restored_identity _ _ _ _ (Hres' _ _ Hin2) Ha2) as (id & -> & Hrange).
        intros [= Heq]. lia.
      * destruct (Hid1 Ha2) as [Hid Hnext]. rewrite Hhead, Hid.
        destruct (restored_identity _ _ _ _ (Hres' _ _ Hin1) Ha1) as (id & -> & Hrange).
        intros [= Heq]. lia.
      * by apply (Hdist' n1 c1 n2 c2).
Qed.

End Reset.

(** X17: [reset] returns and leaves every property of [_props] at its
    default: a value property holds the default value, an aggregate property a
    new object with the content of the default; no two of these new objects are
    the same object. The uniform cache is empty afterwards, and
    [_dirtyShader] is not touched. *)
Theorem reset_restores_defaults `{Collaborators} (w : state) :
  ∃ w', reset w = Some (tt, w')
    ∧ (∀ name c, (name, c) ∈ _props moduleTables → restored w w' name c)
    ∧ (∀ n1 c1 n2 c2,
         (n1, c1) ∈ _props moduleTables → (n2, c2) ∈ _props moduleTables → n1 ≠ n2 →
         allocated c1 = true → allocated c2 = true →
         identity (field w' ("_" +:+ n1)) ≠ identity (field w' ("_" +:+ n2)))
    ∧ _uniformCache w' = ∅
    ∧ _dirtyShader w' = _dirtyShader w.
Proof.
  destruct (reset_loop_restores (_props moduleTables) w props_unique props_constructible)
    as (w1 & Hrun & Hle & _ & Hres & Hdist).
  destruct (reset_loop_run (_props moduleTables) w props_constructible)
    as (w1' & Hrun' & _ & Hdirty).
  rewrite Hrun in Hrun'. injection Hrun' as <-.
  unfold reset. rewrite (bind_run _ _ _ _ _ Hrun).
  eexists. split; [reflexivity|]. simpl. clear Hrun.
  split; [|split; [exact Hdist | by split]].
  intros name c Hin. specialize (Hres name c Hin).
  destruct c as [v | v |]; simpl in *; [exact Hres | |].
  - destruct Hres as (id & id0 & o & ? & ? & ?). exists id, id0, o.
    repeat split; try done; lia.
  - destruct Hres as (id & ? & ?). exists id. repeat split; try done; lia.
Qed.

End ResetFacts.

Import ParameterSets PropertyFacts TransformFacts CubemapFacts ResetFacts.

Module RegistrationFacts.

(** What the uniform functions leave alone: the sets and [parameters]. *)
Definition uniformFrame (w w' : state) : Prop :=
  setStore w' = setStore w ∧ _params w' = _params w ∧ parameters w' = parameters w.

#[local] Instance uniformFrame_preorder : PreOrder uniformFrame.
Proof.
  split.
  - by intros w.
  - intros w1 w2 w3 (?&?&?) (?&?&?). unfold uniformFrame. repeat split; congruence.
Qed.

Section Registration.
Context `{Collaborators}.

Lemma preserves_getUniform_uniformFrame name device scene :
  preserves uniformFrame (getUniform name device scene).
Proof.
  repeat preserves_step ltac:(idtac; lazymatch goal with
    | |- preserves _ (modify _) => apply preserves_modify; intros ?; done
    end).
Qed.

Lemma setParameter_run (n : string) (value : val) (w : state) (s : list pkey) :
  setStore w !! _params w = Some s →
  _setParameter (VStr n) value w
  = Some (tt, set_parameters (setParameter (VStr n) value (parameters w))
                (set_setStore (<[_params w := set_add (KName n) s]> (setStore w)) w)).
Proof.
  intros Hs. unfold _setParameter, mbind, M_bind, lift, gets, modify. simpl.
  by rewrite (setElements_run _ _ _ Hs).
Qed.

Lemma projectionBox_uniform w0 device scene x y z x' y' z' :
  getMin (field w0 "_cubeMapProjectionBox") = Some (x, y, z) →
  getMax (field w0 "_cubeMapProjectionBox") = Some (x', y', z') →
  cachedRows w0 "cubeMapProjectionBox" "envBoxMin" "envBoxMax" →
  hoare (λ w, w = w0) (getUniform "cubeMapProjectionBox" device scene)
    (λ u w, ∃ id l0 l1,
       u = VParams id [("envBoxMin", l0); ("envBoxMax", l1)]
       ∧ rowsInv w0 "cubeMapProjectionBox" u l0 l1
           [fround x; fround y; fround z] [fround x'; fround y'; fround z'] w).
Proof.
  intros Hmin Hmax Hcache.
  assert (DefObject "cubeMapProjectionBox" (Some UCubeMapProjectionBox)
          ∈ materialPropDefinitions) as Hdef.
  { apply list_elem_of_lookup. exists 33%nat. reflexivity. }
  pose proof (uniformRegistered_In _ Hdef) as Huni. simpl in Huni.
  apply bool_decide_eq_true in Huni.
  unfold getUniform. rewrite Huni. unfold runUniform.
  rewrite (object_accessor _ _ Hdef).
  change ("_" +:+ "cubeMapProjectionBox") with "_cubeMapProjectionBox".
  clear Hdef Huni.
  eapply hoare_bind; [by apply allocUniform_rows|].
  intros u. do 5 (apply hoare_exists_pre; intros ?).
  apply hoare_pure_pre; intros ->.
  apply hoare_pure_pre; intros ?. apply hoare_pure_pre; intros ?.
  assert (∀ l0 l1 a0 a1 u,
            hoare (rowsInv w0 "cubeMapProjectionBox" u l0 l1 a0 a1)
              (read "_cubeMapProjectionBox")
              (λ v w, v = field w0 "_cubeMapProjectionBox"
                      ∧ rowsInv w0 "cubeMapProjectionBox" u l0 l1 a0 a1 w)) as Hread.
  { intros l0 l1 a0 a1 u w Hw. eexists _, _. split; [reflexivity|]. split; [|done].
    unfold field. by destruct Hw as [-> _]. }
  repeat (first
    [ cbv beta iota;
      lazymatch goal with
      | |- hoare _ (read _ ≫= _) _ =>
          eapply hoare_bind; [apply Hread | intros ?; apply hoare_pure_pre; intros ->];
          rewrite ?Hmin, ?Hmax
      | |- hoare _ (storeF32 _ _ _ ≫= _) _ =>
          first [ eapply hoare_bind; [apply storeF32_row0 | intros ?]
                | eapply hoare_bind; [apply storeF32_row1 | intros ?] ]
      | |- hoare _ (mret _) _ => apply hoare_ret; intros ? ?
      end
    | hoare_pure_step ]).
  eexists _, _, _. split; [reflexivity|].
  rewrite !three_stores in * by done. assumption.
Qed.

End Registration.

(** X18: for a texture slot with a map and a transform that is not the
    identity, [_updateMap] registers three parameters, in this order: the
    sampler [texture_<name>Map] with the map, then the two rows
    [texture_<name>MapTransform0] and [texture_<name>MapTransform1] with the
    arrays of the transform uniform. *)
Theorem updateMap_registers_transform `{Collaborators} (name : string) (uv : float)
    (channels : Z) (defChannel : string) (vertexColor detailMode : bool)
    (w : state) (tid oid : nat) (tx ty ox oy r : float) (map : val) (s : list pkey) :
  DefTex2D name uv channels defChannel vertexColor detailMode ∈ materialPropDefinitions →
  field w ("_" +:+ name +:+ "Map") = map →
  truthy map = true →
  field w ("_" +:+ name +:+ "MapTiling") = VObj tid (OVec2 tx ty) →
  field w ("_" +:+ name +:+ "MapOffset") = VObj oid (OVec2 ox oy) →
  field w ("_" +:+ name +:+ "MapRotation") = VNum r →
  cachedRows w (name +:+ "MapTransform")
    ("texture_" +:+ (name +:+ "MapTransform") +:+ "0")
    ("texture_" +:+ (name +:+ "MapTransform") +:+ "1") →
  identityTransform tx ty ox oy r = false →
  setStore w !! _params w = Some s →
  let sampler := "texture_" +:+ name +:+ "Map" in
  let row0 := "texture_" +:+ (name +:+ "MapTransform") +:+ "0" in
  let row1 := "texture_" +:+ (name +:+ "MapTransform") +:+ "1" in
  ∃ w' id l0 l1,
    _updateMap name w = Some (tt, w')
    ∧ _uniformCache w' !! (name +:+ "MapTransform")
      = Some (VParams id [(row0, l0); (row1, l1)])
    ∧ _params w' = _params w
    ∧ setStore w' !! _params w'
      = Some (set_add (KName row1) (set_add (KName row0) (set_add (KName sampler) s)))
    ∧ parameters w'
      = setParameter (VStr row1) (VF32 l1)
          (setParameter (VStr row0) (VF32 l0)
             (setParameter (VStr sampler) map (parameters w))).
Proof.
  intros Hdef Hmap Htruthy Htiling Hoffset Hrotation Hcache Hid Hs sampler row0 row1.
  pose proof (registered_In _ Hdef) as Hreg. simpl in Hreg.
  repeat (apply andb_prop in Hreg as [Hreg _]). apply bool_decide_eq_true in Hreg.
  unfold _updateMap. rewrite (get_internal _ _ _ Hreg eq_refl). clear Hreg.
  unfold read. unfold mbind at 1, M_bind at 1. cbn [gets].
  rewrite Hmap, Htruthy. fold sampler.
  rewrite (bind_run _ _ _ _ _ (setParameter_run sampler map w s Hs)).
  set (w1 := set_parameters _ _).
  destruct (mapTransform_rows w1 name uv channels defChannel vertexColor detailMode
              VUndefined None tid tx ty oid ox oy r Hdef Htiling Hoffset Hrotation
              Hcache Hid w1 eq_refl)
    as (u & w2 & Hrun & id & l0 & l1 & -> & _ & _ & _ & _ & Hc).
  destruct (preserves_getUniform_uniformFrame _ _ _ _ _ _ Hrun) as (Hs2 & Hp2 & Hpar2).
  rewrite append_assoc. change ("Map" +:+ "Transform") with "MapTransform".
  rewrite (bind_run _ _ _ _ _ Hrun). clear Hrun.
  cbn [truthy _setParameters forEach]. fold row0 row1.
  apply lookup_lt_Some in Hs as Hlt.
  assert (setStore w2 !! _params w2 = Some (set_add (KName sampler) s)) as Hs2'.
  { rewrite Hs2, Hp2. unfold w1. simpl. by apply list_lookup_insert_eq. }
  rewrite (bind_run _ _ _ _ _ (setParameter_run row0 (VF32 l0) w2 _ Hs2')).
  set (w3 := set_parameters _ _).
  assert (setStore w3 !! _params w3
          = Some (set_add (KName row0) (set_add (KName sampler) s))) as Hs3.
  { unfold w3. simpl. apply list_lookup_insert_eq. by eapply lookup_lt_Some. }
  rewrite (bind_run _ _ _ _ _ (setParameter_run row1 (VF32 l1) w3 _ Hs3)).
  eexists _, id, l0, l1. split; [reflexivity|]. simpl.
  split; [exact Hc|]. split; [by rewrite Hp2|]. split.
  - apply list_lookup_insert_eq. rewrite length_insert. by eapply lookup_lt_Some.
  - by rewrite Hpar2.
Qed.

Lemma updateMap_registers_transform_witness :
  let w := materialAfter [OpSet "diffuseMap" (demoTexture 50 7);
                          OpSet "diffuseMapTiling" (Vec2 2 3)] in
  ∃ w', _updateMap (H := demo) (H0 := demoTables) "diffuse" w = Some (tt, w')
    ∧ setStore w' !! _params w'
      = Some [KName "texture_diffuseMap"; KName "texture_diffuseMapTransform0";
              KName "texture_diffuseMapTransform1"].
Proof.
  intros w.
  destruct (updateMap_registers_transform (H := demo) "diffuse" 0 3 "" true false
              w 7 8 2 3 0 0 0 (demoTexture 50 7) [])
    as (w' & id & l0 & l1 & Hrun & _ & _ & Hset & _).
  - apply list_elem_of_lookup. exists 65%nat. reflexivity.
  - vm_compute. reflexivity.
  - reflexivity.
  - vm_compute. reflexivity.
  - vm_compute. reflexivity.
  - vm_compute. reflexivity.
  - left. vm_compute. reflexivity.
  - vm_compute. reflexivity.
  - vm_compute. reflexivity.
  - exists w'. split; [exact Hrun|]. rewrite Hset. vm_compute. reflexivity.
Defined.

(** X19: the uniform of [cubeMapProjectionBox] is a pair of two different
    arrays, [envBoxMin] with the coordinates of [box.getMin()] and [envBoxMax]
    with those of [box.getMax()], each number as the array stores it; the pair
    is the cached uniform, and the properties are not touched. *)
Theorem projection_box_corners `{Collaborators} (w : state) (device : val)
    (scene : option Scene) (x y z x' y' z' : float) :
  getMin (field w "_cubeMapProjectionBox") = Some (x, y, z) →
  getMax (field w "_cubeMapProjectionBox") = Some (x', y', z') →
  cachedRows w "cubeMapProjectionBox" "envBoxMin" "envBoxMax" →
  ∃ id l0 l1 w',
    getUniform "cubeMapProjectionBox" device scene w
    = Some (VParams id [("envBoxMin", l0); ("envBoxMax", l1)], w')
    ∧ l0 ≠ l1
    ∧ f32Store w' !! l0 = Some [fround x; fround y; fround z]
    ∧ f32Store w' !! l1 = Some [fround x'; fround y'; fround z']
    ∧ _uniformCache w' !! "cubeMapProjectionBox"
      = Some (VParams id [("envBoxMin", l0); ("envBoxMax", l1)])
    ∧ fields w' = fields w.
Proof.
  intros Hmin Hmax Hcache.
  destruct (projectionBox_uniform w device scene x y z x' y' z' Hmin Hmax Hcache w eq_refl)
    as (u & w' & Hrun & id & l0 & l1 & -> & Hf & Hne & H0 & H1 & Hc).
  by exists id, l0, l1, w'.
Qed.

Lemma projection_box_corners_witness :
  ∃ id l0 l1 w',
    getUniform (H := demo) (H0 := demoTables) "cubeMapProjectionBox" VNull
      (Some demoScene) demoMaterial
    = Some (VParams id [("envBoxMin", l0); ("envBoxMax", l1)], w')
    ∧ f32Store w' !! l0 = Some [0; 0; 0]%float
    ∧ f32Store w' !! l1 = Some [1; 1; 1]%float.
Proof.
  destruct (projection_box_corners (H := demo) demoMaterial VNull (Some demoScene)
              0 0 0 1 1 1)
    as (id & l0 & l1 & w' & Hrun & _ & Hrow0 & Hrow1 & _).
  - reflexivity.
  - reflexivity.
  - left. vm_compute. reflexivity.
  - exists id, l0, l1, w'. split; [exact Hrun|]. split; [exact Hrow0 | exact Hrow1].
Defined.

End RegistrationFacts.

Import ParameterSets PropertyFacts TransformFacts CubemapFacts ResetFacts RegistrationFacts.

(* ===================================================================== *)
(** * What a pass of [updateUniforms] registers                           *)
(* ===================================================================== *)

Module PassFacts.

(** The names registered so far in this pass. *)
Definition paramsSet (w : state) : list pkey := default [] (setStore w !! _params w).

(** A step that registers names and forgets none, and leaves the properties
    alone. *)
Definition grows (w w' : state) : Prop :=
  fields w' = fields w
  ∧ _params w' = _params w
  ∧ trace w' = trace w
  ∧ ∀ k, k ∈ paramsSet w → k ∈ paramsSet w'.

#[local] Instance grows_preorder : PreOrder grows.
Proof.
  split.
  - by intros w.
  - intros w1 w2 w3 (Hf1 & Hp1 & Ht1 & Hk1) (Hf2 & Hp2 & Ht2 & Hk2).
    unfold grows. repeat split; try congruence. auto.
Qed.

(** [registers F P c]: a run of [c] on a material with the properties [F]
    ends with a name in [P] registered. *)
Definition registers {A} (F : gmap string val) (P : pkey → Prop) (c : M A) : Prop :=
  ∀ w a w', fields w = F → c w = Some (a, w') → ∃ k, P k ∧ k ∈ paramsSet w'.

Section Passes.
Context `{Collaborators}.

Lemma registers_bind_l {A B} F P (c : M A) (f : A → M B) :
  registers F P c → (∀ a, preserves grows (f a)) → registers F P (c ≫= f).
Proof.
  intros Hc Hf w b w' HF (a & w1 & H1 & H2)%bind_Some.
  destruct (Hc w a w1 HF H1) as (k & HP & Hk).
  exists k. split; [done|]. by apply (Hf a w1 b w' H2).
Qed.

Lemma registers_bind_r {A B} F P (c : M A) (f : A → M B) :
  preserves grows c → (∀ a, registers F P (f a)) → registers F P (c ≫= f).
Proof.
  intros Hc Hf w b w' HF (a & w1 & H1 & H2)%bind_Some.
  apply (Hf a w1 b w'); [|done].
  destruct (Hc w a w1 H1) as (-> & _). done.
Qed.

Lemma registers__setParameter F (P : pkey → Prop) name value k :
  key_of name = Some k → P k → registers F P (_setParameter name value).
Proof.
  intros Hk HP w [] w' _ (k' & s & Hk' & Hs & ->)%setParameter_Some.
  assert (k' = k) as -> by congruence.
  exists k. split; [done|]. unfold paramsSet. simpl.
  rewrite list_lookup_insert_eq by (by eapply lookup_lt_Some). simpl.
  unfold set_add. case_decide; [done|]. apply elem_of_app. right. by left.
Qed.

Lemma preserves__setParameter_grows name value :
  preserves grows (_setParameter name value).
Proof.
  intros w [] w' (k & s & Hk & Hs & ->)%setParameter_Some.
  unfold grows, paramsSet. simpl. repeat split; try done.
  intros k'. rewrite Hs, list_lookup_insert_eq by (by eapply lookup_lt_Some). simpl.
  unfold set_add. case_decide; [done|]. intros ?. apply elem_of_app. by left.
Qed.

Ltac grows_known :=
  idtac;
  lazymatch goal with
  | |- preserves _ (_setParameter _ _) => apply preserves__setParameter_grows
  | |- preserves _ (modify _) => apply preserves_modify; intros ?; done
  end.

Lemma preserves_get_grows name : preserves grows (get name).
Proof. repeat preserves_step grows_known. Qed.

Ltac grows_known2 :=
  idtac;
  lazymatch goal with
  | |- preserves _ (get _) => apply preserves_get_grows
  | _ => grows_known
  end.

Lemma preserves_getUniform_grows name device scene :
  preserves grows (getUniform name device scene).
Proof. repeat preserves_step grows_known2. Qed.

Lemma preserves__updateMap_grows p : preserves grows (_updateMap p).
Proof.
  unfold _updateMap.
  repeat preserves_step ltac:(idtac; lazymatch goal with
    | |- preserves _ (getUniform _ _ _) => apply preserves_getUniform_grows
    | _ => grows_known2
    end).
Qed.

Ltac grows_known3 :=
  idtac;
  lazymatch goal with
  | |- preserves _ (getUniform _ _ _) => apply preserves_getUniform_grows
  | |- preserves _ (_updateMap _) => apply preserves__updateMap_grows
  | _ => grows_known2
  end.


(** The statements of a pass, one after the other, until the one that
    registers [n]. *)
Ltac find_registration n :=
  lazymatch goal with
  | |- registers _ _ (setp n _ ≫= _) =>
      apply registers_bind_l;
      [ unfold setp; apply registers_bind_r;
        [ repeat preserves_step grows_known3
        | intros ?; eapply registers__setParameter; [reflexivity | done] ]
      | intros ?; repeat preserves_step grows_known3 ]
  | |- registers _ _ (setp n _) =>
      unfold setp; apply registers_bind_r;
      [ repeat preserves_step grows_known3
      | intros ?; eapply registers__setParameter; [reflexivity | done] ]
  | |- registers _ _ (_ ≫= _) =>
      apply registers_bind_r; [ repeat preserves_step grows_known3 | intros ? ];
      find_registration n
  end.

Lemma registers_ambient device scene F :
  registers F (λ k, k = KName "material_ambient") (registerUniforms device scene).
Proof. unfold registerUniforms. find_registration "material_ambient". Qed.

Lemma registers_shininess device scene F :
  registers F (λ k, k = KName "material_shininess") (registerUniforms device scene).
Proof. unfold registerUniforms. find_registration "material_shininess". Qed.

Lemma registers_opacity device scene F :
  registers F (λ k, k = KName "material_opacity") (registerUniforms device scene).
Proof. unfold registerUniforms. find_registration "material_opacity". Qed.

Lemma registers_reflectivity device scene F :
  registers F (λ k, k = KName "material_reflectivity") (registerUniforms device scene).
Proof. unfold registerUniforms. find_registration "material_reflectivity". Qed.




(** The active set a pass leaves is what the pass registered. *)
Lemma active_after_pass device scene w w' :
  _params w ≠ _activeParams w →
  is_Some (setStore w !! _params w) →
  updateUniforms device scene w = Some (tt, w') →
  ∃ wa, registerUniforms device scene w = Some (tt, wa)
    ∧ setStore w' !! _activeParams w' = Some (paramsSet wa)
    ∧ trace w' = trace wa ++ (if truthy (_dirtyShader wa) then [EvClearVariants] else [])
    ∧ _dirtyShader w' = _dirtyShader wa.
Proof.
  intros Hdistinct Hvalid Hrun.
  destruct (updateUniforms_Some device scene w w' Hvalid Hrun)
    as (wa & prev & cur & Hreg & Hframe & Hprev & Hcur & Htail).
  destruct Hframe as (_ & Hpa & Haa & _).
  exists wa. split; [exact Hreg|]. clear Hrun Hreg.
  unfold paramsSet. rewrite Hcur. simpl.
  revert Htail. unfold ifM, emit, mbind, M_bind, gets, modify, mret, M_ret, processed.
  simpl. apply lookup_lt_Some in Hprev.
  destruct (truthy (_dirtyShader wa)); intros [= <-]; simpl;
    (split; [rewrite list_lookup_insert_ne by congruence; exact Hcur|]);
    (split; [|reflexivity]); [reflexivity | by rewrite app_nil_r].
Qed.

End Passes.

(** X20: whatever its properties, a pass of [updateUniforms] that returns
    leaves [material_ambient], [material_shininess], [material_opacity] and
    [material_reflectivity] in the material's active set: the four are
    registered without condition. *)
Theorem every_pass_registers_basics `{Collaborators} (device : val) (scene : Scene)
    (w w' : state) :
  _params w ≠ _activeParams w →
  is_Some (setStore w !! _params w) →
  updateUniforms device scene w = Some (tt, w') →
  ∃ names, setStore w' !! _activeParams w' = Some names
    ∧ KName "material_ambient" ∈ names
    ∧ KName "material_shininess" ∈ names
    ∧ KName "material_opacity" ∈ names
    ∧ KName "material_reflectivity" ∈ names.
Proof.
  intros Hdistinct Hvalid Hrun.
  destruct (active_after_pass device scene w w' Hdistinct Hvalid Hrun)
    as (wa & Hreg & Hactive & _).
  exists (paramsSet wa). split; [exact Hactive|].
  destruct (registers_ambient device scene (fields w) w tt wa eq_refl Hreg) as (? & -> & ?).
  destruct (registers_shininess device scene (fields w) w tt wa eq_refl Hreg) as (? & -> & ?).
  destruct (registers_opacity device scene (fields w) w tt wa eq_refl Hreg) as (? & -> & ?).
  destruct (registers_reflectivity device scene (fields w) w tt wa eq_refl Hreg)
    as (? & -> & ?).
  clear Hrun Hreg. done.
Qed.

Lemma every_pass_registers_basics_witness :
  ∃ w' names,
    updateUniforms (H := demo) (H0 := demoTables) VNull demoScene demoMaterial = Some (tt, w')
    ∧ setStore w' !! _activeParams w' = Some names
    ∧ KName "material_ambient" ∈ names
    ∧ KName "material_reflectivity" ∈ names.
Proof.
  destruct (updateUniforms (H := demo) (H0 := demoTables) VNull demoScene demoMaterial)
    as [[[] w']|] eqn:Hrun.
  - destruct (every_pass_registers_basics (H := demo) VNull demoScene demoMaterial w')
      as (names & Hactive & Hambient & _ & _ & Hreflectivity).
    + vm_compute. discriminate.
    + eexists. vm_compute. reflexivity.
    + exact Hrun.
    + exists w', names. split; [reflexivity|]. split; [exact Hactive|].
      split; [exact Hambient | exact Hreflectivity].
  - assert (succeeds (updateUniforms (H := demo) (H0 := demoTables) VNull demoScene
                        demoMaterial) = true) as Hreturns by (vm_compute; reflexivity).
    rewrite Hrun in Hreturns. discriminate Hreturns.
Defined.



(** The active set of that pass: the array stands where the names
    [envBoxMin] and [envBoxMax] would. *)
Example box_projection_active_set :
  match updateUniforms (H := demo) (H0 := demoTables) VNull demoScene
          (materialAfter [OpSet "cubeMapProjection" (VNum 1)]) with
  | Some (_, w') => setStore w' !! _activeParams w'
  | None => None
  end
  = Some [KName "material_ambient"; KName "material_diffuse";
          KName "material_specular"; KName "material_shininess";
          KName "material_emissive"; KName "material_opacity";
          KName "material_occludeSpecularIntensity";
          KObj 55 [("envBoxMin", 4%nat); ("envBoxMax", 5%nat)];
          KName "material_reflectivity"].
Proof. vm_compute. reflexivity. Qed.




End PassFacts.
